(** * Async-cli-spinner: a shallow embedding of [index.js]

    The development follows the source file top-down: JavaScript strings and
    values, the property setters of [Spinner], the line renderer
    [lineToRender], the [start] life cycle with the process-wide counter
    [Spinner.count], and the batch orchestrator [Spinner.startAll].

    Third-party packages ([ansi-regex], [strip-ansi], [@topcli/wcwidth],
    [kleur], [cli-spinners]) are collaborators of the program, not part of it:
    the renderer is defined over them as section variables, and a small
    reference instance is given afterwards to evaluate concrete lines. *)

From Stdlib Require Import ZArith Lia Bool.
From Stdlib Require Import Strings.String Strings.Ascii.
From Stdlib Require Import Numbers.DecimalString.
From stdpp Require Import base list.

Local Open Scope nat_scope.

(** ** JavaScript strings

    A JavaScript string is a sequence of UTF-16 code units; [slice] and
    [length] count code units, which is what the renderer's truncation
    does. *)

Definition code_unit := N.
Definition jsstring := list code_unit.

(** A literal made of ASCII characters, as a sequence of code units. *)
Definition js (s : string) : jsstring :=
  List.map N_of_ascii (list_ascii_of_string s).
Arguments js : simpl never.

Definition LF : code_unit := 10%N.
Definition CR : code_unit := 13%N.
Definition ESC : code_unit := 27%N.
Definition CSI : code_unit := 155%N.
Definition SPACE : code_unit := 32%N.

(** [str.slice(0, n)] for a non-negative integer [n]. *)
Definition slice0 (n : nat) (s : jsstring) : jsstring := take n s.

(** The decimal text of a counter, as a template literal prints it. *)
Definition showNat (n : nat) : jsstring :=
  js (NilEmpty.string_of_uint (Nat.to_uint n)).

(** ** Values and exceptions *)

(** A plain object as the [spinner] setter inspects it: the two properties it
    reads, each possibly missing (or null). *)
Record plainObj := mkPlain {
  o_frames : option (list jsstring);
  o_interval : option Z
}.

Inductive value :=
| VUndefined
| VNull
| VBool (b : bool)
| VNum (n : Z)
| VStr (s : jsstring)
| VPlain (o : plainObj)
| VErr (stack : jsstring)      (* an Error instance and its [stack] text *)
| VOther.                      (* arrays, functions, class instances, ... *)

Inductive exn :=
| TypeError (msg : jsstring)
| Error (msg : jsstring).

Inductive result (A : Type) :=
| Ok (a : A)
| Throw (e : exn).
Arguments Ok {A} a.
Arguments Throw {A} e.

(** Statements in sequence: a [throw] skips what follows ([x ← r; k]). *)
#[global] Instance result_bind : MBind result := fun A B k r =>
  match r with
  | Ok a => k a
  | Throw e => Throw e
  end.

(** The predicates of [@slimio/is] the program uses. *)
Module Is.
Definition string (v : value) : bool :=
  match v with VStr _ => true | _ => false end.
Definition boolean (v : value) : bool :=
  match v with VBool _ => true | _ => false end.
Definition nullOrUndefined (v : value) : bool :=
  match v with VUndefined | VNull => true | _ => false end.
Definition plainObject (v : value) : bool :=
  match v with VPlain _ => true | _ => false end.
End Is.

(** ** [value.replace(/\r?\n|\r/, "")]

    The regular expression has no [g] flag: [replace] removes the leftmost
    match only.  At each position the first alternative [\r?\n] is tried
    before the second one [\r]. *)
Fixpoint replaceLineBreak (s : jsstring) : jsstring :=
  match s with
  | [] => []
  | c :: rest =>
      if (c =? CR)%N then
        match rest with
        | d :: rest' => if (d =? LF)%N then rest' else rest
        | [] => rest
        end
      else if (c =? LF)%N then rest
      else c :: replaceLineBreak rest
  end.

(** For comparison, what the specification words ask of the setter: every
    newline and carriage return is stripped. *)
Definition isLineBreak (c : code_unit) : bool := (c =? LF)%N || (c =? CR)%N.
Definition spec_stripLineBreaks (s : jsstring) : jsstring :=
  List.filter (fun c => negb (isLineBreak c)) s.

(** ** The spinner instance *)

Record SpinnerObj := mkSpinnerObj {
  frames : list jsstring;
  interval : Z
}.

Record Spinner := mkSpinner {
  verbose : bool;
  symSpinner : SpinnerObj;
  symPrefixText : jsstring;
  symText : jsstring;
  symColor : option jsstring;    (* [None]: null or undefined *)
  frameIndex : nat;
  started : bool;
  spinnerPos : option nat        (* [None]: not assigned yet *)
}.

Definition with_text (t : jsstring) (sp : Spinner) : Spinner :=
  mkSpinner (verbose sp) (symSpinner sp) (symPrefixText sp) t (symColor sp)
            (frameIndex sp) (started sp) (spinnerPos sp).
Definition with_prefixText (p : jsstring) (sp : Spinner) : Spinner :=
  mkSpinner (verbose sp) (symSpinner sp) p (symText sp) (symColor sp)
            (frameIndex sp) (started sp) (spinnerPos sp).
Definition with_color (c : option jsstring) (sp : Spinner) : Spinner :=
  mkSpinner (verbose sp) (symSpinner sp) (symPrefixText sp) (symText sp) c
            (frameIndex sp) (started sp) (spinnerPos sp).
Definition with_spinner (o : SpinnerObj) (sp : Spinner) : Spinner :=
  mkSpinner (verbose sp) o (symPrefixText sp) (symText sp) (symColor sp)
            (frameIndex sp) (started sp) (spinnerPos sp).
Definition with_frameIndex (i : nat) (sp : Spinner) : Spinner :=
  mkSpinner (verbose sp) (symSpinner sp) (symPrefixText sp) (symText sp) (symColor sp)
            i (started sp) (spinnerPos sp).
Definition with_started (b : bool) (sp : Spinner) : Spinner :=
  mkSpinner (verbose sp) (symSpinner sp) (symPrefixText sp) (symText sp) (symColor sp)
            (frameIndex sp) b (spinnerPos sp).
Definition with_spinnerPos (p : option nat) (sp : Spinner) : Spinner :=
  mkSpinner (verbose sp) (symSpinner sp) (symPrefixText sp) (symText sp) (symColor sp)
            (frameIndex sp) (started sp) p.

(** *** [set text(value)] and [get text()] *)
Definition set_text (v : value) (sp : Spinner) : result Spinner :=
  match v with
  | VStr s => Ok (with_text (replaceLineBreak s) sp)
  | _ => Throw (TypeError (js "text must be a type of string"))
  end.

Definition get_text (sp : Spinner) : jsstring := symText sp.

(** *** [set prefixText(value)] *)
Definition SEPARATOR : jsstring := js " - ".

Definition set_prefixText (v : value) (sp : Spinner) : Spinner :=
  match v with
  | VStr s => with_prefixText (replaceLineBreak s ++ SEPARATOR) sp
  | _ => with_prefixText [] sp
  end.

Definition get_prefixText (sp : Spinner) : jsstring := symPrefixText sp.

(** *** [set color(value)] *)
Definition set_color (v : value) (sp : Spinner) : result Spinner :=
  match v with
  | VStr c => Ok (with_color (Some c) sp)
  | VUndefined | VNull => Ok (with_color None sp)
  | _ => Throw (TypeError (js "Color must be a type of string or undefined"))
  end.

Definition get_color (sp : Spinner) : option jsstring := symColor sp.

(** ** Terminal effects and life-cycle events

    Writes to the terminal, timers and events are recorded in a log, oldest
    first. *)
Inductive lifecycle := EvStart | EvSucceed | EvFailed.

Inductive effect :=
| MoveCursor (dx : Z) (dy : option Z)   (* [dy = None]: the offset is NaN *)
| ClearLine
| StdoutWrite (s : jsstring)
| ConsoleLog (s : jsstring)
| ConsoleError (s : jsstring)
| SetInterval (ms : Z)
| ClearInterval
| Emit (e : lifecycle)                  (* [Spinner.emitter.emit(e)] *)
| EmitImmediate (e : lifecycle)         (* the same, deferred by [setImmediate] *)
| HideCursor
| ShowCursor
| Invoke (i : nat).                     (* the [i]-th task of a batch is called *)

(** The promise [once(this.emitter, "start")] made by the constructor: it
    listens until the first ["start"] event, which resolves it and queues its
    [then] callback as a job; the callback runs once. *)
Inductive oncePromise := NoEmitter | Listening | JobQueued | CallbackRan.

(** What a call does: it returns, it throws, or the [while (1)] loop of the
    renderer has not stabilised within the fuel given. *)
Inductive outcome (A : Type) :=
| Returns (a : A)
| Throws (e : exn)
| Diverges.
Arguments Returns {A} a.
Arguments Throws {A} e.
Arguments Diverges {A}.

(** One instance in its process: the static [Spinner.count], the instance,
    the state of its [once] promise and the effects so far. *)
Record World := mkWorld {
  count : nat;
  this : Spinner;
  once : oncePromise;
  effects : list effect
}.

(** A line without escape introducer, and a line of single-column code units
    for a width function. *)
Definition plain (s : jsstring) : Prop :=
  Forall (fun c => c <> ESC /\ c <> CSI) s.
Definition narrow (wcwidth : jsstring -> nat) (s : jsstring) : Prop :=
  Forall (fun c => wcwidth [c] <= 1) s.

(** A matcher finds at least as many escape sequences in a longer slice of
    the line. *)
Definition matches_grow (ansiMatch : jsstring -> list jsstring) (raw : jsstring) : Prop :=
  forall n m, n <= m ->
    length (ansiMatch (slice0 n raw)) <= length (ansiMatch (slice0 m raw)).

(** The part of the world the stack position depends on. *)
Definition registry (w : World) : option nat * oncePromise * nat :=
  (spinnerPos (this w), once w, count w).

Definition quote : jsstring := [34%N].
Definition RESET : jsstring := ESC :: js "[0m".
Definition DEFAULT_SPINNER : jsstring := js "dots".
Definition LINE_JUMP : nat := 1.

Section WithCollaborators.

(** *** Collaborators *)

(** The presets: [cliSpinners[name]] for the names of the table, each an
    object with [frames] and [interval]; the names the table object only
    inherits come with [set_spinnerOn] below.  And the preset that
    [cliSpinners[Spinner.DEFAULT_SPINNER]] names. *)
Variable cliSpinners : jsstring -> option SpinnerObj.
Variable defaultPreset : SpinnerObj.
(** [s.match(ansiRegex()) || []]: the escape sequences found in [s]. *)
Variable ansiMatch : jsstring -> list jsstring.
Variable stripAnsi : jsstring -> jsstring.
(** [wcwidth(s)]: columns taken by [s]; the package gives control characters
    width 0, so no width is negative. *)
Variable wcwidth : jsstring -> nat.
(** [kleur[name]] when it is a function, applied to a frame ([None] is
    [undefined]) and printed by the template literal. *)
Variable kleur : jsstring -> option (option jsstring -> jsstring).

(** *** [set spinner(value)] *)
Definition set_spinner (v : value) (sp : Spinner) : result Spinner :=
  sp' ← match v with
        | VPlain o =>
            match o_frames o, o_interval o with
            | None, _ => Throw (Error (js "Spinner object must have a frames property"))
            | Some _, None => Throw (Error (js "Spinner object must have an interval property"))
            | Some fr, Some iv => Ok (with_spinner (mkSpinnerObj fr iv) sp)
            end
        | VStr name =>
            match cliSpinners name with
            | Some o => Ok (with_spinner o sp)
            | None =>
                Throw (Error (js "There is no built-in spinner named '" ++ name
                              ++ js "'. See " ++ quote ++ js "cli-spinners" ++ quote
                              ++ js " from sindresorhus for a full list."))
            end
        | VUndefined | VNull => Ok (with_spinner defaultPreset sp)
        | _ => Throw (TypeError (js "spinner must be a type of string|object|undefined"))
        end;
  Ok (with_frameIndex 0 sp').

(** *** [lineToRender(symbol)] *)

(** Lines 202-209: the frame of this render, and the index advanced. *)
Definition pickFrame (symbol : option jsstring) (sp : Spinner)
  : option jsstring * Spinner :=
  match symbol with
  | None =>
      let fr := frames (symSpinner sp) in
      let next := S (frameIndex sp) in
      (fr !! frameIndex sp,
       with_frameIndex (if next <? length fr then next else 0) sp)
  | Some s => (Some s, sp)
  end.

Definition toStr (frame : option jsstring) : jsstring :=
  from_option id (js "undefined") frame.

(** Lines 211-213. *)
Definition colorize (color : option jsstring) (frame : option jsstring)
  : result jsstring :=
  match color with
  | None => Ok (toStr frame)
  | Some c =>
      match kleur c with
      | Some paint => Ok (paint frame)
      | None => Throw (TypeError (js "kleur[this.color] is not a function"))
      end
  end.

(** Line 214. *)
Definition defaultRaw (frame prefix text : jsstring) : jsstring :=
  frame ++ [SPACE] ++ prefix ++ text.

(** Lines 216-225: iterate until the number of escape sequences found in
    the slice equals [count]; the last [regexArray] is returned. *)
Fixpoint stabilise (fuel : nat) (raw : jsstring) (terminalCol cnt : nat)
  : option (list jsstring) :=
  match fuel with
  | 0 => None
  | S fuel' =>
      let regexArray := ansiMatch (slice0 (terminalCol + cnt) raw) in
      if length regexArray =? cnt then Some regexArray
      else stabilise fuel' raw terminalCol (length regexArray)
  end.

(** Line 226. *)
Definition allowance (regexArray : list jsstring) : nat :=
  length regexArray + foldl (fun prev curr => prev + wcwidth curr) 0 regexArray.

(** Lines 216-232, on the raw line. *)
Definition fit (fuel terminalCol : nat) (raw : jsstring) : outcome jsstring :=
  match stabilise fuel raw terminalCol 0 with
  | None => Diverges
  | Some regexArray =>
      let cnt := allowance regexArray in
      if terminalCol <? wcwidth (stripAnsi raw)
      then Returns (slice0 (terminalCol + cnt) raw ++ RESET)
      else Returns raw
  end.

Definition lineToRender (fuel terminalCol : nat) (symbol : option jsstring)
                        (sp : Spinner) : Spinner * outcome jsstring :=
  let '(frame, sp') := pickFrame symbol sp in
  match colorize (symColor sp') frame with
  | Throw e => (sp', Throws e)
  | Ok painted =>
      (sp', fit fuel terminalCol
                (defaultRaw painted (symPrefixText sp') (symText sp')))
  end.

(** [k] renders in a row without a symbol: the instance afterwards. *)
Fixpoint renders (fuel terminalCol k : nat) (sp : Spinner) : Spinner :=
  match k with
  | 0 => sp
  | S k' => renders fuel terminalCol k' (fst (lineToRender fuel terminalCol None sp))
  end.

(** The visible width of a line: escape sequences stripped, wide glyphs
    counted twice by [wcwidth]. *)
Definition visibleWidth (line : jsstring) : nat := wcwidth (stripAnsi line).

(** *** The instance in its process *)

(** The glyphs of [./src/logSymbols.js]. *)
Variable logSymbols_success logSymbols_error : jsstring.

Definition emit (e : effect) (w : World) : World :=
  mkWorld (count w) (this w) (once w) (effects w ++ [e]).
Definition update (f : Spinner -> Spinner) (w : World) : World :=
  mkWorld (count w) (f (this w)) (once w) (effects w).
Definition with_once (o : oncePromise) (w : World) : World :=
  mkWorld (count w) (this w) o (effects w).
Definition with_count (c : nat) (w : World) : World :=
  mkWorld c (this w) (once w) (effects w).

(** [new Spinner(options)], lines 46-65; the four setters may throw. *)
Record options := mkOptions {
  opt_spinner : value;
  opt_prefixText : value;
  opt_text : value;
  opt_color : value;
  opt_verbose : value
}.

Definition blank (v : bool) : Spinner :=
  mkSpinner v (mkSpinnerObj [] 0) [] [] None 0 false None.

Definition construct (o : options) (cnt : nat) : result World :=
  let v := match opt_verbose o with VBool b => b | _ => true end in
  if negb v then Ok (mkWorld cnt (blank false) NoEmitter [])
  else
    sp ← set_spinner (opt_spinner o) (blank true);
    let sp := set_prefixText (opt_prefixText o) sp in
    sp ← set_text (if Is.string (opt_text o) then opt_text o else VStr []) sp;
    sp ← set_color (opt_color o) sp;
    Ok (mkWorld cnt (with_started false sp) Listening []).

(** [this.emitter.emit("start")]: the first one resolves the [once] promise,
    whose listener is then gone. *)
Definition emitStart (w : World) : World :=
  match once w with
  | Listening => with_once JobQueued w
  | _ => w
  end.

(** The callback of lines 61-64, run from the job queue. *)
Definition runJob (w : World) : World :=
  match once w with
  | JobQueued =>
      with_once CallbackRan
        (with_count (S (count w)) (update (with_spinnerPos (Some (count w))) w))
  | _ => w
  end.

(** [renderLine(symbol)], lines 243-251. *)
Definition renderLine (fuel terminalCol : nat) (symbol : option jsstring)
                      (w : World) : World * outcome unit :=
  let moveCursorPos :=
    (fun p => Z.of_nat (count w) - Z.of_nat p)%Z <$> spinnerPos (this w) in
  let w := emit (MoveCursor 0 (Z.opp <$> moveCursorPos)) w in
  let '(sp, r) := lineToRender fuel terminalCol symbol (this w) in
  let w := update (fun _ => sp) w in
  match r with
  | Returns line =>
      let w := emit ClearLine w in
      let w := emit (StdoutWrite line) w in
      (emit (MoveCursor (- Z.of_nat (length line)) moveCursorPos) w, Returns tt)
  | Throws e => (w, Throws e)
  | Diverges => (w, Diverges)
  end.

(** [if (!is.nullOrUndefined(text)) { this.text = text; }] *)
Definition overrideText (text : value) (sp : Spinner) : result Spinner :=
  if Is.nullOrUndefined text then Ok sp else set_text text sp.

(** [start(text)], lines 261-278. *)
Definition start (fuel terminalCol : nat) (text : value) (w : World)
  : World * outcome unit :=
  if negb (verbose (this w)) then (w, Returns tt)
  else
    match overrideText text (this w) with
    | Throw e => (w, Throws e)
    | Ok sp =>
        let w := update (fun _ => with_started true sp) w in
        let w := emitStart w in
        let w := emit (EmitImmediate EvStart) w in
        let w := update (with_frameIndex 0) w in
        let '(sp, r) := lineToRender fuel terminalCol None (this w) in
        let w := update (fun _ => sp) w in
        match r with
        | Returns line =>
            let w := emit (ConsoleLog line) w in
            (emit (SetInterval (interval (symSpinner (this w)))) w, Returns tt)
        | Throws e => (w, Throws e)
        | Diverges => (w, Diverges)
        end
    end.

(** [stop(text)], lines 288-298. *)
Definition stop (text : value) (w : World) : World * outcome unit :=
  if negb (verbose (this w)) || negb (started (this w)) then (w, Returns tt)
  else
    match overrideText text (this w) with
    | Throw e => (w, Throws e)
    | Ok sp =>
        let w := update (fun _ => with_started false sp) w in
        (emit ClearInterval w, Returns tt)
    end.

(** [succeed(text)] and [failed(text)], lines 308-334. *)
Definition finish (glyph : jsstring) (ev : lifecycle)
                  (fuel terminalCol : nat) (text : value) (w : World)
  : World * outcome unit :=
  if negb (verbose (this w)) then (w, Returns tt)
  else
    match stop text w with
    | (w, Returns _) =>
        match renderLine fuel terminalCol (Some glyph) w with
        | (w, Returns _) => (emit (Emit ev) w, Returns tt)
        | other => other
        end
    | other => other
    end.

Definition succeed := finish logSymbols_success EvSucceed.
Definition failed := finish logSymbols_error EvFailed.

(** What can happen to an instance, one step at a time: its methods, the
    interval firing, the job queue reaching its callback, its setters, and
    the rest of the process changing [Spinner.count] (other instances
    registering, [startAll] resetting it). *)
Inductive action : Set :=
| DoStart (text : value)
| DoStop (text : value)
| DoSucceed (text : value)
| DoFailed (text : value)
| Tick
| Job
| SetText (v : value)
| SetPrefixText (v : value)
| SetColor (v : value)
| SetSpinner (v : value)
| OtherCount (c : nat).

Definition assign (r : result Spinner) (w : World) : World :=
  match r with
  | Ok sp => update (fun _ => sp) w
  | Throw _ => w
  end.

Definition step (fuel terminalCol : nat) (a : action) (w : World) : World :=
  match a with
  | DoStart text => fst (start fuel terminalCol text w)
  | DoStop text => fst (stop text w)
  | DoSucceed text => fst (succeed fuel terminalCol text w)
  | DoFailed text => fst (failed fuel terminalCol text w)
  | Tick => fst (renderLine fuel terminalCol None w)
  | Job => runJob w
  | SetText v => assign (set_text v (this w)) w
  | SetPrefixText v => update (set_prefixText v) w
  | SetColor v => assign (set_color v (this w)) w
  | SetSpinner v => assign (set_spinner v (this w)) w
  | OtherCount c => with_count c w
  end.

Definition run (fuel terminalCol : nat) (acts : list action) (w : World) : World :=
  foldl (fun w a => step fuel terminalCol a w) w acts.

(** *** A stored spinner without frames

    [cliSpinners] is an object of the language: besides its presets,
    [cliSpinners[name]] is truthy for the names of the properties the object
    inherits ([toString], [constructor], ...).  Line 162 accepts such a
    name and line 163 stores the inherited value, which has no [frames];
    the first render without a symbol then throws at line 204, in
    [frames[this.frameIndex]].  [inherited name] says that [name] is such a
    name; the flag that comes with an instance says that what it stores as
    its spinner has no frames. *)
Variable inherited : jsstring -> bool.

Definition storesInherited (v : value) : bool :=
  match v with
  | VStr name =>
      match cliSpinners name with
      | Some _ => false
      | None => inherited name
      end
  | _ => false
  end.

(** [set spinner(value)] with the inherited names. *)
Definition set_spinnerOn (v : value) (sp : Spinner) : result (Spinner * bool) :=
  if storesInherited v then Ok (with_frameIndex 0 sp, true)
  else sp' ← set_spinner v sp; Ok (sp', false).

(** [start(text)] on an instance that comes with the flag [frameless]:
    lines 262-273, then the throw of line 204 when there are no frames. *)
Definition startOn (frameless : bool) (fuel terminalCol : nat) (text : value)
                   (w : World) : World * outcome unit :=
  if frameless && verbose (this w) then
    match overrideText text (this w) with
    | Throw e => (w, Throws e)
    | Ok sp =>
        let w := update (fun _ => with_started true sp) w in
        let w := emitStart w in
        let w := emit (EmitImmediate EvStart) w in
        let w := update (with_frameIndex 0) w in
        (w, Throws (TypeError (js "Cannot read properties of undefined (reading '0')")))
    end
  else start fuel terminalCol text w.

End WithCollaborators.

(** ** [Spinner.startAll(functions, options)] *)

(** How the promise returned by a task ends. *)
Inductive settle :=
| Resolves (v : value)
| Rejects (reason : value)
| NeverSettles.

(** An element of [functions], as [is.asyncFunction] and [is.array] see it:
    an async function (its behaviour on the arguments it is called with), any
    other value, or an array [[fn, ...args]] (the empty array has
    [fn = undefined], which is not an async function). *)
Inductive callee :=
| AsyncFunction (body : list value -> settle)
| NotAsync.

Inductive entry :=
| Bare (fn : callee)
| Packed (fn : callee) (args : list value).

Inductive functionsArg :=
| NotArray
| Array (elems : list entry).

Record startAllOptions := mkStartAllOptions {
  recap : value;       (* [VUndefined] when the property is absent *)
  rejects : value
}.

Definition recapSetOpt : list jsstring := [js "none"; js "error"; js "always"].

Definition recapSetOpt_has (v : value) : bool :=
  match v with
  | VStr s => bool_decide (s ∈ recapSetOpt)
  | _ => false
  end.

(** Lines 354-366. *)
Definition checkEntry (e : entry) : result unit :=
  match e with
  | Packed (AsyncFunction _) _ => Ok tt
  | Packed NotAsync _ =>
      Throw (TypeError (js "The first item of an array in startAll() functions param must be a type of <Function>"))
  | Bare (AsyncFunction _) => Ok tt
  | Bare NotAsync =>
      Throw (TypeError (js "Item startAll() functions param must be a type of <Function>"))
  end.

Fixpoint checkEntries (elems : list entry) : result unit :=
  match elems with
  | [] => Ok tt
  | e :: rest => _ ← checkEntry e; checkEntries rest
  end.

(** Lines 368-373: the recap mode and the rejects flag in force. *)
Definition checkRecap (o : startAllOptions) : result jsstring :=
  if negb (Is.nullOrUndefined (recap o)) && negb (recapSetOpt_has (recap o))
  then Throw (Error (js "recap option must be none|error|always"))
  else Ok (match recap o with
           | VStr s => if recapSetOpt_has (recap o) then s else js "always"
           | _ => js "always"
           end).

Definition rejectOpt (o : startAllOptions) : bool :=
  match rejects o with
  | VBool b => b
  | _ => true
  end.

(** The counters of one batch, lines 374-375. *)
Record counters := mkCounters {
  c_recap : bool;
  c_started : nat;
  c_finished : nat;
  c_failed : nat
}.

(** [writeRecap()], lines 381-390. *)
Definition recapStr (total : nat) (c : counters) : jsstring :=
  showNat (c_finished c) ++ js " / " ++ showNat total ++ js " : with "
  ++ showNat (c_failed c) ++ js " failed".

Definition writeRecap (col total : nat) (c : counters) : list effect :=
  let s := recapStr total c in
  let displayRecap := if col <? length s then slice0 col s else s in
  [ MoveCursor 0 (Some (Z.of_nat LINE_JUMP)); ClearLine; StdoutWrite displayRecap;
    MoveCursor (- Z.of_nat (length displayRecap)) (Some (- Z.of_nat LINE_JUMP)%Z) ].

(** The three listeners of lines 393-416, on one event. *)
Definition onEvent (recapOpt : jsstring) (col total : nat) (ev : lifecycle)
                   (st : counters * list effect) : counters * list effect :=
  let '(c, log) := st in
  match ev with
  | EvStart =>
      let c := mkCounters (c_recap c) (S (c_started c)) (c_finished c) (c_failed c) in
      if (c_started c =? total) && c_recap c
      then (c, log ++ [ConsoleLog []; MoveCursor 0 (Some (- Z.of_nat LINE_JUMP)%Z)]
                   ++ writeRecap col total c)
      else (c, log)
  | EvSucceed =>
      let c := mkCounters (c_recap c) (c_started c) (S (c_finished c)) (c_failed c) in
      if (c_started c =? total) && c_recap c
      then (c, log ++ writeRecap col total c)
      else (c, log)
  | EvFailed =>
      let c := mkCounters (bool_decide (recapOpt = js "error")
                           || bool_decide (recapOpt = js "always"))
                          (c_started c) (S (c_finished c)) (S (c_failed c)) in
      if (c_started c =? total) && c_recap c
      then (c, log ++ writeRecap col total c)
      else (c, log)
  end.

(** Lines 419-430: the join.  A task is called with its arguments and its
    promise gets the handler [(err) => rejects.push(err)]; the value of the
    handled promise is the task's value, or what the handler returns, and
    [Array.prototype.push] returns the new length of the array. *)
Definition invoke (e : entry) : settle :=
  match e with
  | Bare (AsyncFunction body) => body []
  | Packed (AsyncFunction body) args => body args
  | _ => NeverSettles
  end.

Record joinState := mkJoin {
  slots : list (option value);    (* [None]: the promise is still pending *)
  rejected : list value           (* the array [rejects] *)
}.

Definition settleOne (tasks : list settle) (st : joinState) (i : nat) : joinState :=
  match slots st !! i, tasks !! i with
  | Some None, Some (Resolves v) =>
      mkJoin (<[i := Some v]> (slots st)) (rejected st)
  | Some None, Some (Rejects reason) =>
      let rejects' := rejected st ++ [reason] in
      mkJoin (<[i := Some (VNum (Z.of_nat (length rejects')))]> (slots st)) rejects'
  | _, _ => st
  end.

(** The tasks settle in the order [order] gives (indices into the batch);
    those that settle and are not listed follow in submission order. *)
Definition join (tasks : list settle) (order : list nat) : joinState :=
  foldl (settleOne tasks)
        (mkJoin (replicate (length tasks) None) [])
        (order ++ seq 0 (length tasks)).

(** The slots filled so far agree with the tasks: a task that resolved has
    its value in its slot, a task that rejected has in its slot the rank (from
    1) of its reason in [rejects], and no slot of a task that never settles
    is filled. *)
Definition aligned (tasks : list settle) (st : joinState) : Prop :=
  length (slots st) = length tasks
  /\ forall i x,
       slots st !! i = Some (Some x) ->
       match tasks !! i with
       | Some (Resolves v) => x = v
       | Some (Rejects reason) =>
           exists k, x = VNum (Z.of_nat (S k)) /\ rejected st !! k = Some reason
       | _ => False
       end.

(** The text printed for a captured reason whose [stack] can be read. *)
Definition stackText (reject : value) : jsstring :=
  match reject with
  | VErr stack => stack
  | _ => js "undefined"
  end.

Definition nullish (v : value) : Prop := v = VUndefined \/ v = VNull.

(** [Promise.all]: fulfilled with every slot once none is pending. *)
Definition allSettled (st : joinState) : option (list value) :=
  mapM id (slots st).

(** [reject.stack] inside the template literal of line 440. *)
Definition stackOf (reject : value) : result jsstring :=
  match reject with
  | VUndefined =>
      Throw (TypeError (js "Cannot read properties of undefined (reading 'stack')"))
  | VNull =>
      Throw (TypeError (js "Cannot read properties of null (reading 'stack')"))
  | VErr stack => Ok stack
  | _ => Ok (js "undefined")
  end.

(** Lines 439-441. *)
Fixpoint printRejects (rs : list value) (log : list effect) : list effect * result unit :=
  match rs with
  | [] => (log, Ok tt)
  | r :: rest =>
      match stackOf r with
      | Ok stack => printRejects rest (log ++ [ConsoleError (LF :: stack)])
      | Throw e => (log, Throw e)
      end
  end.

(** How the promise returned by [startAll] ends. *)
Inductive settled :=
| Fulfilled (results : list value)
| RejectedWith (e : exn)
| Pending.

Record batch := mkBatch {
  b_effects : list effect;
  b_promise : settled;
  b_count : option nat      (* [Some 0] once line 444 has reset [Spinner.count] *)
}.

(** The body of [startAll].  [col] is [process.stdout.columns], [events] the
    life-cycle events the shared emitter delivers while the join is awaited,
    [order] the order in which the tasks settle.  The listeners here are
    those of this call; the ones earlier calls have left on the emitter come
    with [startAllIn] below. *)
Definition startAll (col : nat) (events : list lifecycle) (order : list nat)
                    (functions : functionsArg) (o : startAllOptions) : batch :=
  match functions with
  | NotArray =>
      mkBatch [] (RejectedWith (TypeError (js "functions param must be a type of <array>"))) None
  | Array elems =>
      match (_ ← checkEntries elems; checkRecap o) with
      | Throw e => mkBatch [] (RejectedWith e) None
      | Ok recapOpt =>
          let total := length elems in
          let c0 := mkCounters (bool_decide (recapOpt = js "always")) 0 0 0 in
          let log := HideCursor :: (Invoke <$> seq 0 total) in
          let '(c, log) := foldl (fun st ev => onEvent recapOpt col total ev st)
                                 (c0, log) events in
          let st := join (invoke <$> elems) order in
          match allSettled st with
          | None => mkBatch log Pending None
          | Some results =>
              let log := if c_recap c
                         then log ++ writeRecap col total c
                                  ++ [MoveCursor 0 (Some (Z.of_nat (LINE_JUMP + 1)))]
                         else log in
              match (if rejectOpt o then printRejects (rejected st) log else (log, Ok tt)) with
              | (log, Throw e) => mkBatch log (RejectedWith e) None
              | (log, Ok _) => mkBatch (log ++ [ShowCursor]) (Fulfilled results) (Some 0)
              end
          end
      end
  end.

(** *** The listeners in the process

    Lines 393-416 add the three listeners of a call to the process-wide
    [Spinner.emitter] and nothing removes them: the listeners of the earlier
    calls of the process hear the events of a later batch too, each with the
    mode, the number of tasks and the counters of its own call. *)
Record listener := mkListener {
  l_recapOpt : jsstring;
  l_total : nat;
  l_counters : counters
}.

(** The listeners of one call, on one event. *)
Definition hear (col : nat) (ev : lifecycle) (st : list listener * list effect)
                (l : listener) : list listener * list effect :=
  let '(heard, log) := st in
  let '(c, log) := onEvent (l_recapOpt l) col (l_total l) ev (l_counters l, log) in
  (heard ++ [mkListener (l_recapOpt l) (l_total l) c], log).

(** [Spinner.emitter.emit(ev)]: the listeners are called in the order in
    which they were added. *)
Definition deliver (col : nat) (st : list listener * list effect) (ev : lifecycle)
  : list listener * list effect :=
  foldl (hear col ev) ([], snd st) (fst st).

(** [startAll] in a process where the calls before it have left the
    listeners [earlier]; the second component is what is registered on the
    emitter afterwards.  [startAll] above is the call in a process whose
    earlier listeners, if any, write nothing. *)
Definition startAllIn (earlier : list listener) (col : nat) (events : list lifecycle)
                      (order : list nat) (functions : functionsArg) (o : startAllOptions)
  : batch * list listener :=
  match functions with
  | NotArray =>
      (mkBatch [] (RejectedWith (TypeError (js "functions param must be a type of <array>"))) None,
       earlier)
  | Array elems =>
      match (_ ← checkEntries elems; checkRecap o) with
      | Throw e => (mkBatch [] (RejectedWith e) None, earlier)
      | Ok recapOpt =>
          let total := length elems in
          let c0 := mkCounters (bool_decide (recapOpt = js "always")) 0 0 0 in
          let log := HideCursor :: (Invoke <$> seq 0 total) in
          let '(registered, log) :=
            foldl (deliver col) (earlier ++ [mkListener recapOpt total c0], log) events in
          let c := from_option l_counters c0 (last registered) in
          let st := join (invoke <$> elems) order in
          (match allSettled st with
           | None => mkBatch log Pending None
           | Some results =>
               let log := if c_recap c
                          then log ++ writeRecap col total c
                                   ++ [MoveCursor 0 (Some (Z.of_nat (LINE_JUMP + 1)))]
                          else log in
               match (if rejectOpt o then printRejects (rejected st) log else (log, Ok tt)) with
               | (log, Throw e) => mkBatch log (RejectedWith e) None
               | (log, Ok _) => mkBatch (log ++ [ShowCursor]) (Fulfilled results) (Some 0)
               end
           end,
           registered)
      end
  end.

(** *** Sample batches *)

(** Three tasks: one resolves with 7, one rejects with an [Error],
    one rejects with [undefined] (as [Promise.reject()] does). *)
Definition resolves7 : entry := Bare (AsyncFunction (fun _ => Resolves (VNum 7))).
Definition rejectsBoom : entry := Bare (AsyncFunction (fun _ => Rejects (VErr (js "Error: boom")))).
Definition rejectsUndefined : entry := Bare (AsyncFunction (fun _ => Rejects VUndefined)).
Definition noOptions : startAllOptions := mkStartAllOptions VUndefined VUndefined.

(** ** A reference instance of the collaborators

    Enough of the third-party packages to evaluate the renderer on concrete
    lines.  [wcwidth] is the width function of the package without its table
    of combining marks; [ansiMatch] and [stripAnsi] follow the pattern of
    [ansi-regex] except for its alternative that ends in BEL, so they are the
    packages' on lines that hold neither; [kleur] has colouring enabled. *)
Module Reference.

Definition inRange (lo hi c : N) : bool := ((lo <=? c) && (c <=? hi))%N.

Definition isWide (c : code_unit) : bool :=
  (4352 <=? c)%N &&
  ( (c <=? 4447)%N || (c =? 9001)%N || (c =? 9002)%N
    || (inRange 11904 42191 c && negb (c =? 12351)%N)
    || inRange 44032 55203 c || inRange 63744 64255 c
    || inRange 65040 65049 c || inRange 65072 65135 c
    || inRange 65280 65376 c || inRange 65504 65510 c ).

Definition unitWidth (c : code_unit) : nat :=
  if (c =? 0)%N then 0
  else if (c <? 32)%N || inRange 127 159 c then 0
  else if isWide c then 2 else 1.

Definition wcwidth (s : jsstring) : nat := sum_list (unitWidth <$> s).

(** The pattern: an introducer (ESC or U+009B), any number of the
    intermediates [ ] ( ) # ; ?, optionally one to four digits followed by
    any number of groups made of a semicolon and up to four digits, and a
    final character among the digits, A-P, R-T, Z, c, f-n, q-u, y, =, >, <
    and ~.  It is matched with the priorities of a backtracking engine:
    every quantifier is greedy and gives back one repetition at a time. *)
Definition isIntroducer (c : code_unit) : bool := (c =? ESC)%N || (c =? CSI)%N.
Definition isIntermediate (c : code_unit) : bool :=
  bool_decide (c ∈ [91; 93; 40; 41; 35; 59; 63]%N).
Definition isDigit (c : code_unit) : bool := inRange 48 57 c.
Definition isFinal (c : code_unit) : bool :=
  isDigit c || inRange 65 80 c || inRange 82 84 c || (c =? 90)%N || (c =? 99)%N
  || inRange 102 110 c || inRange 113 117 c || (c =? 121)%N
  || (c =? 61)%N || (c =? 62)%N || (c =? 60)%N || (c =? 126)%N.

Fixpoint run_of (p : code_unit -> bool) (s : jsstring) : nat :=
  match s with
  | c :: rest => if p c then S (run_of p rest) else 0
  | [] => 0
  end.

(** The first of [k(n), k(n-1), ..., k(0)] that succeeds. *)
Fixpoint longestFirst (n : nat) (k : nat -> option nat) : option nat :=
  match k n with
  | Some r => Some r
  | None => match n with S n' => longestFirst n' k | 0 => None end
  end.

Definition final (s : jsstring) : option nat :=
  match s with
  | f :: _ => if isFinal f then Some 1 else None
  | [] => None
  end.

(** The semicolon groups, then the final character: code units consumed. *)
Fixpoint groups (fuel : nat) (s : jsstring) : option nat :=
  match fuel, s with
  | S fuel', c :: rest =>
      if (c =? 59)%N then
        match longestFirst (Nat.min 4 (run_of isDigit rest))
                (fun j => (fun n => 1 + j + n) <$> groups fuel' (drop j rest)) with
        | Some r => Some r
        | None => final s
        end
      else final s
  | _, _ => final s
  end.

(** The optional digits with their groups, then the final character. *)
Definition parameters (s : jsstring) : option nat :=
  match Nat.min 4 (run_of isDigit s) with
  | S d =>
      match longestFirst d
              (fun i => (fun n => S i + n) <$> groups (length s) (drop (S i) s)) with
      | Some r => Some r
      | None => final s
      end
  | 0 => final s
  end.

(** The length of the escape sequence [s] starts with, if any. *)
Definition sequenceLength (s : jsstring) : option nat :=
  match s with
  | c :: rest =>
      if isIntroducer c then
        longestFirst (run_of isIntermediate rest)
          (fun k => (fun n => 1 + k + n) <$> parameters (drop k rest))
      else None
  | [] => None
  end.

(** Left to right: an escape sequence ([inl]) or a code unit of text
    ([inr]); [skip] counts the code units of a sequence still to pass. *)
Fixpoint scan (skip : nat) (s : jsstring) : list (jsstring + code_unit) :=
  match s with
  | [] => []
  | c :: rest =>
      match skip with
      | S k => scan k rest
      | 0 =>
          match sequenceLength s with
          | Some n => inl (take n s) :: scan (n - 1) rest
          | None => inr c :: scan 0 rest
          end
      end
  end.

Definition ansiMatch (s : jsstring) : list jsstring :=
  omap (fun t => match t with inl m => Some m | inr _ => None end) (scan 0 s).

Definition stripAnsi (s : jsstring) : jsstring :=
  omap (fun t => match t with inl _ => None | inr c => Some c end) (scan 0 s).

Definition colours : list (jsstring * nat) :=
  [ (js "black", 30); (js "red", 31); (js "green", 32); (js "yellow", 33);
    (js "blue", 34); (js "magenta", 35); (js "cyan", 36); (js "white", 37);
    (js "gray", 90); (js "grey", 90) ].

Definition paint (code : nat) (frame : option jsstring) : jsstring :=
  match frame with
  | Some txt => ESC :: js "[" ++ showNat code ++ js "m" ++ txt ++ ESC :: js "[39m"
  | None => js "[object Object]"
  end.

Definition kleur (name : jsstring) : option (option jsstring -> jsstring) :=
  match list_find (fun p => fst p = name) colours with
  | Some (_, (_, code)) => Some (paint code)
  | None => None
  end.

(** The preset ["dots"] of [cli-spinners]. *)
Definition dots : SpinnerObj :=
  mkSpinnerObj ((fun c => [c]) <$>
                [10251; 10265; 10297; 10296; 10300; 10292; 10278; 10279; 10247; 10255]%N)
               80.

Definition cliSpinners (name : jsstring) : option SpinnerObj :=
  if decide (name = js "dots") then Some dots else None.

(** Modelled from the spec: the glyphs of [./src/logSymbols.js], which is
    not among the sources; the spec only says that a fixed success marker
    and a fixed failure marker exist. *)
Definition logSymbols_success : jsstring := [10004%N].
Definition logSymbols_error : jsstring := [10006%N].

(** The names every object inherits from [Object.prototype]. *)
Definition inherited (name : jsstring) : bool :=
  bool_decide (name ∈ [ js "constructor"; js "hasOwnProperty"; js "isPrototypeOf";
                        js "propertyIsEnumerable"; js "toLocaleString"; js "toString";
                        js "valueOf"; js "__proto__"; js "__defineGetter__";
                        js "__defineSetter__"; js "__lookupGetter__";
                        js "__lookupSetter__" ]).

Definition lineToRender := lineToRender ansiMatch stripAnsi wcwidth kleur.
Definition visibleWidth := visibleWidth stripAnsi wcwidth.
Definition set_spinner := set_spinner cliSpinners dots.
Definition set_spinnerOn := set_spinnerOn cliSpinners dots inherited.
Definition startOn := startOn ansiMatch stripAnsi wcwidth kleur.
Definition construct := construct cliSpinners dots.
Definition start := start ansiMatch stripAnsi wcwidth kleur.
Definition run :=
  run cliSpinners dots ansiMatch stripAnsi wcwidth kleur
      logSymbols_success logSymbols_error.

(** A spinner made with [new Spinner({ text })]. *)
Definition spinnerWith (frame_text : jsstring) : Spinner :=
  mkSpinner true dots [] frame_text None 0 false None.

End Reference.

(** ** [Spinner.create(fn, ...args)], lines 459-468 *)
Definition create (fn : callee) (args : list value) : result entry :=
  match fn with
  | NotAsync => Throw (TypeError (js "fn param must be an Asynchronous Function"))
  | AsyncFunction _ => Ok (if 0 <? length args then Packed fn args else Bare fn)
  end.

(** ** Vocabulary for the properties *)

(** The reasons of the tasks that reject, in submission order. *)
Definition rejectReasons (tasks : list settle) : list value :=
  omap (fun s => match s with Rejects r => Some r | _ => None end) tasks.

(** The code units taken by the escape sequences a matcher has found. *)
Definition escLength (ms : list jsstring) : nat := sum_list (length <$> ms).

(** A matcher of one sequence at the head of a line finds the same on a
    longer line, unless it finds a sequence that runs past the shorter one. *)
Definition stable (f : jsstring -> option nat) : Prop :=
  forall s t, f (s ++ t) = f s \/ exists n', f (s ++ t) = Some n' /\ length s < n'.

(** What follows the introducer in a sequence of the reference matcher: no
    introducer, and code units of one column each. *)
Definition sequenceUnit (c : code_unit) : Prop :=
  Reference.isIntroducer c = false /\ Reference.unitWidth c = 1.
Definition sequenceBody (s : jsstring) : Prop := Forall sequenceUnit s.

(** The frame index is inside the frame set, or at 0 when the set is empty. *)
Definition indexInFrames (sp : Spinner) : Prop :=
  frameIndex sp < Nat.max 1 (length (frames (symSpinner sp))).

(** The four public methods among the steps of an instance. *)
Definition isMethod (a : action) : bool :=
  match a with
  | DoStart _ | DoStop _ | DoSucceed _ | DoFailed _ => true
  | _ => false
  end.

Definition isStdoutWrite (e : effect) : bool :=
  match e with StdoutWrite _ => true | _ => false end.
Definition isConsoleError (e : effect) : bool :=
  match e with ConsoleError _ => true | _ => false end.
Definition isSetInterval (e : effect) : bool :=
  match e with SetInterval _ => true | _ => false end.
Definition isClearInterval (e : effect) : bool :=
  match e with ClearInterval => true | _ => false end.

Definition isEvStart (ev : lifecycle) : bool :=
  match ev with EvStart => true | _ => false end.
Definition isEvSucceed (ev : lifecycle) : bool :=
  match ev with EvSucceed => true | _ => false end.
Definition isEvFailed (ev : lifecycle) : bool :=
  match ev with EvFailed => true | _ => false end.
Definition countIf {A} (p : A -> bool) (l : list A) : nat :=
  length (List.filter p l).

(** The counters and the log after the listeners have seen [events]. *)
Definition listen (recapOpt : jsstring) (col total : nat) (events : list lifecycle)
                  (st : counters * list effect) : counters * list effect :=
  foldl (fun st ev => onEvent recapOpt col total ev st) st events.

(** A listener left by an earlier call whose recap is hidden and stays
    hidden while [events] arrive. *)
Definition staysHidden (events : list lifecycle) (l : listener) : Prop :=
  c_recap (l_counters l) = false
  /\ (l_recapOpt l = js "none" \/ existsb isEvFailed events = false).

(** What a batch with a hidden recap puts in the log. *)
Definition quietEffect (e : effect) : Prop :=
  match e with
  | HideCursor | ShowCursor | Invoke _ | ConsoleError _ => True
  | _ => False
  end.

(** A write that fits the terminal, counted in code units. *)
Definition fitsColumns (col : nat) (e : effect) : Prop :=
  match e with
  | StdoutWrite s => length s <= col
  | _ => True
  end.

(** What the listeners and [writeRecap] do to the terminal: cursor moves,
    clearing the line, the blank [console.log], and writes of at most [col]
    code units. *)
Definition recapEffect (col : nat) (e : effect) : Prop :=
  match e with
  | MoveCursor _ _ | ClearLine | ConsoleLog _ => True
  | StdoutWrite s => length s <= col
  | _ => False
  end.

(** Line 374 and line 375. *)
Definition initialCounters (recapOpt : jsstring) : counters :=
  mkCounters (bool_decide (recapOpt = js "always")) 0 0 0.

(** The line printed for a captured reason. *)
Definition diagnostic (reject : value) : effect :=
  ConsoleError (LF :: stackText reject).

(** The reasons of the rejecting tasks whose slot is filled, in submission
    order. *)
Definition capturedSoFar (tasks : list settle) (st : joinState) : list value :=
  omap (fun i => match tasks !! i, slots st !! i with
                 | Some (Rejects r), Some (Some _) => Some r
                 | _, _ => None
                 end)
       (seq 0 (length tasks)).

(** * Properties *)

(** ** The setters of [text], [prefixText] and [color] *)

Lemma replaceLineBreak_clean (s : jsstring) :
  Forall (fun c => isLineBreak c = false) s -> replaceLineBreak s = s.
Proof.
  induction 1 as [|c rest Hc _ IH]; [reflexivity|].
  unfold isLineBreak in Hc. apply orb_false_elim in Hc as [Hlf Hcr].
  cbn [replaceLineBreak]. rewrite Hcr, Hlf. now f_equal.
Qed.

Lemma get_set_text (s : jsstring) (sp : Spinner) :
  exists sp', set_text (VStr s) sp = Ok sp' /\ get_text sp' = replaceLineBreak s.
Proof. eexists. split; reflexivity. Qed.

(** C3: the setter of [text] removes the first line break only.  Assigning
    [a\nb\nc] and reading the property back yields [ab\nc], which still holds
    a newline and is not the fully stripped value. *)
Theorem text_setter_leaves_later_line_breaks :
  let value := js "a" ++ [LF] ++ js "b" ++ [LF] ++ js "c" in
  exists sp,
    set_text (VStr value) (blank true) = Ok sp
    /\ get_text sp = js "ab" ++ [LF] ++ js "c"
    /\ LF ∈ get_text sp
    /\ get_text sp <> spec_stripLineBreaks value.
Proof.
  eexists. split; [reflexivity|]. split; [reflexivity|]. split.
  - now apply (list_elem_of_lookup_2 _ 2).
  - discriminate.
Qed.

(** C9, as stated, fails: assigning the empty string stores the separator. *)
Lemma prefixText_empty_string_has_separator :
  get_prefixText (set_prefixText (VStr []) (blank true)) = SEPARATOR
  /\ SEPARATOR <> [].
Proof. split; [reflexivity | discriminate]. Qed.

(** C9, amended: the stored prefix ends with the separator exactly when the
    assigned value is a string, the empty string included; a string without
    line break is stored as it is, followed by the separator.  Any other
    value stores the empty prefix. *)
Theorem prefixText_separator_iff_string (v : value) (sp : Spinner) :
  (SEPARATOR `suffix_of` get_prefixText (set_prefixText v sp) <-> Is.string v = true)
  /\ (forall s, v = VStr s -> Forall (fun c => isLineBreak c = false) s ->
        get_prefixText (set_prefixText v sp) = s ++ SEPARATOR)
  /\ (Is.string v = false -> get_prefixText (set_prefixText v sp) = []).
Proof.
  split; [|split].
  - destruct v; cbn; split; try discriminate; try reflexivity;
      try (intros [k Hk]; destruct k; discriminate).
    intros _. now exists (replaceLineBreak s).
  - intros s -> Hs. cbn. now rewrite replaceLineBreak_clean.
  - destruct v; cbn; intros; try reflexivity; discriminate.
Qed.

(** C8, as stated, fails: a string that names no colour is accepted by the
    setter; the failure comes when the line is rendered. *)
Lemma color_setter_accepts_unsupported_name :
  let sp := Reference.spinnerWith (js "loading") in
  set_color (VStr (js "notacolor")) sp = Ok (with_color (Some (js "notacolor")) sp)
  /\ Reference.kleur (js "notacolor") = None
  /\ snd (Reference.lineToRender 1 80 None (with_color (Some (js "notacolor")) sp))
     = Throws (TypeError (js "kleur[this.color] is not a function")).
Proof. repeat split. Qed.

(** ** The renderer and the frame index *)

Section RendererFacts.

Variable ansiMatch : jsstring -> list jsstring.
Variable stripAnsi : jsstring -> jsstring.
Variable wcwidth : jsstring -> nat.
Variable kleur : jsstring -> option (option jsstring -> jsstring).

Local Abbreviation lineToRender' := (lineToRender ansiMatch stripAnsi wcwidth kleur).
Local Abbreviation renders' := (renders ansiMatch stripAnsi wcwidth kleur).
Local Abbreviation fit' := (fit ansiMatch stripAnsi wcwidth).
Local Abbreviation visibleWidth' := (visibleWidth stripAnsi wcwidth).
Local Abbreviation start' := (start ansiMatch stripAnsi wcwidth kleur).

(** Whatever the render does afterwards, the instance it leaves is the one
    [pickFrame] leaves. *)
Lemma lineToRender_state fuel W symbol sp :
  fst (lineToRender' fuel W symbol sp) = snd (pickFrame symbol sp).
Proof.
  unfold lineToRender. destruct (pickFrame symbol sp) as [frame sp'].
  now destruct (colorize kleur (symColor sp') frame).
Qed.

Lemma pickFrame_index sp :
  frameIndex sp < length (frames (symSpinner sp)) ->
  frameIndex (snd (pickFrame None sp))
  = S (frameIndex sp) mod length (frames (symSpinner sp)).
Proof.
  intros Hlt. cbn [pickFrame snd with_frameIndex frameIndex].
  destruct (Nat.ltb_spec (S (frameIndex sp)) (length (frames (symSpinner sp)))) as [H|H].
  - now rewrite Nat.mod_small.
  - replace (S (frameIndex sp)) with (length (frames (symSpinner sp))) by lia.
    rewrite Nat.Div0.mod_same. reflexivity.
Qed.

Lemma pickFrame_spinner symbol sp :
  symSpinner (snd (pickFrame symbol sp)) = symSpinner sp.
Proof. now destruct symbol. Qed.

Lemma renders_spinner fuel W k sp :
  symSpinner (renders' fuel W k sp) = symSpinner sp.
Proof.
  revert sp. induction k as [|k IH]; intros sp; [reflexivity|].
  cbn [renders]. now rewrite IH, lineToRender_state, pickFrame_spinner.
Qed.

Lemma renders_index fuel W k sp :
  let N := length (frames (symSpinner sp)) in
  frameIndex sp < N ->
  frameIndex (renders' fuel W k sp) = (frameIndex sp + k) mod N.
Proof.
  cbn zeta. revert sp. induction k as [|k IH]; intros sp Hlt.
  - cbn. rewrite Nat.add_0_r. now rewrite Nat.mod_small.
  - cbn [renders].
    assert (Hi := pickFrame_index sp Hlt).
    rewrite IH; rewrite !lineToRender_state, ?pickFrame_spinner.
    + rewrite Hi, Nat.Div0.add_mod_idemp_l. f_equal. lia.
    + rewrite Hi. apply Nat.mod_upper_bound. lia.
Qed.

(** The index stays inside a frame set that has frames, and at 0 with an
    empty one. *)
Lemma pickFrame_bound symbol sp :
  frameIndex sp < Nat.max 1 (length (frames (symSpinner sp))) ->
  frameIndex (snd (pickFrame symbol sp))
  < Nat.max 1 (length (frames (symSpinner (snd (pickFrame symbol sp))))).
Proof.
  intros H. destruct symbol as [s|]; [exact H|].
  cbn [pickFrame snd with_frameIndex frameIndex symSpinner].
  destruct (Nat.ltb_spec (S (frameIndex sp)) (length (frames (symSpinner sp)))); lia.
Qed.

(** C8, amended: a value that is neither a string nor null nor undefined
    makes the setter throw its [TypeError], and nothing else does; every
    string is stored as it is, null and undefined leave the instance without
    colour; a stored name for which [kleur] has no function makes the
    renderer throw a [TypeError] when a line is rendered. *)
Theorem color_checked_by_type_then_at_render :
  (forall v sp,
      Is.string v = false -> Is.nullOrUndefined v = false ->
      set_color v sp = Throw (TypeError (js "Color must be a type of string or undefined")))
  /\ (forall v sp e,
        set_color v sp = Throw e -> Is.string v = false /\ Is.nullOrUndefined v = false)
  /\ (forall c sp, set_color (VStr c) sp = Ok (with_color (Some c) sp))
  /\ (forall v sp,
        Is.nullOrUndefined v = true -> set_color v sp = Ok (with_color None sp))
  /\ (forall fuel W symbol sp c,
        symColor sp = Some c -> kleur c = None ->
        snd (lineToRender' fuel W symbol sp)
        = Throws (TypeError (js "kleur[this.color] is not a function"))).
Proof.
  split; [|split; [|split; [|split]]].
  - intros v sp. destruct v; cbn; intros; try discriminate; reflexivity.
  - intros v sp e. destruct v; cbn; intros H; try discriminate H; now split.
  - reflexivity.
  - intros v sp. destruct v; cbn; intros; try discriminate; reflexivity.
  - intros fuel W symbol sp c Hc Hk. unfold lineToRender.
    destruct (pickFrame symbol sp) as [frame sp'] eqn:Hp.
    assert (symColor sp' = Some c) as ->.
    { destruct symbol; cbn in Hp; inversion Hp; subst; cbn; assumption. }
    cbn. now rewrite Hk.
Qed.

End RendererFacts.

(** ** The instance: frame index at [start], position in the stack *)

Section InstanceFacts.

Variable cliSpinners : jsstring -> option SpinnerObj.
Variable defaultPreset : SpinnerObj.
Variable ansiMatch : jsstring -> list jsstring.
Variable stripAnsi : jsstring -> jsstring.
Variable wcwidth : jsstring -> nat.
Variable kleur : jsstring -> option (option jsstring -> jsstring).
Variable logSymbols_success logSymbols_error : jsstring.

Local Abbreviation set_spinner' := (set_spinner cliSpinners defaultPreset).
Local Abbreviation construct' := (construct cliSpinners defaultPreset).
Local Abbreviation lineToRender' := (lineToRender ansiMatch stripAnsi wcwidth kleur).
Local Abbreviation fit' := (fit ansiMatch stripAnsi wcwidth).
Local Abbreviation renderLine' := (renderLine ansiMatch stripAnsi wcwidth kleur).
Local Abbreviation start' := (start ansiMatch stripAnsi wcwidth kleur).
Local Abbreviation finish' := (finish ansiMatch stripAnsi wcwidth kleur).
Local Abbreviation step' :=
  (step cliSpinners defaultPreset ansiMatch stripAnsi wcwidth kleur
        logSymbols_success logSymbols_error).
Local Abbreviation run' :=
  (run cliSpinners defaultPreset ansiMatch stripAnsi wcwidth kleur
       logSymbols_success logSymbols_error).

(** C10: every assignment the [spinner] setter accepts leaves the frame
    index at 0, be the value a custom object, a preset name or absent; and
    [start()] resets the index before its render, so the line it prints is
    built from [frames[0]] whatever the index was. *)
Theorem frame_index_reset :
  (forall v sp sp', set_spinner' v sp = Ok sp' -> frameIndex sp' = 0)
  /\ (forall fr iv sp,
        set_spinner' (VPlain (mkPlain (Some fr) (Some iv))) sp
        = Ok (with_frameIndex 0 (with_spinner (mkSpinnerObj fr iv) sp)))
  /\ (forall name o sp,
        cliSpinners name = Some o ->
        set_spinner' (VStr name) sp = Ok (with_frameIndex 0 (with_spinner o sp)))
  /\ (forall sp,
        set_spinner' VUndefined sp = Ok (with_frameIndex 0 (with_spinner defaultPreset sp)))
  /\ (forall fuel W text w sp0 painted line,
        verbose (this w) = true ->
        overrideText text (this w) = Ok sp0 ->
        colorize kleur (symColor sp0) (frames (symSpinner sp0) !! 0) = Ok painted ->
        fit' fuel W (defaultRaw painted (symPrefixText sp0) (symText sp0)) = Returns line ->
        snd (start' fuel W text w) = Returns tt
        /\ effects (fst (start' fuel W text w))
           = effects w ++ [EmitImmediate EvStart; ConsoleLog line;
                           SetInterval (interval (symSpinner sp0))]).
Proof.
  split; [|split; [|split; [|split]]].
  - intros v sp sp' H. unfold set_spinner in H.
    match type of H with (mbind _ ?r) = _ => destruct r as [sp1|e] end;
      cbn in H; [now inversion H | discriminate].
  - reflexivity.
  - intros name o sp H. cbn. now rewrite H.
  - reflexivity.
  - intros fuel W text w sp0 painted line Hv Ht Hc Hf.
    unfold start. rewrite Hv, Ht. cbn [negb].
    unfold lineToRender, emitStart.
    cbn -[colorize fit lookup].
    destruct (once w); cbn -[colorize fit lookup]; rewrite Hc, Hf; cbn;
      (split; [reflexivity | now rewrite <- !app_assoc]).
Qed.

(** What the steps other than the job leave alone. *)
Lemma set_text_pos v sp sp' :
  set_text v sp = Ok sp' -> spinnerPos sp' = spinnerPos sp /\ verbose sp' = verbose sp.
Proof. destruct v; cbn; intros H; inversion H; now subst. Qed.

Lemma overrideText_pos text sp sp' :
  overrideText text sp = Ok sp' ->
  spinnerPos sp' = spinnerPos sp /\ verbose sp' = verbose sp.
Proof.
  unfold overrideText. destruct (Is.nullOrUndefined text).
  - intros H; inversion H; now subst.
  - apply set_text_pos.
Qed.

Lemma lineToRender_pos fuel W symbol sp :
  spinnerPos (fst (lineToRender' fuel W symbol sp)) = spinnerPos sp.
Proof. rewrite lineToRender_state. now destruct symbol. Qed.

Lemma renderLine_registry fuel W symbol w :
  registry (fst (renderLine' fuel W symbol w)) = registry w.
Proof.
  unfold renderLine, registry.
  match goal with |- context [lineToRender' ?f ?c ?s ?x] =>
    pose proof (lineToRender_pos f c s x) as Hp;
    destruct (lineToRender' f c s x) as [sp1 [line|e|]] end;
    cbn in *; now rewrite Hp.
Qed.

Lemma stop_registry text w :
  registry (fst (stop text w)) = registry w.
Proof.
  unfold stop, registry.
  destruct (negb (verbose (this w)) || negb (started (this w))); [reflexivity|].
  destruct (overrideText text (this w)) as [sp|e] eqn:Ht; [|reflexivity].
  apply overrideText_pos in Ht as [Hp _]. cbn. now rewrite Hp.
Qed.

Lemma finish_registry glyph ev fuel W text w :
  registry (fst (finish' glyph ev fuel W text w)) = registry w.
Proof.
  unfold finish. destruct (negb (verbose (this w))); [reflexivity|].
  pose proof (stop_registry text w) as Hs.
  destruct (stop text w) as [w1 [[]|e|]]; cbn in Hs; try assumption.
  pose proof (renderLine_registry fuel W (Some glyph) w1) as Hr.
  destruct (renderLine' fuel W (Some glyph) w1) as [w2 [[]|e|]]; cbn in Hr |- *;
    now rewrite <- Hs, <- Hr.
Qed.

Lemma start_registry fuel W text w :
  registry (fst (start' fuel W text w))
  = match overrideText text (this w) with
    | Ok _ => if verbose (this w) then registry (emitStart w) else registry w
    | Throw _ => registry w
    end.
Proof.
  unfold start. destruct (verbose (this w)) eqn:Hv; cbn [negb].
  2:{ now destruct (overrideText text (this w)). }
  destruct (overrideText text (this w)) as [sp|e] eqn:Ht; [|reflexivity].
  apply overrideText_pos in Ht as [Hp _].
  match goal with |- context [lineToRender' ?f ?c ?s ?x] =>
    pose proof (lineToRender_pos f c s x) as Hl;
    destruct (lineToRender' f c s x) as [sp1 [line|e|]] end;
    unfold registry, emitStart in *; cbn in Hl |- *;
    destruct (once w); cbn in Hl |- *; now rewrite Hl, Hp.
Qed.

Lemma assign_registry r w :
  (forall sp', r = Ok sp' -> spinnerPos sp' = spinnerPos (this w)) ->
  registry (assign r w) = registry w.
Proof. destruct r as [sp'|e]; intros H; [|reflexivity]. unfold registry. cbn. now rewrite (H sp'). Qed.

Lemma set_color_pos v sp sp' : set_color v sp = Ok sp' -> spinnerPos sp' = spinnerPos sp.
Proof. destruct v; cbn; intros H; inversion H; now subst. Qed.

Lemma set_spinner_pos v sp sp' : set_spinner' v sp = Ok sp' -> spinnerPos sp' = spinnerPos sp.
Proof.
  unfold set_spinner. intros H.
  match type of H with (mbind _ ?r) = _ => destruct r as [sp1|e] eqn:E end;
    cbn in H; [|discriminate].
  inversion H; subst; cbn.
  destruct v as [| | | | name | [[fr|] [iv|]] | |]; cbn in E; try discriminate;
    try (inversion E; now subst).
  destruct (cliSpinners name); [inversion E; now subst | discriminate].
Qed.

(** A step that is not the job changes neither the position nor the
    counter owned by others' steps, and moves the promise at most from
    listening to queued. *)
Lemma step_not_job fuel W a w :
  a <> Job ->
  spinnerPos (this (step' fuel W a w)) = spinnerPos (this w)
  /\ (once (step' fuel W a w) = once w
      \/ once w = Listening /\ once (step' fuel W a w) = JobQueued).
Proof.
  intros Ha.
  assert (Hreg : forall w', registry w' = registry w ->
                   spinnerPos (this w') = spinnerPos (this w)
                   /\ (once w' = once w \/ once w = Listening /\ once w' = JobQueued)).
  { unfold registry. intros w' Hw. inversion Hw. auto. }
  destruct a; cbn [step]; try congruence.
  - pose proof (start_registry fuel W text w) as Hs.
    destruct (overrideText text (this w)); [|now apply Hreg].
    destruct (verbose (this w)); [|now apply Hreg].
    unfold registry, emitStart in Hs.
    destruct (once w) eqn:Ho; cbn in Hs; rewrite ?Ho in Hs; inversion Hs; auto.
  - apply Hreg, stop_registry.
  - apply Hreg, finish_registry.
  - apply Hreg, finish_registry.
  - apply Hreg, renderLine_registry.
  - apply Hreg, assign_registry. intros sp' H. now apply set_text_pos in H as [? _].
  - apply Hreg. unfold registry. now destruct v.
  - apply Hreg, assign_registry. intros sp'. apply set_color_pos.
  - apply Hreg, assign_registry. intros sp'. apply set_spinner_pos.
  - cbn. auto.
Qed.

Lemma queued_until_job fuel W acts w :
  Job ∉ acts -> once w = JobQueued ->
  once (run' fuel W acts w) = JobQueued
  /\ spinnerPos (this (run' fuel W acts w)) = spinnerPos (this w).
Proof.
  revert w. induction acts as [|a acts IH]; intros w Hn Hq; [now split|].
  apply not_elem_of_cons in Hn as [Ha Hn].
  destruct (step_not_job fuel W a w) as [Hp [Ho|[Ho _]]]; [congruence| |congruence].
  unfold run in *. cbn [foldl].
  destruct (IH (step' fuel W a w) Hn) as [H1 H2]; [congruence|].
  split; [assumption | congruence].
Qed.

Lemma after_callback fuel W acts w :
  once w = CallbackRan ->
  once (run' fuel W acts w) = CallbackRan
  /\ spinnerPos (this (run' fuel W acts w)) = spinnerPos (this w).
Proof.
  revert w. induction acts as [|a acts IH]; intros w Hc; [now split|].
  unfold run in *. cbn [foldl].
  assert (once (step' fuel W a w) = CallbackRan
          /\ spinnerPos (this (step' fuel W a w)) = spinnerPos (this w)) as [Ho Hp].
  { destruct a;
      try (cbn; unfold runJob; rewrite Hc; now split);
      match goal with |- context [step' _ _ ?a _] =>
        destruct (step_not_job fuel W a w) as [Hp [Ho|[Ho _]]];
          [discriminate | split; congruence | congruence]
      end. }
  destruct (IH _ Ho) as [H1 H2]. split; [assumption | congruence].
Qed.

(** C7, amended: a verbose instance is made listening, with no position.  The first
    [start()] that gets past the text check resolves the [once] promise and
    queues its callback; until that job runs nothing assigns the position;
    the job assigns the value [Spinner.count] has at that moment and
    increments the counter; after it, no sequence of steps (further
    [start()] calls and jobs included) changes the position. *)
Theorem position_assigned_once :
  (forall o cnt w,
      construct' o cnt = Ok w -> verbose (this w) = true ->
      once w = Listening /\ spinnerPos (this w) = None)
  /\ (forall fuel W text w sp0,
        verbose (this w) = true -> once w = Listening ->
        overrideText text (this w) = Ok sp0 ->
        let w1 := fst (start' fuel W text w) in
        once w1 = JobQueued
        /\ spinnerPos (this w1) = spinnerPos (this w)
        /\ count w1 = count w
        /\ forall mid, Job ∉ mid ->
              let w2 := run' fuel W mid w1 in
              let w3 := runJob w2 in
              spinnerPos (this w2) = spinnerPos (this w)
              /\ spinnerPos (this w3) = Some (count w2)
              /\ count w3 = S (count w2)
              /\ forall later,
                    spinnerPos (this (run' fuel W later w3)) = Some (count w2)).
Proof.
  split.
  - intros o cnt w Hc Hv. unfold construct in Hc.
    destruct (negb _) eqn:Hn.
    { inversion Hc; subst. discriminate. }
    cbn in Hc.
    destruct (set_spinner' (opt_spinner o) (blank true)) as [sp1|e] eqn:E1;
      cbn in Hc; [|discriminate].
    destruct (set_text _ _) as [sp2|e] eqn:E2; cbn in Hc; [|discriminate].
    destruct (set_color _ sp2) as [sp3|e] eqn:E3; cbn in Hc; [|discriminate].
    inversion Hc; subst. cbn. split; [reflexivity|].
    rewrite (set_color_pos _ _ _ E3).
    apply set_text_pos in E2 as [-> _].
    assert (spinnerPos (set_prefixText (opt_prefixText o) sp1) = spinnerPos sp1) as ->
      by now destruct (opt_prefixText o).
    now rewrite (set_spinner_pos _ _ _ E1).
  - intros fuel W text w sp0 Hv Ho Ht. cbn zeta.
    pose proof (start_registry fuel W text w) as Hs.
    rewrite Ht, Hv in Hs. unfold registry, emitStart in Hs. rewrite Ho in Hs.
    cbn in Hs. injection Hs as Hp Hq Hc.
    split; [assumption|]. split; [assumption|]. split; [assumption|].
    intros mid Hmid.
    destruct (queued_until_job fuel W mid _ Hmid Hq) as [Hq2 Hp2].
    split; [congruence|].
    unfold runJob at 1 2. rewrite Hq2. cbn. split; [reflexivity|].
    split; [reflexivity|].
    intros later.
    edestruct (after_callback fuel W later (runJob (run' fuel W mid (fst (start' fuel W text w)))))
      as [_ Hl].
    + unfold runJob. now rewrite Hq2.
    + rewrite Hl. unfold runJob. now rewrite Hq2.
Qed.

End InstanceFacts.

(** ** The frame index in every state an instance reaches *)

Section FrameIndexFacts.

Variable cliSpinners : jsstring -> option SpinnerObj.
Variable defaultPreset : SpinnerObj.
Variable ansiMatch : jsstring -> list jsstring.
Variable stripAnsi : jsstring -> jsstring.
Variable wcwidth : jsstring -> nat.
Variable kleur : jsstring -> option (option jsstring -> jsstring).
Variable logSymbols_success logSymbols_error : jsstring.

Local Abbreviation set_spinner' := (set_spinner cliSpinners defaultPreset).
Local Abbreviation construct' := (construct cliSpinners defaultPreset).
Local Abbreviation lineToRender' := (lineToRender ansiMatch stripAnsi wcwidth kleur).
Local Abbreviation renders' := (renders ansiMatch stripAnsi wcwidth kleur).
Local Abbreviation renderLine' := (renderLine ansiMatch stripAnsi wcwidth kleur).
Local Abbreviation start' := (start ansiMatch stripAnsi wcwidth kleur).
Local Abbreviation finish' := (finish ansiMatch stripAnsi wcwidth kleur).
Local Abbreviation step' :=
  (step cliSpinners defaultPreset ansiMatch stripAnsi wcwidth kleur
        logSymbols_success logSymbols_error).
Local Abbreviation run' :=
  (run cliSpinners defaultPreset ansiMatch stripAnsi wcwidth kleur
       logSymbols_success logSymbols_error).

Lemma lineToRender_bound fuel W symbol sp :
  indexInFrames sp -> indexInFrames (fst (lineToRender' fuel W symbol sp)).
Proof.
  unfold indexInFrames. rewrite lineToRender_state. apply pickFrame_bound.
Qed.

Lemma set_text_frames v sp sp' :
  set_text v sp = Ok sp' -> indexInFrames sp -> indexInFrames sp'.
Proof. destruct v; cbn; intros H; inversion H; now subst. Qed.

Lemma overrideText_frames text sp sp' :
  overrideText text sp = Ok sp' -> indexInFrames sp -> indexInFrames sp'.
Proof.
  unfold overrideText. destruct (Is.nullOrUndefined text).
  - intros H; inversion H; now subst.
  - apply set_text_frames.
Qed.

Lemma set_color_frames v sp sp' :
  set_color v sp = Ok sp' -> indexInFrames sp -> indexInFrames sp'.
Proof. destruct v; cbn; intros H; inversion H; now subst. Qed.

Lemma set_spinner_frames v sp sp' :
  set_spinner' v sp = Ok sp' -> indexInFrames sp'.
Proof.
  unfold set_spinner. intros H.
  match type of H with (mbind _ ?r) = _ => destruct r as [sp1|e] end;
    cbn in H; [|discriminate].
  inversion H; subst. unfold indexInFrames. cbn. lia.
Qed.

Lemma renderLine_frames fuel W symbol w :
  indexInFrames (this w) -> indexInFrames (this (fst (renderLine' fuel W symbol w))).
Proof.
  intros H. unfold renderLine.
  match goal with |- context [lineToRender' ?f ?c ?s ?x] =>
    pose proof (lineToRender_bound f c s x) as Hb;
    destruct (lineToRender' f c s x) as [sp1 [line|e|]] end;
    cbn in Hb |- *; now apply Hb.
Qed.

Lemma stop_frames text w :
  indexInFrames (this w) -> indexInFrames (this (fst (stop text w))).
Proof.
  intros H. unfold stop.
  destruct (negb (verbose (this w)) || negb (started (this w))); [exact H|].
  destruct (overrideText text (this w)) as [sp|e] eqn:Ht; [|exact H].
  apply overrideText_frames in Ht; [|exact H]. exact Ht.
Qed.

Lemma finish_frames glyph ev fuel W text w :
  indexInFrames (this w) -> indexInFrames (this (fst (finish' glyph ev fuel W text w))).
Proof.
  intros H. unfold finish. destruct (negb (verbose (this w))); [exact H|].
  pose proof (stop_frames text w H) as Hs.
  destruct (stop text w) as [w1 [[]|e|]]; cbn in Hs; try assumption.
  pose proof (renderLine_frames fuel W (Some glyph) w1 Hs) as Hr.
  destruct (renderLine' fuel W (Some glyph) w1) as [w2 [[]|e|]]; cbn in Hr |- *;
    assumption.
Qed.

Lemma start_frames fuel W text w :
  indexInFrames (this w) -> indexInFrames (this (fst (start' fuel W text w))).
Proof.
  intros H. unfold start. destruct (negb (verbose (this w))); [exact H|].
  destruct (overrideText text (this w)) as [sp|e] eqn:Ht; [|exact H].
  match goal with |- context [lineToRender' ?f ?c ?s ?x] =>
    pose proof (lineToRender_bound f c s x) as Hb;
    destruct (lineToRender' f c s x) as [sp1 [line|e|]] end;
    cbn [fst snd this emit update] in Hb |- *; apply Hb;
    unfold indexInFrames, emitStart; destruct (once w); cbn; lia.
Qed.

Lemma step_frames fuel W a w :
  indexInFrames (this w) -> indexInFrames (this (step' fuel W a w)).
Proof.
  intros H. destruct a; cbn [step].
  - now apply start_frames.
  - now apply stop_frames.
  - now apply finish_frames.
  - now apply finish_frames.
  - now apply renderLine_frames.
  - unfold runJob. now destruct (once w).
  - destruct (set_text v (this w)) as [sp|e] eqn:E; [|exact H].
    cbn. now apply (set_text_frames v (this w)).
  - cbn. now destruct v.
  - destruct (set_color v (this w)) as [sp|e] eqn:E; [|exact H].
    cbn. now apply (set_color_frames v (this w)).
  - destruct (set_spinner' v (this w)) as [sp|e] eqn:E; [|exact H].
    cbn. now apply (set_spinner_frames v (this w)).
  - exact H.
Qed.

Lemma run_frames fuel W acts w :
  indexInFrames (this w) -> indexInFrames (this (run' fuel W acts w)).
Proof.
  revert w. induction acts as [|a acts IH]; intros w H; [exact H|].
  unfold run in *. cbn [foldl]. apply IH. now apply step_frames.
Qed.

Lemma construct_frames o cnt w :
  construct' o cnt = Ok w -> indexInFrames (this w).
Proof.
  unfold construct. destruct (negb _).
  { intros H; inversion H; subst. unfold indexInFrames. cbn. lia. }
  cbn.
  destruct (set_spinner' (opt_spinner o) (blank true)) as [sp1|e] eqn:E1;
    cbn; [|discriminate].
  destruct (set_text _ _) as [sp2|e] eqn:E2; cbn; [|discriminate].
  destruct (set_color _ sp2) as [sp3|e] eqn:E3; cbn; [|discriminate].
  intros H; inversion H; subst. cbn.
  apply set_spinner_frames in E1.
  apply set_color_frames in E3; [exact E3|].
  apply set_text_frames in E2; [exact E2|].
  now destruct (opt_prefixText o).
Qed.

(** C6, amended: with a frame set of [N >= 1] frames and the index inside
    it, the render that follows [k] earlier ones shows [frames[(i + k) mod N]]
    and the index after [k] renders is [(i + k) mod N]: from index 0 the
    renders show [frames[0], ..., frames[N-1]] in order, the index is back at
    0 after the [N]-th render and not before.  In every state an instance
    reaches from its constructor, through its methods, its setters, the
    ticks of its interval and its job, the index is below [N] when
    [N >= 1], so that the renders from there on go round the frames in
    order, and 0 when the frame set is empty. *)
Theorem frameIndex_cycles fuel W :
  (forall sp k,
      let fr := frames (symSpinner sp) in
      let N := length fr in
      frameIndex sp < N ->
      fst (pickFrame None (renders' fuel W k sp)) = fr !! ((frameIndex sp + k) mod N)
      /\ frameIndex (renders' fuel W k sp) = (frameIndex sp + k) mod N
      /\ frameIndex (renders' fuel W k sp) < N
      /\ (frameIndex sp = 0 ->
          frameIndex (renders' fuel W N sp) = 0
          /\ forall j, 0 < j < N -> frameIndex (renders' fuel W j sp) = j))
  /\ (forall o cnt w acts,
        construct' o cnt = Ok w ->
        let sp := this (run' fuel W acts w) in
        let fr := frames (symSpinner sp) in
        let N := length fr in
        (0 < N -> frameIndex sp < N)
        /\ (N = 0 -> frameIndex sp = 0)
        /\ (0 < N ->
            forall k,
              fst (pickFrame None (renders' fuel W k sp))
              = fr !! ((frameIndex sp + k) mod N)
              /\ frameIndex (renders' fuel W k sp) < N)).
Proof.
  assert (Hcycle : forall sp k,
            frameIndex sp < length (frames (symSpinner sp)) ->
            fst (pickFrame None (renders' fuel W k sp))
            = frames (symSpinner sp)
                !! ((frameIndex sp + k) mod length (frames (symSpinner sp)))
            /\ frameIndex (renders' fuel W k sp) < length (frames (symSpinner sp))).
  { intros sp k Hlt.
    pose proof (renders_index ansiMatch stripAnsi wcwidth kleur fuel W k sp Hlt) as Hidx.
    cbn zeta in Hidx. split.
    - cbn [pickFrame fst]. now rewrite renders_spinner, Hidx.
    - rewrite Hidx. apply Nat.mod_upper_bound. lia. }
  split.
  - cbn zeta. intros sp k Hlt.
    assert (Hidx := fun j => renders_index ansiMatch stripAnsi wcwidth kleur fuel W j sp Hlt).
    cbn zeta in Hidx.
    split; [|split; [|split]].
    + cbn [pickFrame fst]. now rewrite renders_spinner, Hidx.
    + apply Hidx.
    + rewrite Hidx. apply Nat.mod_upper_bound. lia.
    + intros H0. rewrite !Hidx, H0. split.
      * cbn. apply Nat.Div0.mod_same.
      * intros j Hj. rewrite Hidx, H0. cbn. apply Nat.mod_small. lia.
  - intros o cnt w acts Hc. cbn zeta.
    pose proof (run_frames fuel W acts w (construct_frames o cnt w Hc)) as H.
    unfold indexInFrames in H.
    split; [lia|]. split; [lia|].
    intros HN k. apply Hcycle. lia.
Qed.

End FrameIndexFacts.

(** ** The width of the rendered line *)

Section WidthFacts.

Variable ansiMatch : jsstring -> list jsstring.
Variable stripAnsi : jsstring -> jsstring.
Variable wcwidth : jsstring -> nat.
Variable kleur : jsstring -> option (option jsstring -> jsstring).

Local Abbreviation lineToRender' := (lineToRender ansiMatch stripAnsi wcwidth kleur).
Local Abbreviation fit' := (fit ansiMatch stripAnsi wcwidth).
Local Abbreviation visibleWidth' := (visibleWidth stripAnsi wcwidth).

(** The two ways out of lines 228-232. *)
Lemma fit_shape fuel W raw line :
  fit' fuel W raw = Returns line ->
  (visibleWidth' raw <= W /\ line = raw)
  \/ (W < visibleWidth' raw
      /\ exists regexArray,
           stabilise ansiMatch fuel raw W 0 = Some regexArray
           /\ line = slice0 (W + allowance wcwidth regexArray) raw ++ RESET).
Proof.
  unfold fit, visibleWidth.
  destruct (stabilise ansiMatch fuel raw W 0) as [rx|]; [|discriminate].
  destruct (Nat.ltb_spec W (wcwidth (stripAnsi raw))) as [H|H];
    intros E; inversion E; subst; [right | left]; eauto.
Qed.

Lemma pickFrame_fields symbol sp :
  symColor (snd (pickFrame symbol sp)) = symColor sp
  /\ symPrefixText (snd (pickFrame symbol sp)) = symPrefixText sp
  /\ symText (snd (pickFrame symbol sp)) = symText sp.
Proof. now destruct symbol. Qed.

Lemma lineToRender_unfold fuel W symbol sp :
  snd (lineToRender' fuel W symbol sp)
  = match colorize kleur (symColor sp) (fst (pickFrame symbol sp)) with
    | Throw e => Throws e
    | Ok painted => fit' fuel W (defaultRaw painted (symPrefixText sp) (symText sp))
    end.
Proof.
  unfold lineToRender.
  destruct (pickFrame_fields symbol sp) as (Hc & Hp & Ht).
  destruct (pickFrame symbol sp) as [frame sp']. cbn [fst snd] in *.
  rewrite Hc, Hp, Ht. now destruct (colorize kleur (symColor sp) frame).
Qed.

(** The loop of lines 218-225 ends when longer slices never hold fewer
    escape sequences: the count only grows, and it is bounded by the number
    of sequences of the whole line. *)
Lemma matches_bounded raw n :
  matches_grow ansiMatch raw ->
  length (ansiMatch (slice0 n raw)) <= length (ansiMatch raw).
Proof.
  intros Hg. destruct (le_lt_dec n (length raw)) as [H|H].
  - specialize (Hg n (length raw) H). unfold slice0 in Hg at 2.
    now rewrite firstn_all in Hg.
  - unfold slice0. rewrite take_ge by lia. reflexivity.
Qed.

Lemma stabilise_returns raw W :
  matches_grow ansiMatch raw ->
  forall fuel cnt,
    cnt <= length (ansiMatch (slice0 (W + cnt) raw)) ->
    length (ansiMatch raw) - cnt < fuel ->
    is_Some (stabilise ansiMatch fuel raw W cnt).
Proof.
  intros Hg. induction fuel as [|fuel IH]; intros cnt Hinv Hm; [lia|].
  cbn [stabilise].
  destruct (Nat.eqb_spec (length (ansiMatch (slice0 (W + cnt) raw))) cnt) as [E|E];
    [eauto|].
  pose proof (matches_bounded raw (W + cnt) Hg) as Hb.
  apply IH.
  - apply Hg. lia.
  - lia.
Qed.

Lemma fit_returns raw W :
  matches_grow ansiMatch raw ->
  exists line, fit' (S (length (ansiMatch raw))) W raw = Returns line.
Proof.
  intros Hg. unfold fit.
  destruct (stabilise_returns raw W Hg (S (length (ansiMatch raw))) 0) as [rx ->];
    [lia | lia |].
  destruct (_ <? _); eauto.
Qed.

(** What is assumed of the collaborators.  The width of a string is the sum
    of the widths of its code units.  Stripping removes the escape sequences
    the matcher finds and nothing else: what is left comes from the line, and
    its length and the lengths of the sequences add up to the length of the
    line.  A reset sequence appended to a line is stripped whole.  On a
    longer line the matcher finds no fewer sequences, and no fewer code units
    in them.  A sequence begins with an introducer, which has no width, so
    in a line of single-column code units it is wider than none of its code
    units but the first. *)
Hypothesis wcwidth_units :
  forall s, wcwidth s = sum_list ((fun c => wcwidth [c]) <$> s).
Hypothesis strip_elem_of : forall s c, c ∈ stripAnsi s -> c ∈ s.
Hypothesis strip_length :
  forall s, length (stripAnsi s) + escLength (ansiMatch s) = length s.
Hypothesis strip_reset : forall s, stripAnsi (s ++ RESET) = stripAnsi s.
Hypothesis escapes_grow :
  forall s t, escLength (ansiMatch s) <= escLength (ansiMatch (s ++ t)).
Hypothesis matches_count_grow :
  forall s t, length (ansiMatch s) <= length (ansiMatch (s ++ t)).
Hypothesis match_width :
  forall s m, narrow wcwidth s -> m ∈ ansiMatch s -> S (wcwidth m) <= length m.

Lemma narrow_width s : narrow wcwidth s -> wcwidth s <= length s.
Proof.
  rewrite wcwidth_units. induction 1 as [|c rest Hc _ IH]; cbn; lia.
Qed.

Lemma narrow_strip s : narrow wcwidth s -> narrow wcwidth (stripAnsi s).
Proof.
  unfold narrow. rewrite !Forall_forall. intros H c Hc. apply H.
  now apply strip_elem_of.
Qed.

Lemma slice0_prefix n m (raw : jsstring) :
  n <= m -> exists t, slice0 m raw = slice0 n raw ++ t.
Proof.
  intros H. exists (drop n (slice0 m raw)). unfold slice0.
  rewrite <- (take_drop n (take m raw)) at 1. f_equal.
  rewrite take_take. f_equal. lia.
Qed.

Lemma matches_grow_all raw : matches_grow ansiMatch raw.
Proof.
  intros n m H. destruct (slice0_prefix n m raw H) as [t ->].
  apply matches_count_grow.
Qed.

(** What the loop returns is what the matcher finds in the slice that is as
    long as the width and the number of sequences found. *)
Lemma stabilise_Some fuel raw W cnt regexArray :
  stabilise ansiMatch fuel raw W cnt = Some regexArray ->
  regexArray = ansiMatch (slice0 (W + length regexArray) raw).
Proof.
  revert cnt. induction fuel as [|fuel IH]; intros cnt; [discriminate|].
  cbn [stabilise].
  destruct (Nat.eqb_spec (length (ansiMatch (slice0 (W + cnt) raw))) cnt) as [E|E].
  - intros H; inversion H; subst regexArray. now rewrite E.
  - apply IH.
Qed.

(** The allowance of line 226 counts, for each sequence, one and its width:
    no more than its code units. *)
Lemma allowance_bounds regexArray :
  (forall m, m ∈ regexArray -> S (wcwidth m) <= length m) ->
  length regexArray <= allowance wcwidth regexArray <= escLength regexArray.
Proof.
  intros H. unfold allowance, escLength.
  assert (Hacc : forall a,
            a <= foldl (fun prev curr => prev + wcwidth curr) a regexArray
            /\ length regexArray + foldl (fun prev curr => prev + wcwidth curr) a regexArray
               <= a + sum_list (length <$> regexArray)).
  { induction regexArray as [|m rx IH]; intros a; [cbn; lia|].
    cbn [foldl length].
    change (sum_list (length <$> m :: rx)) with (length m + sum_list (length <$> rx)).
    destruct (IH (fun m' Hm => H m' (list_elem_of_further _ _ _ Hm)) (a + wcwidth m))
      as [H1 H2].
    pose proof (H m (list_elem_of_here _ _)) as Hm. lia. }
  destruct (Hacc 0) as [H1 H2]. lia.
Qed.

(** When every sequence is as wide as its code units but the introducer,
    the allowance is the number of code units of the sequences. *)
Lemma allowance_exact regexArray :
  (forall m, m ∈ regexArray -> S (wcwidth m) = length m) ->
  allowance wcwidth regexArray = escLength regexArray.
Proof.
  intros H. unfold allowance, escLength.
  assert (Hacc : forall a,
            length regexArray + foldl (fun prev curr => prev + wcwidth curr) a regexArray
            = a + sum_list (length <$> regexArray)).
  { induction regexArray as [|m rx IH]; intros a; [cbn; lia|].
    cbn [foldl length].
    change (sum_list (length <$> m :: rx)) with (length m + sum_list (length <$> rx)).
    pose proof (IH (fun m' Hm => H m' (list_elem_of_further _ _ _ Hm)) (a + wcwidth m))
      as H1.
    pose proof (H m (list_elem_of_here _ _)) as Hm. lia. }
  apply (Hacc 0).
Qed.

Lemma fit_width fuel W raw line :
  narrow wcwidth raw ->
  fit' fuel W raw = Returns line ->
  visibleWidth' line <= W
  /\ (visibleWidth' raw <= W -> line = raw)
  /\ (W < visibleWidth' raw ->
      exists kept,
        kept `prefix_of` raw /\ line = kept ++ RESET
        /\ W <= length kept
        /\ ((forall n m, m ∈ ansiMatch (slice0 n raw) -> S (wcwidth m) = length m) ->
            Nat.min (length raw) (W + escLength (ansiMatch (slice0 W raw)))
            <= length kept)).
Proof.
  intros Hn Hf. apply fit_shape in Hf as [[Hw ->]|(Hw & rx & Hst & ->)].
  { split; [exact Hw|]. split; [reflexivity | lia]. }
  apply stabilise_Some in Hst.
  assert (Hslice : forall n, narrow wcwidth (slice0 n raw))
    by (intros n; now apply Forall_take).
  destruct (allowance_bounds rx) as [Hlo Hhi].
  { intros m Hm. apply (match_width (slice0 (W + length rx) raw)); [apply Hslice|].
    now rewrite <- Hst. }
  pose proof (allowance_exact rx) as Hexact.
  set (cnt := allowance wcwidth rx) in *.
  assert (Hesc : escLength rx <= escLength (ansiMatch (slice0 (W + cnt) raw))).
  { destruct (slice0_prefix (W + length rx) (W + cnt) raw) as [t ->]; [lia|].
    rewrite Hst at 1. apply escapes_grow. }
  assert (Hfirst : escLength (ansiMatch (slice0 W raw)) <= escLength rx).
  { destruct (slice0_prefix W (W + length rx) raw) as [t Ht]; [lia|].
    rewrite Hst at 1. rewrite Ht. apply escapes_grow. }
  pose proof (narrow_width _ (narrow_strip _ (Hslice (W + cnt)))) as Hwidth.
  pose proof (strip_length (slice0 (W + cnt) raw)) as Hlen.
  assert (Hcut : length (slice0 (W + cnt) raw) = Nat.min (W + cnt) (length raw))
    by (unfold slice0; now rewrite length_take).
  split; [|split; [lia|]].
  - unfold visibleWidth. rewrite strip_reset. lia.
  - intros _. exists (slice0 (W + cnt) raw). split; [|split; [reflexivity|split]].
    + exists (drop (W + cnt) raw). unfold slice0. now rewrite take_drop.
    + pose proof (narrow_width _ (narrow_strip _ Hn)) as Hraw.
      pose proof (strip_length raw) as Hrawlen.
      unfold visibleWidth in Hw. lia.
    + intros Hall.
      assert (Hx : cnt = escLength rx).
      { apply Hexact. intros m Hm. apply (Hall (W + length rx)). now rewrite <- Hst. }
      lia.
Qed.

(** C1, amended: for every width, every frame, prefix and text and every
    colour [kleur] paints, when no code unit of the raw line is wider than
    one column the renderer returns, and what it returns is at most [W]
    columns wide: the raw line itself when that fits, and otherwise a
    truncation of the raw line followed by the style-reset sequence.  The
    truncation keeps [W] code units or more: when the sequences found in
    the line are made of an introducer and single-column code units, it
    keeps at least [W] code units and as many as the sequences found among
    the first [W] take, if the line is that long. *)
Theorem lineToRender_width W symbol sp painted :
  colorize kleur (symColor sp) (fst (pickFrame symbol sp)) = Ok painted ->
  let raw := defaultRaw painted (symPrefixText sp) (symText sp) in
  narrow wcwidth raw ->
  (exists line,
      snd (lineToRender' (S (length (ansiMatch raw))) W symbol sp) = Returns line)
  /\ (forall fuel line,
        snd (lineToRender' fuel W symbol sp) = Returns line ->
        visibleWidth' line <= W
        /\ (visibleWidth' raw <= W -> line = raw)
        /\ (W < visibleWidth' raw ->
            exists kept,
              kept `prefix_of` raw /\ line = kept ++ RESET
              /\ W <= length kept
              /\ ((forall n m, m ∈ ansiMatch (slice0 n raw) -> S (wcwidth m) = length m) ->
                  Nat.min (length raw) (W + escLength (ansiMatch (slice0 W raw)))
                  <= length kept))).
Proof.
  intros Hc. cbn zeta. intros Hn. split.
  - rewrite lineToRender_unfold, Hc. apply fit_returns, matches_grow_all.
  - intros fuel line. rewrite lineToRender_unfold, Hc. now apply fit_width.
Qed.

End WidthFacts.

(** The reference collaborators meet what [WidthFacts] assumes of them. *)
Module ReferenceFacts.

Lemma scan_plain s t :
  plain s -> Reference.scan 0 (s ++ t) = (inr <$> s) ++ Reference.scan 0 t.
Proof.
  induction 1 as [|c rest [Hesc Hcsi] _ IH]; [reflexivity|].
  cbn [app Reference.scan fmap list_fmap].
  assert (Reference.isIntroducer c = false) as Hi.
  { unfold Reference.isIntroducer.
    apply N.eqb_neq in Hesc, Hcsi. now rewrite Hesc, Hcsi. }
  unfold Reference.sequenceLength. rewrite Hi. now rewrite IH.
Qed.

Lemma omap_inr_l (s : jsstring) :
  omap (fun t : jsstring + code_unit =>
          match t with inl m => Some m | inr _ => None end) (inr <$> s) = [].
Proof. induction s; [reflexivity | assumption]. Qed.

Lemma ansiMatch_plain s : plain s -> Reference.ansiMatch s = [].
Proof.
  intros H. unfold Reference.ansiMatch.
  rewrite <- (app_nil_r s), (scan_plain s [] H), app_nil_r. apply omap_inr_l.
Qed.

Lemma wcwidth_sum s :
  Reference.wcwidth s = sum_list ((fun c => Reference.wcwidth [c]) <$> s).
Proof.
  unfold Reference.wcwidth. induction s as [|c s IH]; [reflexivity|].
  cbn in IH |- *. rewrite IH. lia.
Qed.

(** *** The reference matcher on a longer line *)

Import Reference.

Lemma run_of_le p s : run_of p s <= length s.
Proof. induction s as [|c s IH]; cbn; [lia|]. destruct (p c); cbn; lia. Qed.

Lemma run_of_app p s t :
  run_of p (s ++ t)
  = if run_of p s =? length s then length s + run_of p t else run_of p s.
Proof.
  induction s as [|c s IH]; [reflexivity|]. cbn.
  destruct (p c); [|reflexivity]. rewrite IH.
  change (S (run_of p s) =? S (length s)) with (run_of p s =? length s).
  now destruct (run_of p s =? length s).
Qed.

Lemma run_of_take p s j :
  j <= run_of p s -> Forall (fun c => p c = true) (take j s).
Proof.
  revert j. induction s as [|c s IH]; intros j Hj; [now rewrite take_nil|].
  destruct j as [|j]; [constructor|]. cbn in Hj |- *.
  destruct (p c) eqn:E; [|lia]. constructor; [exact E | apply IH; lia].
Qed.

Lemma longestFirst_Some n k r :
  longestFirst n k = Some r -> exists j, j <= n /\ k j = Some r.
Proof.
  induction n as [|n IH]; cbn; destruct (k _) eqn:E; intros H; try discriminate.
  - inversion H; subst. eauto.
  - inversion H; subst. eauto.
  - destruct (IH H) as (j & Hj & Hk). eauto.
Qed.

Lemma longestFirst_ext n k k' :
  (forall j, j <= n -> k j = k' j) -> longestFirst n k = longestFirst n k'.
Proof.
  induction n as [|n IH]; intros H; cbn; rewrite <- (H _ (le_n _)); [reflexivity|].
  destruct (k (S n)); [reflexivity|]. apply IH. intros j Hj. apply H. lia.
Qed.

Lemma longestFirst_stable_eq L k k' N :
  (forall j, j <= N -> k' j = k j \/ exists n', k' j = Some n' /\ L < n') ->
  longestFirst N k' = longestFirst N k
  \/ exists n', longestFirst N k' = Some n' /\ L < n'.
Proof.
  induction N as [|N IH]; intros H.
  - cbn. destruct (H 0 (le_n _)) as [->|(n' & -> & Hn)]; [now left | right; eauto].
  - cbn. destruct (H (S N) (le_n _)) as [->|(n' & -> & Hn)]; [|right; eauto].
    destruct (k (S N)); [now left|]. apply IH. intros j Hj. apply H. lia.
Qed.

Lemma longestFirst_stable L k k' N N' :
  N <= N' ->
  (forall j, j <= N -> k' j = k j \/ exists n', k' j = Some n' /\ L < n') ->
  (forall j, N < j -> j <= N' -> k' j = None \/ exists n', k' j = Some n' /\ L < n') ->
  longestFirst N' k' = longestFirst N k
  \/ exists n', longestFirst N' k' = Some n' /\ L < n'.
Proof.
  intros Hle Hlow. induction Hle as [|N' Hle IH]; intros Hhigh.
  - now apply longestFirst_stable_eq.
  - cbn. destruct (Hhigh (S N')) as [->|(n' & -> & Hn)]; [lia | lia | | right; eauto].
    apply IH. intros j H1 H2. apply Hhigh; lia.
Qed.

Lemma final_Some s n :
  final s = Some n -> n = 1 /\ exists f rest, s = f :: rest /\ isFinal f = true.
Proof.
  destruct s as [|f rest]; cbn; [discriminate|].
  destruct (isFinal f) eqn:E; intros H; inversion H. eauto.
Qed.

Lemma ascii_unit (c : code_unit) : (32 <= c <= 126)%N -> sequenceUnit c.
Proof.
  intros Hc. split.
  - unfold isIntroducer, ESC, CSI.
    destruct (N.eqb_spec c 27); [lia|]. destruct (N.eqb_spec c 155); [lia|]. reflexivity.
  - unfold unitWidth.
    destruct (N.eqb_spec c 0); [lia|].
    destruct ((c <? 32)%N || inRange 127 159 c) eqn:E.
    { unfold inRange in E.
      rewrite orb_true_iff, andb_true_iff, N.ltb_lt, !N.leb_le in E. lia. }
    destruct (isWide c) eqn:Ew; [|reflexivity].
    unfold isWide in Ew. apply andb_true_iff in Ew as [Ew _].
    apply N.leb_le in Ew. lia.
Qed.

Lemma isDigit_unit c : isDigit c = true -> sequenceUnit c.
Proof.
  unfold isDigit, inRange. rewrite andb_true_iff, !N.leb_le. intros H.
  apply ascii_unit. lia.
Qed.

Lemma isFinal_unit c : isFinal c = true -> sequenceUnit c.
Proof.
  unfold isFinal, isDigit, inRange.
  rewrite !orb_true_iff, !andb_true_iff, !N.leb_le, !N.eqb_eq. intros H.
  apply ascii_unit. lia.
Qed.

Lemma isIntermediate_unit c : isIntermediate c = true -> sequenceUnit c.
Proof.
  unfold isIntermediate. intros H. apply bool_decide_eq_true in H.
  apply ascii_unit.
  repeat (apply elem_of_cons in H as [->|H]; [lia|]). inversion H.
Qed.

Lemma take_add {A} (l : list A) j m : take (j + m) l = take j l ++ take m (drop j l).
Proof.
  revert l. induction j as [|j IH]; intros l; [reflexivity|].
  destruct l as [|x l]; [now rewrite drop_nil, !take_nil|]. cbn. now rewrite IH.
Qed.

Lemma final_good s n :
  final s = Some n -> 1 <= n <= length s /\ sequenceBody (take n s).
Proof.
  intros H. apply final_Some in H as (-> & f & rest & -> & Hf). cbn. split; [lia|].
  rewrite take_0. constructor; [now apply isFinal_unit | constructor].
Qed.

Lemma groups_good fuel s n :
  groups fuel s = Some n -> 1 <= n <= length s /\ sequenceBody (take n s).
Proof.
  revert s n. induction fuel as [|fuel IH]; intros s n; [apply final_good|].
  destruct s as [|c rest]; [apply final_good|]. cbn [groups].
  destruct (N.eqb_spec c 59) as [->|_]; [|apply final_good].
  destruct (longestFirst _ _) as [r|] eqn:E; [|apply final_good].
  intros H; inversion H; subst r; clear H.
  apply longestFirst_Some in E as (j & Hj & Hk).
  destruct (groups fuel (drop j rest)) as [m|] eqn:Eg; [|discriminate].
  cbn in Hk. inversion Hk; subst n; clear Hk.
  destruct (IH _ _ Eg) as [Hm Hplain]. rewrite length_drop in Hm.
  pose proof (run_of_le isDigit rest).
  split; [cbn; lia|].
  change (1 + j + m) with (S (j + m)). cbn [take]. rewrite take_add.
  constructor; [now apply ascii_unit|]. apply Forall_app. split; [|exact Hplain].
  eapply Forall_impl; [apply (run_of_take isDigit); lia|].
  intros c. apply isDigit_unit.
Qed.

Lemma parameters_good s n :
  parameters s = Some n -> 1 <= n <= length s /\ sequenceBody (take n s).
Proof.
  unfold parameters. destruct (Nat.min 4 (run_of isDigit s)) as [|d] eqn:Ed;
    [apply final_good|].
  destruct (longestFirst _ _) as [r|] eqn:E; [|apply final_good].
  intros H; inversion H; subst r; clear H.
  apply longestFirst_Some in E as (i & Hi & Hk).
  destruct (groups (length s) (drop (S i) s)) as [m|] eqn:Eg; [|discriminate].
  cbn in Hk. inversion Hk; subst n; clear Hk.
  destruct (groups_good _ _ _ Eg) as [Hm Hplain]. rewrite length_drop in Hm.
  pose proof (run_of_le isDigit s).
  split; [lia|].
  change (take (S (i + m)) s) with (take (S i + m) s).
  rewrite take_add. apply Forall_app. split; [|exact Hplain].
  eapply Forall_impl; [apply (run_of_take isDigit); lia|].
  intros c. apply isDigit_unit.
Qed.

Lemma sequenceLength_good s n :
  sequenceLength s = Some n ->
  exists c rest,
    s = c :: rest /\ isIntroducer c = true
    /\ 2 <= n <= length s /\ sequenceBody (take (n - 1) rest).
Proof.
  destruct s as [|c rest]; [discriminate|]. cbn [sequenceLength].
  destruct (isIntroducer c) eqn:Ec; [|discriminate].
  intros E. apply longestFirst_Some in E as (k & Hk & Hp).
  destruct (parameters (drop k rest)) as [m|] eqn:Em; [|discriminate].
  cbn in Hp. inversion Hp; subst n; clear Hp.
  destruct (parameters_good _ _ Em) as [Hm Hplain]. rewrite length_drop in Hm.
  pose proof (run_of_le isIntermediate rest).
  exists c, rest. split; [reflexivity|]. split; [exact Ec|]. split; [cbn; lia|].
  match goal with |- sequenceBody (take ?x rest) => replace x with (k + m) by lia end.
  rewrite take_add. apply Forall_app. split; [|exact Hplain].
  eapply Forall_impl; [apply (run_of_take isIntermediate); lia|].
  intros c'. apply isIntermediate_unit.
Qed.

Lemma run_of_app_le p s t : run_of p s <= run_of p (s ++ t).
Proof.
  rewrite run_of_app. destruct (Nat.eqb_spec (run_of p s) (length s)); lia.
Qed.

(** When the run grows with the string, it had reached the end. *)
Lemma run_of_app_lt p s t :
  run_of p s < run_of p (s ++ t) -> run_of p s = length s.
Proof.
  rewrite run_of_app. destruct (Nat.eqb_spec (run_of p s) (length s)); lia.
Qed.

Lemma final_stable : stable final.
Proof.
  intros [|c rest] t; [|now left]. cbn.
  destruct t as [|f t]; [now left|]. cbn.
  destruct (isFinal f); [right; eexists; split; [reflexivity | cbn; lia] | now left].
Qed.

Lemma stable_nil (f : jsstring -> option nat) t :
  f [] = None -> (forall n, f t = Some n -> 1 <= n) ->
  f ([] ++ t) = f [] \/ exists n', f ([] ++ t) = Some n' /\ length (@nil code_unit) < n'.
Proof.
  intros H0 Hpos. cbn. rewrite H0. destruct (f t) as [n|] eqn:E; [|now left].
  right. exists n. split; [reflexivity|]. specialize (Hpos n eq_refl). lia.
Qed.

Lemma groups_stable fuel : stable (groups fuel).
Proof.
  induction fuel as [|fuel IH]; [apply final_stable|].
  intros [|c rest] t.
  { apply stable_nil; [reflexivity|]. intros n H. now apply groups_good in H. }
  cbn [app groups].
  destruct (N.eqb_spec c 59) as [->|_]; [|now left].
  destruct (longestFirst_stable (length (59%N :: rest))
              (fun j => (fun n => 1 + j + n) <$> groups fuel (drop j rest))
              (fun j => (fun n => 1 + j + n) <$> groups fuel (drop j (rest ++ t)))
              (Nat.min 4 (run_of isDigit rest))
              (Nat.min 4 (run_of isDigit (rest ++ t))))
    as [->|(n' & -> & Hn)].
  - pose proof (run_of_app_le isDigit rest t). lia.
  - intros j Hj. pose proof (run_of_le isDigit rest).
    rewrite drop_app_le by lia.
    destruct (IH (drop j rest) t) as [->|(n' & -> & Hn)]; [now left|].
    right. eexists. split; [reflexivity|]. rewrite length_drop in Hn. unfold code_unit in *. cbn. lia.
  - intros j H1 H2.
    assert (run_of isDigit rest = length rest).
    { apply (run_of_app_lt isDigit rest t). lia. }
    destruct (groups fuel (drop j (rest ++ t))) as [m|]; [|now left].
    right. eexists. split; [reflexivity|]. unfold code_unit in *. cbn. lia.
  - now left.
  - right. eauto.
Qed.

Lemma groups_fuel f1 f2 s :
  length s <= f1 -> length s <= f2 -> groups f1 s = groups f2 s.
Proof.
  revert f2 s. induction f1 as [|f1 IH]; intros f2 s H1 H2.
  { destruct s; [|cbn in H1; lia]. now destruct f2. }
  destruct f2 as [|f2].
  { destruct s; [reflexivity | cbn in H2; lia]. }
  destruct s as [|c rest]; [reflexivity|]. cbn [groups]. cbn in H1, H2.
  destruct (c =? 59)%N; [|reflexivity].
  rewrite (longestFirst_ext _ _
             (fun j => (fun n => 1 + j + n) <$> groups f2 (drop j rest))); [reflexivity|].
  intros j _. rewrite (IH f2); [reflexivity | |]; rewrite length_drop; lia.
Qed.

Lemma parameters_stable : stable parameters.
Proof.
  intros s t. destruct s as [|c rest].
  { apply stable_nil; [reflexivity|]. intros n H. now apply parameters_good in H. }
  set (s := c :: rest).
  assert (Hfinal : final (s ++ t) = final s) by reflexivity.
  unfold parameters. rewrite Hfinal.
  pose proof (run_of_le isDigit s) as Hle.
  pose proof (run_of_app_le isDigit s t) as Hmono.
  destruct (Nat.min 4 (run_of isDigit s)) as [|d] eqn:Ed.
  { assert (run_of isDigit s = 0) as H0 by lia.
    assert (run_of isDigit (s ++ t) = 0) as ->; [|now left].
    rewrite run_of_app, H0. reflexivity. }
  destruct (Nat.min 4 (run_of isDigit (s ++ t))) as [|d'] eqn:Ed'; [lia|].
  destruct (longestFirst_stable (length s)
              (fun i => (fun n => S i + n) <$> groups (length s) (drop (S i) s))
              (fun i => (fun n => S i + n) <$> groups (length (s ++ t)) (drop (S i) (s ++ t)))
              d d')
    as [->|(n' & -> & Hn)].
  - lia.
  - intros i Hi. rewrite drop_app_le by lia.
    rewrite (groups_fuel (length s) (length (s ++ t)) (drop (S i) s))
      by (rewrite ?length_app, length_drop; lia).
    destruct (groups_stable (length (s ++ t)) (drop (S i) s) t)
      as [->|(n' & -> & Hn)]; [now left|].
    right. eexists. split; [reflexivity|]. rewrite length_drop in Hn. subst s. unfold code_unit in *. cbn [length] in *. lia.
  - intros i H1 H2.
    assert (run_of isDigit s = length s).
    { apply (run_of_app_lt isDigit s t). lia. }
    destruct (groups _ (drop (S i) (s ++ t))) as [m|]; [|now left].
    right. eexists. split; [reflexivity|]. subst s. unfold code_unit in *. cbn [length] in *. lia.
  - now left.
  - right. eauto.
Qed.

Lemma sequenceLength_stable : stable sequenceLength.
Proof.
  intros s t. destruct s as [|c rest].
  { apply stable_nil; [reflexivity|]. intros n H.
    apply sequenceLength_good in H as (? & ? & _ & _ & H & _). lia. }
  cbn [app sequenceLength]. destruct (isIntroducer c); [|now left].
  apply longestFirst_stable.
  - apply run_of_app_le.
  - intros j Hj. pose proof (run_of_le isIntermediate rest).
    rewrite drop_app_le by lia.
    destruct (parameters_stable (drop j rest) t) as [->|(n' & -> & Hn)]; [now left|].
    right. eexists. split; [reflexivity|]. rewrite length_drop in Hn. unfold code_unit in *. cbn. lia.
  - intros j H1 H2.
    assert (run_of isIntermediate rest = length rest).
    { apply (run_of_app_lt isIntermediate rest t). lia. }
    destruct (parameters (drop j (rest ++ t))) as [m|]; [|now left].
    right. eexists. split; [reflexivity|]. unfold code_unit in *. cbn. lia.
Qed.

Ltac len_lia :=
  unfold escLength, jsstring, code_unit in *;
  cbn [fmap list_fmap sum_list sum_list_with] in *;
  repeat (progress (rewrite ?length_take, ?length_drop, ?length_app in *;
                    cbn [length] in *));
  unfold id in *; lia.

(** *** The scan, one token at a time *)

Lemma scan_skip k s : scan k s = scan 0 (drop k s).
Proof.
  revert k. induction s as [|c s IH]; intros k; [now rewrite drop_nil|].
  destruct k as [|k]; [reflexivity|]. cbn [scan drop]. apply IH.
Qed.

Lemma ansiMatch_cons c rest :
  ansiMatch (c :: rest)
  = match sequenceLength (c :: rest) with
    | Some n => take n (c :: rest) :: ansiMatch (drop (n - 1) rest)
    | None => ansiMatch rest
    end.
Proof.
  unfold ansiMatch. cbn [scan].
  destruct (sequenceLength (c :: rest)) as [n|]; [|reflexivity].
  cbn [omap list_omap]. now rewrite scan_skip.
Qed.

Lemma stripAnsi_cons c rest :
  stripAnsi (c :: rest)
  = match sequenceLength (c :: rest) with
    | Some n => stripAnsi (drop (n - 1) rest)
    | None => c :: stripAnsi rest
    end.
Proof.
  unfold stripAnsi. cbn [scan].
  destruct (sequenceLength (c :: rest)) as [n|]; [|reflexivity].
  cbn [omap list_omap]. now rewrite scan_skip.
Qed.

(** Induction on a line, token by token. *)
Lemma token_ind (P : jsstring -> Prop) :
  P [] ->
  (forall c rest n,
      sequenceLength (c :: rest) = Some n -> P (drop (n - 1) rest) -> P (c :: rest)) ->
  (forall c rest, sequenceLength (c :: rest) = None -> P rest -> P (c :: rest)) ->
  forall s, P s.
Proof.
  intros Hnil Hseq Htext s.
  induction s as [s IH] using (induction_ltof1 _ (@length code_unit)).
  unfold ltof in IH.
  destruct s as [|c rest]; [exact Hnil|].
  destruct (sequenceLength (c :: rest)) as [n|] eqn:E.
  - apply (Hseq c rest n E). apply IH. rewrite length_drop. cbn. lia.
  - apply (Htext c rest E). apply IH. cbn. lia.
Qed.

Lemma stripAnsi_length s :
  length (stripAnsi s) + escLength (ansiMatch s) = length s.
Proof.
  induction s as [|c rest n E IH|c rest E IH] using token_ind; [reflexivity| |].
  - rewrite ansiMatch_cons, stripAnsi_cons, E.
    apply sequenceLength_good in E as (c' & rest' & Heq & _ & Hn & _).
    len_lia.
  - rewrite ansiMatch_cons, stripAnsi_cons, E. cbn [length]. now rewrite <- IH.
Qed.

Lemma stripAnsi_elem_of s c : c ∈ stripAnsi s -> c ∈ s.
Proof.
  induction s as [|d rest n E IH|d rest E IH] using token_ind; [trivial| |].
  - rewrite stripAnsi_cons, E. intros H. apply elem_of_cons. right.
    apply IH in H. apply list_elem_of_lookup in H as [i Hi].
    rewrite lookup_drop in Hi. now apply list_elem_of_lookup_2 in Hi.
  - rewrite stripAnsi_cons, E. intros H. apply elem_of_cons in H as [->|H].
    + apply elem_of_cons. now left.
    + apply elem_of_cons. right. now apply IH.
Qed.

Lemma isIntroducer_width c : isIntroducer c = true -> unitWidth c = 0.
Proof.
  unfold isIntroducer. intros H. apply orb_true_iff in H as [H|H];
    apply N.eqb_eq in H; subst c; reflexivity.
Qed.

Lemma sequenceBody_width s : sequenceBody s -> wcwidth s = length s.
Proof.
  unfold wcwidth. induction 1 as [|c s [_ Hc] _ IH]; [reflexivity|].
  cbn [fmap list_fmap length]. change (sum_list (unitWidth c :: (unitWidth <$> s)))
    with (unitWidth c + sum_list (unitWidth <$> s)). rewrite IH, Hc. reflexivity.
Qed.

(** A sequence is as wide as its code units but the introducer. *)
Lemma ansiMatch_width_exact s m : m ∈ ansiMatch s -> S (wcwidth m) = length m.
Proof.
  induction s as [|c rest n E IH|c rest E IH] using token_ind.
  - intros H. inversion H.
  - rewrite ansiMatch_cons, E. intros H.
    apply elem_of_cons in H as [->|H]; [|now apply IH].
    apply sequenceLength_good in E as (c' & rest' & Heq & Hi & Hn & Hbody).
    inversion Heq; subst c' rest'.
    destruct n as [|n]; [lia|]. cbn [take length].
    replace (S n - 1) with n in Hbody by lia.
    change (wcwidth (c :: take n rest)) with (unitWidth c + wcwidth (take n rest)).
    now rewrite (isIntroducer_width c Hi), (sequenceBody_width _ Hbody).
  - rewrite ansiMatch_cons, E. apply IH.
Qed.

Lemma ansiMatch_width s m :
  narrow wcwidth s -> m ∈ ansiMatch s -> S (wcwidth m) <= length m.
Proof. intros _ H. now rewrite (ansiMatch_width_exact s m H). Qed.

Lemma escLength_le s : escLength (ansiMatch s) <= length s.
Proof. pose proof (stripAnsi_length s). lia. Qed.

Lemma sequenceBody_plain s : sequenceBody s -> plain s.
Proof.
  intros Hs. eapply Forall_impl; [exact Hs|]. intros c [H _].
  unfold isIntroducer in H. apply orb_false_elim in H as [H1 H2].
  now apply N.eqb_neq in H1, H2.
Qed.

Lemma escLength_grows s t :
  escLength (ansiMatch s) <= escLength (ansiMatch (s ++ t)).
Proof.
  induction s as [|c rest n E IH|c rest E IH] using token_ind; [cbn; lia| |].
  - destruct (sequenceLength_stable (c :: rest) t) as [E'|(n' & E' & Hn')].
    + rewrite E in E'. cbn [app] in E' |- *. rewrite !ansiMatch_cons, E, E'.
      apply sequenceLength_good in E as (c' & rest' & Heq & _ & Hn & _).
      cbn [length] in Hn.
      rewrite drop_app_le by lia.
      len_lia.
    + pose proof (escLength_le (c :: rest)) as Hle.
      cbn [app] in E' |- *. rewrite (ansiMatch_cons c (rest ++ t)), E'.
      apply sequenceLength_good in E' as (c' & rest' & Heq & _ & Hn & _).
      len_lia.
  - destruct (sequenceLength_stable (c :: rest) t) as [E'|(n' & E' & Hn')].
    + rewrite E in E'. cbn [app] in E' |- *. now rewrite !ansiMatch_cons, E, E'.
    + pose proof (escLength_le (c :: rest)) as Hle.
      cbn [app] in E' |- *. rewrite (ansiMatch_cons c (rest ++ t)), E'.
      apply sequenceLength_good in E' as (c' & rest' & Heq & _ & Hn & _).
      len_lia.
Qed.

(** A sequence that runs past the end of [c :: rest] shows that [rest]
    holds no introducer. *)
Lemma overrun_plain c rest t n' :
  sequenceLength (c :: rest ++ t) = Some n' -> length (c :: rest) < n' -> plain rest.
Proof.
  intros E Hn. apply sequenceLength_good in E as (c' & rest' & Heq & _ & _ & Hplain).
  inversion Heq; subst c' rest'. cbn [length] in Hn.
  apply sequenceBody_plain.
  rewrite take_app_ge in Hplain by lia. now apply Forall_app in Hplain as [H _].
Qed.

Lemma ansiMatch_count_grows s t :
  length (ansiMatch s) <= length (ansiMatch (s ++ t)).
Proof.
  induction s as [|c rest n E IH|c rest E IH] using token_ind; [cbn; lia| |].
  - destruct (sequenceLength_stable (c :: rest) t) as [E'|(n' & E' & Hn')].
    + rewrite E in E'. cbn [app] in E' |- *. rewrite !ansiMatch_cons, E, E'.
      apply sequenceLength_good in E as (c' & rest' & Heq & _ & Hn & _).
      cbn [length] in Hn.
      rewrite drop_app_le by lia. cbn [length]. lia.
    + cbn [app] in E' |- *.
      pose proof (overrun_plain c rest t n' E' Hn') as Hp.
      rewrite !ansiMatch_cons, E, E'.
      rewrite (ansiMatch_plain (drop (n - 1) rest)) by now apply Forall_drop.
      cbn [length]. lia.
  - destruct (sequenceLength_stable (c :: rest) t) as [E'|(n' & E' & Hn')].
    + rewrite E in E'. cbn [app] in E' |- *. now rewrite !ansiMatch_cons, E, E'.
    + cbn [app] in E' |- *.
      pose proof (overrun_plain c rest t n' E' Hn') as Hp.
      rewrite !ansiMatch_cons, E, E'.
      rewrite (ansiMatch_plain rest) by assumption.
      cbn [length]. lia.
Qed.

Lemma stripAnsi_reset (s : jsstring) : stripAnsi (s ++ RESET) = stripAnsi s.
Proof.
  induction s as [|c rest n E IH|c rest E IH] using token_ind; [reflexivity| |].
  - destruct (sequenceLength_stable (c :: rest) RESET) as [E'|(n' & E' & Hn')].
    + rewrite E in E'. cbn [app] in E' |- *. rewrite !stripAnsi_cons, E, E'.
      apply sequenceLength_good in E as (c' & rest' & Heq & _ & Hn & _).
      cbn [length] in Hn. now rewrite drop_app_le by lia.
    + exfalso. cbn [app] in E'.
      apply sequenceLength_good in E' as (c' & rest' & Heq & _ & _ & Hplain).
      inversion Heq; subst c' rest'. cbn [length] in Hn'.
      rewrite take_app_ge in Hplain by lia. apply Forall_app in Hplain as [_ H].
      destruct (n' - 1 - length rest) as [|k] eqn:Ek; [lia|].
      cbn in H. apply Forall_cons in H as [[H _] _]. discriminate H.
  - destruct (sequenceLength_stable (c :: rest) RESET) as [E'|(n' & E' & Hn')].
    + rewrite E in E'. cbn [app] in E' |- *. rewrite !stripAnsi_cons, E, E'.
      now rewrite IH.
    + exfalso. cbn [app] in E'.
      apply sequenceLength_good in E' as (c' & rest' & Heq & _ & _ & Hplain).
      inversion Heq; subst c' rest'. cbn [length] in Hn'.
      rewrite take_app_ge in Hplain by lia. apply Forall_app in Hplain as [_ H].
      destruct (n' - 1 - length rest) as [|k] eqn:Ek; [lia|].
      cbn in H. apply Forall_cons in H as [[H _] _]. discriminate H.
Qed.

End ReferenceFacts.

(** ** The renderer on concrete lines *)

(** C1, as stated, fails.  With three columns and the text of two CJK
    ideographs, the line is cut after three code units and shows four columns;
    with one column and the colour red, the cut keeps the first code unit of
    the colour sequence [ESC [ 3 1 m] and no more of it. *)
Lemma wide_glyphs_overflow_the_width :
  let sp := Reference.spinnerWith [20013; 20013]%N in
  let red := with_color (Some (js "red")) (Reference.spinnerWith (js "loading")) in
  snd (Reference.lineToRender 1 3 None sp) = Returns ([10251; 32; 20013]%N ++ RESET)
  /\ Reference.visibleWidth ([10251; 32; 20013]%N ++ RESET) = 4
  /\ snd (Reference.lineToRender 1 1 None red) = Returns ([ESC] ++ RESET)
  /\ Reference.kleur (js "red") = Some (Reference.paint 31)
  /\ Reference.paint 31 (Some [10251%N]) = (ESC :: js "[31m") ++ [10251%N] ++ (ESC :: js "[39m").
Proof. repeat split. Qed.

Lemma lineToRender_width_witness :
  let red := with_color (Some (js "red")) (Reference.spinnerWith (js "loading")) in
  let raw := (ESC :: js "[31m") ++ [10251%N] ++ (ESC :: js "[39m") ++ js " loading" in
  exists line kept,
    snd (Reference.lineToRender 3 5 None red) = Returns line
    /\ Reference.visibleWidth line <= 5
    /\ kept `prefix_of` raw
    /\ line = kept ++ RESET
    /\ 10 <= length kept.
Proof.
  cbn zeta.
  destruct (lineToRender_width Reference.ansiMatch Reference.stripAnsi
              Reference.wcwidth Reference.kleur
              ReferenceFacts.wcwidth_sum ReferenceFacts.stripAnsi_elem_of
              ReferenceFacts.stripAnsi_length ReferenceFacts.stripAnsi_reset
              ReferenceFacts.escLength_grows ReferenceFacts.ansiMatch_count_grows
              ReferenceFacts.ansiMatch_width
              5 None
              (with_color (Some (js "red")) (Reference.spinnerWith (js "loading")))
              (Reference.paint 31 (Some [10251%N])))
    as [[line Hline] Hall].
  - reflexivity.
  - repeat constructor.
  - destruct (Hall _ line Hline) as (Hw & _ & Hcut).
    destruct Hcut as (kept & Hpre & Heq & _ & Hlow); [vm_compute; lia|].
    exists line, kept. split; [exact Hline|]. split; [exact Hw|].
    split; [exact Hpre|]. split; [exact Heq|].
    refine (Nat.le_trans _ _ _ _
              (Hlow (fun n m H => ReferenceFacts.ansiMatch_width_exact _ m H))).
    vm_compute. lia.
Defined.

(** C6, as stated, fails: the setter accepts a custom spinner without any
    frame; the render then has no frame to show and leaves the index at 0,
    which is not below the number of frames. *)
Lemma empty_frame_set_has_no_index_in_range :
  let custom := VPlain (mkPlain (Some []) (Some 100%Z)) in
  exists sp,
    Reference.set_spinner custom (Reference.spinnerWith (js "loading")) = Ok sp
    /\ length (frames (symSpinner sp)) = 0
    /\ fst (pickFrame None sp) = None
    /\ frameIndex (fst (Reference.lineToRender 1 80 None sp)) = 0
    /\ ~ frameIndex (fst (Reference.lineToRender 1 80 None sp))
         < length (frames (symSpinner (fst (Reference.lineToRender 1 80 None sp)))).
Proof.
  cbn zeta. eexists. split; [reflexivity|]. repeat split. cbn. lia.
Qed.

Lemma frameIndex_cycles_witness :
  let sp := Reference.spinnerWith (js "loading") in
  let after := renders Reference.ansiMatch Reference.stripAnsi Reference.wcwidth
                       Reference.kleur 1 80 in
  let o := mkOptions (VStr (js "dots")) VUndefined (VStr (js "loading")) VUndefined
                     VUndefined in
  let two := VPlain (mkPlain (Some [js "a"; js "b"]) (Some 100%Z)) in
  fst (pickFrame None (after 13 sp)) = Some [10296%N]
  /\ frameIndex (after 13 sp) = 3
  /\ frameIndex (after 10 sp) = 0
  /\ exists w,
       Reference.construct o 0 = Ok w
       /\ frameIndex (this (Reference.run 1 80
                             [DoStart VUndefined; Tick; Tick; SetSpinner two; Tick; Tick; Tick]
                             w)) < 2.
Proof.
  cbn zeta.
  destruct (frameIndex_cycles Reference.cliSpinners Reference.dots
              Reference.ansiMatch Reference.stripAnsi Reference.wcwidth Reference.kleur
              Reference.logSymbols_success Reference.logSymbols_error 1 80)
    as [Hcycle Hreach].
  assert (Hlt : frameIndex (Reference.spinnerWith (js "loading"))
                < length (frames (symSpinner (Reference.spinnerWith (js "loading")))))
    by (cbn; lia).
  destruct (Hcycle (Reference.spinnerWith (js "loading")) 13 Hlt)
    as (Hframe & Hidx & _ & Hwrap).
  split; [exact Hframe|]. split; [exact Hidx|].
  split; [destruct (Hwrap eq_refl) as [H0 _]; exact H0|].
  eexists. split; [reflexivity|].
  refine (proj1 (Hreach (mkOptions (VStr (js "dots")) VUndefined (VStr (js "loading"))
                                   VUndefined VUndefined) 0 _ _ _) _);
    [reflexivity | vm_compute; lia].
Defined.

Lemma color_checked_by_type_then_at_render_witness :
  let sp := with_color (Some (js "notacolor")) (Reference.spinnerWith (js "loading")) in
  set_color (VNum 3) sp
  = Throw (TypeError (js "Color must be a type of string or undefined"))
  /\ set_color VNull sp = Ok (with_color None sp)
  /\ snd (Reference.lineToRender 1 80 None sp)
     = Throws (TypeError (js "kleur[this.color] is not a function")).
Proof.
  cbn zeta.
  destruct (color_checked_by_type_then_at_render Reference.ansiMatch Reference.stripAnsi
              Reference.wcwidth Reference.kleur) as (Hset & _ & _ & Hnone & Hrender).
  split; [|split].
  - apply Hset; reflexivity.
  - apply Hnone. reflexivity.
  - apply (Hrender 1 80 None _ (js "notacolor")); reflexivity.
Defined.

Lemma prefixText_separator_iff_string_witness :
  get_prefixText (set_prefixText (VStr (js "job")) (blank true)) = js "job - "
  /\ get_prefixText (set_prefixText VUndefined (blank true)) = [].
Proof.
  destruct (prefixText_separator_iff_string (VStr (js "job")) (blank true)) as (_ & Hs & _).
  destruct (prefixText_separator_iff_string VUndefined (blank true)) as (_ & _ & Hn).
  split; [|exact (Hn eq_refl)].
  apply (Hs (js "job") eq_refl). repeat constructor.
Defined.

Lemma frame_index_reset_witness :
  let sp := with_frameIndex 7 (Reference.spinnerWith (js "loading")) in
  let w := mkWorld 0 sp Listening [] in
  (exists sp', Reference.set_spinner (VStr (js "dots")) sp = Ok sp' /\ frameIndex sp' = 0)
  /\ snd (Reference.start 1 80 VUndefined w) = Returns tt
  /\ effects (fst (Reference.start 1 80 VUndefined w))
     = [EmitImmediate EvStart; ConsoleLog ([10251%N] ++ js " loading"); SetInterval 80].
Proof.
  cbn zeta.
  destruct (frame_index_reset Reference.cliSpinners Reference.dots Reference.ansiMatch
              Reference.stripAnsi Reference.wcwidth Reference.kleur)
    as (Hzero & _ & Hname & _ & Hstart).
  split.
  - eexists. split.
    + apply (Hname (js "dots") Reference.dots). reflexivity.
    + reflexivity.
  - apply (Hstart 1 80 VUndefined
             (mkWorld 0 (with_frameIndex 7 (Reference.spinnerWith (js "loading"))) Listening [])
             (with_frameIndex 7 (Reference.spinnerWith (js "loading")))
             ([10251%N]) ([10251%N] ++ js " loading")); reflexivity.
Defined.

(** C7, as stated, fails: [start()] assigns no position and leaves the
    counter as it is; the position comes later, from the job queue.  Of
    three instances started in the same turn, the third finds the counter at
    0 when it starts and gets position 2, after the callbacks of the two
    others have run. *)
Lemma position_is_not_the_counter_at_start :
  let w := mkWorld 0 (Reference.spinnerWith (js "loading")) Listening [] in
  let w1 := fst (Reference.start 1 80 VUndefined w) in
  started (this w1) = true
  /\ spinnerPos (this w1) = None
  /\ count w1 = 0
  /\ spinnerPos (this (Reference.run 1 80 [OtherCount 1; OtherCount 2; Job] w1)) = Some 2.
Proof. repeat split. Qed.

Lemma position_assigned_once_witness :
  let w := mkWorld 4 (Reference.spinnerWith (js "loading")) Listening [] in
  let w1 := fst (Reference.start 1 80 VUndefined w) in
  let w3 := runJob (Reference.run 1 80 [OtherCount 6; Tick] w1) in
  once w1 = JobQueued
  /\ spinnerPos (this w3) = Some 6
  /\ count w3 = 7
  /\ spinnerPos (this (Reference.run 1 80 [DoStop VUndefined; DoStart VUndefined; Job; OtherCount 0] w3))
     = Some 6.
Proof.
  cbn zeta.
  destruct (position_assigned_once Reference.cliSpinners Reference.dots Reference.ansiMatch
              Reference.stripAnsi Reference.wcwidth Reference.kleur
              Reference.logSymbols_success Reference.logSymbols_error) as [_ H].
  destruct (H 1 80 VUndefined
              (mkWorld 4 (Reference.spinnerWith (js "loading")) Listening [])
              (Reference.spinnerWith (js "loading")) eq_refl eq_refl eq_refl)
    as (Hq & _ & _ & Hmid).
  split; [exact Hq|].
  destruct (Hmid [OtherCount 6; Tick]) as (_ & Hpos & Hcount & Hlater).
  - intros Hin. apply list_elem_of_In in Hin. cbn in Hin. intuition discriminate.
  - split; [exact Hpos|]. split; [exact Hcount|].
    exact (Hlater [DoStop VUndefined; DoStart VUndefined; Job; OtherCount 0]).
Defined.

(** ** The orchestrator *)

(** C2: the slot of a rejected task does not hold [undefined].  For the
    batch of a task that resolves with 7 and a task that rejects, the result
    array is [[7, 1]]: the second slot holds what the rejection handler
    returns, the length of [rejects] after its [push]. *)
Theorem startAll_rejected_slot_holds_push_result :
  b_promise (startAll 80 [] [] (Array [resolves7; rejectsBoom]) noOptions)
  = Fulfilled [VNum 7; VNum 1]
  /\ VNum 1 <> VUndefined.
Proof. split; [reflexivity | discriminate]. Qed.

(** C4: the call rejects when a task rejects with [undefined] and the
    [rejects] option is in force: reading [reject.stack] throws inside
    [startAll], the cursor is not shown again and [Spinner.count] is not
    reset. *)
Theorem startAll_rejects_on_undefined_reason :
  let b := startAll 80 [] [] (Array [rejectsUndefined]) noOptions in
  b_promise b
  = RejectedWith (TypeError (js "Cannot read properties of undefined (reading 'stack')"))
  /\ (ShowCursor ∉ b_effects b)
  /\ b_count b = None.
Proof.
  cbn zeta. split; [reflexivity|]. split; [|reflexivity].
  intros H. apply list_elem_of_In in H. cbn in H.
  repeat (destruct H as [H|H]; [discriminate H|]). exact H.
Qed.

(** C5, as stated, fails: a [rejects] value that is not a boolean raises
    nothing; the batch runs and the flag is taken as [true]. *)
Lemma startAll_accepts_non_boolean_rejects :
  let b := startAll 80 [] [] (Array [resolves7; rejectsBoom])
                    (mkStartAllOptions VUndefined (VStr (js "yes"))) in
  b_promise b = Fulfilled [VNum 7; VNum 1]
  /\ (Invoke 0 ∈ b_effects b)
  /\ (ConsoleError (LF :: js "Error: boom") ∈ b_effects b).
Proof.
  cbn zeta. split; [reflexivity|].
  split; [now apply (list_elem_of_lookup_2 _ 1) | now apply (list_elem_of_lookup_2 _ 8)].
Qed.

(** C5, amended: with valid tasks, a [recap] value that is present (neither
    null nor undefined) and outside {none, error, always} makes the call fail
    with a configuration error before any task is called or anything is
    written; a [recap] value in the set is the mode in force; an absent one
    is the mode [always].  A [rejects] value that is not a boolean is no
    error: the call behaves as with [rejects = true]. *)
Theorem startAll_options :
  (forall col events order elems o,
      checkEntries elems = Ok tt ->
      Is.nullOrUndefined (recap o) = false ->
      recapSetOpt_has (recap o) = false ->
      startAll col events order (Array elems) o
      = mkBatch [] (RejectedWith (Error (js "recap option must be none|error|always"))) None)
  /\ (forall o, recapSetOpt_has (recap o) = true ->
        exists s, recap o = VStr s /\ checkRecap o = Ok s)
  /\ (forall o, Is.nullOrUndefined (recap o) = true -> checkRecap o = Ok (js "always"))
  /\ (forall col events order functions r v,
        Is.boolean v = false ->
        startAll col events order functions (mkStartAllOptions r v)
        = startAll col events order functions (mkStartAllOptions r (VBool true))).
Proof.
  split; [|split; [|split]].
  - intros col events order elems o He Hn Hs. unfold startAll, checkRecap.
    rewrite He. cbn. now rewrite Hn, Hs.
  - intros [r v] Hs. cbn in Hs. destruct r; cbn in Hs; try discriminate.
    exists s. split; [reflexivity|]. unfold checkRecap.
    cbn [recap Is.nullOrUndefined recapSetOpt_has negb andb]. now rewrite Hs.
  - intros [r v] Hn. destruct r; cbn in Hn; try discriminate; reflexivity.
  - intros col events order functions r v Hv.
    destruct v; cbn in Hv; try discriminate; reflexivity.
Qed.

Lemma startAll_options_witness :
  startAll 80 [] [] (Array [resolves7])
           (mkStartAllOptions (VStr (js "sometimes")) VUndefined)
  = mkBatch [] (RejectedWith (Error (js "recap option must be none|error|always"))) None
  /\ startAll 80 [] [] (Array [resolves7]) (mkStartAllOptions VNull (VNum 0))
     = startAll 80 [] [] (Array [resolves7]) (mkStartAllOptions VNull (VBool true)).
Proof.
  destruct startAll_options as (Hrecap & _ & _ & Hrejects).
  split.
  - apply Hrecap; reflexivity.
  - apply Hrejects. reflexivity.
Defined.

(** *** The join, in general *)

Section JoinFacts.

Variable tasks : list settle.

Lemma settleOne_cases st j :
  settleOne tasks st j = st
  \/ (exists v, slots st !! j = Some None /\ tasks !! j = Some (Resolves v)
                /\ settleOne tasks st j = mkJoin (<[j := Some v]> (slots st)) (rejected st))
  \/ (exists reason,
        slots st !! j = Some None /\ tasks !! j = Some (Rejects reason)
        /\ settleOne tasks st j
           = mkJoin (<[j := Some (VNum (Z.of_nat (S (length (rejected st)))))]> (slots st))
                    (rejected st ++ [reason])).
Proof.
  unfold settleOne.
  destruct (slots st !! j) as [[x|]|] eqn:Hs; auto.
  destruct (tasks !! j) as [[v|reason|]|] eqn:Ht; auto.
  - right; left. eauto.
  - right; right. exists reason. rewrite length_app, Nat.add_1_r. auto.
Qed.

Lemma aligned_init : aligned tasks (mkJoin (replicate (length tasks) None) []).
Proof.
  split; cbn; [apply length_replicate|].
  intros i x H. apply lookup_replicate in H as [H _]. discriminate.
Qed.

Lemma aligned_settleOne st j : aligned tasks st -> aligned tasks (settleOne tasks st j).
Proof.
  intros [Hlen Hal].
  destruct (settleOne_cases st j) as [->|[(v & Hs & Ht & ->)|(reason & Hs & Ht & ->)]];
    [now split| |]; (split; cbn [slots rejected]; [now rewrite length_insert|]);
    intros i x Hi; destruct (decide (i = j)) as [->|Hne].
  - rewrite list_lookup_insert_eq in Hi by (now apply lookup_lt_Some in Hs).
    rewrite Ht. congruence.
  - rewrite list_lookup_insert_ne in Hi by congruence. now apply Hal.
  - rewrite list_lookup_insert_eq in Hi by (now apply lookup_lt_Some in Hs).
    rewrite Ht. exists (length (rejected st)). split; [congruence|].
    rewrite lookup_app_r, Nat.sub_diag by lia. reflexivity.
  - rewrite list_lookup_insert_ne in Hi by congruence.
    specialize (Hal i x Hi). destruct (tasks !! i) as [[v|r|]|]; try assumption.
    destruct Hal as (k & Hx & Hk). exists k. split; [assumption|].
    now apply lookup_app_l_Some.
Qed.

Lemma aligned_foldl order st :
  aligned tasks st -> aligned tasks (foldl (settleOne tasks) st order).
Proof.
  revert st. induction order as [|j order IH]; intros st H; [assumption|].
  cbn. now apply IH, aligned_settleOne.
Qed.

(** A filled slot stays filled, and settling a task that settles fills its
    slot. *)
Lemma filled_settleOne st j i :
  i < length (slots st) ->
  slots st !! i <> Some None ->
  slots (settleOne tasks st j) !! i <> Some None.
Proof.
  intros Hlt Hf.
  destruct (settleOne_cases st j) as [->|[(v & Hs & _ & ->)|(reason & Hs & _ & ->)]];
    [assumption| |]; cbn [slots];
    (destruct (decide (i = j)) as [->|Hne];
     [congruence | now rewrite list_lookup_insert_ne by congruence]).
Qed.

Lemma settleOne_length st j : length (slots (settleOne tasks st j)) = length (slots st).
Proof.
  destruct (settleOne_cases st j) as [->|[(v & _ & _ & ->)|(reason & _ & _ & ->)]];
    [reflexivity| |]; cbn [slots]; apply length_insert.
Qed.

Lemma filled_foldl order st i :
  i < length (slots st) ->
  slots st !! i <> Some None ->
  slots (foldl (settleOne tasks) st order) !! i <> Some None.
Proof.
  revert st. induction order as [|j order IH]; intros st Hlt Hf; [assumption|].
  cbn. apply IH; [now rewrite settleOne_length | now apply filled_settleOne].
Qed.

Lemma fills_settleOne st i :
  i < length (slots st) ->
  (exists s, tasks !! i = Some s /\ s <> NeverSettles) ->
  slots (settleOne tasks st i) !! i <> Some None.
Proof.
  intros Hlt (s & Ht & Hs). unfold settleOne.
  destruct (slots st !! i) as [[x|]|] eqn:Hi; rewrite ?Hi; try congruence.
  rewrite Ht. destruct s as [v|reason|]; [| |congruence]; cbn [slots];
    rewrite list_lookup_insert_eq by assumption; discriminate.
Qed.

Lemma fills_foldl order st i :
  i ∈ order ->
  i < length (slots st) ->
  (exists s, tasks !! i = Some s /\ s <> NeverSettles) ->
  slots (foldl (settleOne tasks) st order) !! i <> Some None.
Proof.
  revert st. induction order as [|j order IH]; intros st Hin Hlt Hs.
  - now apply elem_of_nil in Hin.
  - cbn. apply elem_of_cons in Hin as [->|Hin].
    + apply filled_foldl; [now rewrite settleOne_length | now apply fills_settleOne].
    + apply IH; [assumption | now rewrite settleOne_length | assumption].
Qed.

(** Every captured reason is the reason of a task of the batch. *)
Lemma rejected_foldl order st :
  Forall (fun r => Rejects r ∈ tasks) (rejected st) ->
  Forall (fun r => Rejects r ∈ tasks) (rejected (foldl (settleOne tasks) st order)).
Proof.
  revert st. induction order as [|j order IH]; intros st H; [assumption|].
  cbn. apply IH.
  destruct (settleOne_cases st j) as [->|[(v & _ & _ & ->)|(reason & _ & Ht & ->)]];
    [assumption|assumption|]. cbn [rejected].
  apply Forall_app; split; [assumption|].
  constructor; [|constructor]. now apply list_elem_of_lookup_2 in Ht.
Qed.

(** When every task settles, the join ends with every slot filled. *)
Lemma join_allSettled order :
  Forall (fun s => s <> NeverSettles) tasks ->
  exists results, allSettled (join tasks order) = Some results.
Proof.
  intros Hall. unfold allSettled.
  destruct (mapM id (slots (join tasks order))) as [results|] eqn:E; [eauto|].
  exfalso. apply mapM_None in E. apply Exists_exists in E as (x & Hx & Hnone).
  apply list_elem_of_lookup_1 in Hx as [i Hi]. cbn in Hnone. subst x.
  assert (Hlen : length (slots (join tasks order)) = length tasks)
    by apply (aligned_foldl _ _ aligned_init).
  assert (Hlt : i < length tasks) by (apply lookup_lt_Some in Hi; lia).
  revert Hi. apply fills_foldl.
  - apply elem_of_app. right. apply elem_of_seq. lia.
  - cbn. now rewrite length_replicate.
  - destruct (lookup_lt_is_Some_2 tasks i Hlt) as [s Hs]. exists s.
    split; [assumption|]. rewrite Forall_forall in Hall.
    apply Hall. now apply list_elem_of_lookup_2 in Hs.
Qed.

(** The result array of a fulfilled join: one slot per task, the value of a
    task that resolved, and for a task that rejected the rank of its reason
    among the captured ones, a number from 1 on. *)
Lemma join_results order results :
  allSettled (join tasks order) = Some results ->
  length results = length tasks
  /\ (forall i v, tasks !! i = Some (Resolves v) -> results !! i = Some v)
  /\ (forall i reason,
        tasks !! i = Some (Rejects reason) ->
        exists k, results !! i = Some (VNum (Z.of_nat (S k)))
                  /\ rejected (join tasks order) !! k = Some reason).
Proof.
  intros E. unfold allSettled in E. apply mapM_Some in E.
  destruct (aligned_foldl (order ++ seq 0 (length tasks)) _ aligned_init) as [Hlen Hal].
  fold (join tasks order) in Hlen, Hal.
  assert (Hslot : forall i s, tasks !! i = Some s ->
            exists x, results !! i = Some x /\ slots (join tasks order) !! i = Some (Some x)).
  { intros i s Hs. apply lookup_lt_Some in Hs.
    destruct (lookup_lt_is_Some_2 (slots (join tasks order)) i) as [o Ho]; [lia|].
    destruct (Forall2_lookup_l _ _ _ _ _ E Ho) as (x & Hx & Hid).
    cbn in Hid. subst o. eauto. }
  split; [|split].
  - apply Forall2_length in E. lia.
  - intros i v Ht. destruct (Hslot i _ Ht) as (x & Hx & Hs).
    specialize (Hal i x Hs). rewrite Ht in Hal. congruence.
  - intros i reason Ht. destruct (Hslot i _ Ht) as (x & Hx & Hs).
    specialize (Hal i x Hs). rewrite Ht in Hal.
    destruct Hal as (k & -> & Hk). eauto.
Qed.

End JoinFacts.

(** *** [startAll], in general *)

Lemma printRejects_ok rs log :
  Forall (fun r => ~ nullish r) rs ->
  printRejects rs log
  = (log ++ ((fun r => ConsoleError (LF :: stackText r)) <$> rs), Ok tt).
Proof.
  intros H. revert log. induction H as [|r rs Hr _ IH]; intros log.
  - cbn. now rewrite app_nil_r.
  - cbn [printRejects].
    assert (stackOf r = Ok (stackText r)) as ->.
    { destruct r; try reflexivity; exfalso; apply Hr; unfold nullish; auto. }
    rewrite IH, <- app_assoc. reflexivity.
Qed.


(** The promise of a call whose arguments pass the checks: pending while a
    task is, rejected when a diagnostic cannot be printed, fulfilled with the
    result array otherwise. *)
Lemma startAll_promise col events order elems o mode :
  checkEntries elems = Ok tt -> checkRecap o = Ok mode ->
  let st := join (invoke <$> elems) order in
  b_promise (startAll col events order (Array elems) o)
  = match allSettled st with
    | None => Pending
    | Some results =>
        if rejectOpt o then
          match snd (printRejects (rejected st) []) with
          | Ok _ => Fulfilled results
          | Throw e => RejectedWith e
          end
        else Fulfilled results
    end.
Proof.
  intros He Hr. cbn zeta. unfold startAll. rewrite He. cbn [mbind result_bind].
  rewrite Hr.
  destruct (foldl _ _ events) as [c log].
  destruct (allSettled _) as [results|]; [|reflexivity].
  destruct (rejectOpt o); [|reflexivity].
  set (rs := rejected _). set (log' := if c_recap c then _ else _). clearbody rs log'.
  assert (H : forall l1 l2, snd (printRejects rs l1) = snd (printRejects rs l2)).
  { induction rs as [|r rs IH]; intros l1 l2; [reflexivity|].
    cbn [printRejects]. destruct (stackOf r); [apply IH | reflexivity]. }
  specialize (H log' []).
  destruct (printRejects rs log') as [l1 [[]|e1]], (printRejects rs []) as [l2 [[]|e2]];
    cbn in H |- *; congruence.
Qed.

(** Whenever the call is fulfilled, the array has one slot per task, in the
    order of the tasks; the slot of a task that resolved holds its value, and
    the slot of a task that rejected holds a number from 1 on. *)
Lemma startAll_results col events order elems o results :
  b_promise (startAll col events order (Array elems) o) = Fulfilled results ->
  length results = length elems
  /\ (forall i e v, elems !! i = Some e -> invoke e = Resolves v -> results !! i = Some v)
  /\ (forall i e reason,
        elems !! i = Some e -> invoke e = Rejects reason ->
        exists k, results !! i = Some (VNum (Z.of_nat (S k)))).
Proof.
  intros H.
  destruct (checkEntries elems) as [[]|e1] eqn:He.
  2:{ unfold startAll in H. rewrite He in H. discriminate. }
  destruct (checkRecap o) as [mode|e2] eqn:Hr.
  2:{ unfold startAll in H. rewrite He in H. cbn [mbind result_bind] in H.
      rewrite Hr in H. discriminate. }
  rewrite (startAll_promise col events order elems o mode He Hr) in H. cbn zeta in H.
  destruct (allSettled _) as [rs|] eqn:E; [|discriminate].
  assert (rs = results) as ->.
  { destruct (rejectOpt o); [|congruence].
    destruct (snd (printRejects _ [])); congruence. }
  destruct (join_results _ _ _ E) as (Hlen & Hres & Hrej).
  rewrite length_fmap in Hlen.
  split; [assumption|]. split.
  - intros i e v Hi Hv. apply Hres. rewrite list_lookup_fmap, Hi. cbn. now rewrite Hv.
  - intros i e reason Hi Hv.
    destruct (Hrej i reason) as (k & Hk & _); [|eauto].
    rewrite list_lookup_fmap, Hi. cbn. now rewrite Hv.
Qed.

(** When every task settles and no task rejects with [null] or [undefined],
    the call of a valid batch is fulfilled. *)
Lemma startAll_fulfilled col events order elems o mode :
  checkEntries elems = Ok tt -> checkRecap o = Ok mode ->
  Forall (fun e => invoke e <> NeverSettles
                   /\ forall r, invoke e = Rejects r -> ~ nullish r) elems ->
  exists results,
    b_promise (startAll col events order (Array elems) o) = Fulfilled results.
Proof.
  intros He Hr Hall.
  rewrite (startAll_promise col events order elems o mode He Hr). cbn zeta.
  destruct (join_allSettled (invoke <$> elems) order) as [results ->].
  { apply Forall_fmap. eapply Forall_impl; [exact Hall|]. now intros e [H _]. }
  exists results. destruct (rejectOpt o); [|reflexivity].
  rewrite printRejects_ok; [reflexivity|].
  pose proof (rejected_foldl (invoke <$> elems) (order ++ seq 0 (length (invoke <$> elems)))
                (mkJoin (replicate (length (invoke <$> elems)) None) [])
                (Forall_nil_2 _)) as Hrej.
  eapply Forall_impl; [exact Hrej|]. cbn beta. intros r Hin.
  apply list_elem_of_fmap in Hin as (e & Hre & Hin).
  rewrite Forall_forall in Hall. apply (Hall e Hin). now symmetry.
Qed.

(** * Further properties *)

(** ** [Spinner.create] *)

Lemma checkEntries_Forall elems :
  checkEntries elems = Ok tt <-> Forall (fun e => checkEntry e = Ok tt) elems.
Proof.
  induction elems as [|e elems IH]; cbn [checkEntries].
  - split; [constructor | reflexivity].
  - destruct (checkEntry e) as [[]|err] eqn:E; cbn.
    + rewrite IH. split; [now constructor | now inversion 1].
    + split; [discriminate|]. inversion 1; congruence.
Qed.

(** X1: [Spinner.create] throws a [TypeError] exactly for a function that is
    not async; otherwise what it returns is the bare function when no
    argument was given and the array of the function and its arguments when
    some were, and either way [startAll] accepts it and calls the function
    with exactly those arguments. *)
Theorem create_feeds_startAll (fn : callee) (args : list value) :
  (fn = NotAsync -> exists msg, create fn args = Throw (TypeError msg))
  /\ (forall body,
        fn = AsyncFunction body ->
        exists e,
          create fn args = Ok e
          /\ (args = [] -> e = Bare fn)
          /\ (args <> [] -> e = Packed fn args)
          /\ checkEntry e = Ok tt
          /\ invoke e = body args).
Proof.
  split.
  - intros ->. cbn. eauto.
  - intros body ->. destruct args as [|a args]; eexists; (split; [reflexivity|]); cbn;
      repeat split; congruence.
Qed.

Lemma create_feeds_startAll_witness :
  let fn := AsyncFunction (fun args => Resolves (VNum (Z.of_nat (length args)))) in
  exists e, create fn [VNum 1; VNum 2] = Ok e
            /\ checkEntry e = Ok tt
            /\ invoke e = Resolves (VNum 2).
Proof.
  cbn zeta.
  destruct (create_feeds_startAll
              (AsyncFunction (fun args => Resolves (VNum (Z.of_nat (length args)))))
              [VNum 1; VNum 2]) as [_ H].
  destruct (H _ eq_refl) as (e & He & _ & _ & Hc & Hi).
  exists e. split; [exact He|]. split; [exact Hc | exact Hi].
Defined.

(** X2: a batch made of what [Spinner.create] returns always passes the
    checks of [startAll] on its entries. *)
Theorem created_batch_is_valid (made : list (callee * list value)) (elems : list entry) :
  Forall2 (fun m e => create (fst m) (snd m) = Ok e) made elems ->
  checkEntries elems = Ok tt.
Proof.
  intros H. apply checkEntries_Forall.
  induction H as [|[fn args] e made elems Hc _ IH]; constructor; [|assumption].
  cbn in Hc. destruct fn as [body|]; [|discriminate].
  inversion Hc; subst. now destruct (0 <? length args).
Qed.

Lemma created_batch_is_valid_witness :
  checkEntries [Bare (AsyncFunction (fun _ => Resolves VNull));
                Packed (AsyncFunction (fun _ => Rejects VNull)) [VNum 1]] = Ok tt.
Proof.
  apply (created_batch_is_valid
           [(AsyncFunction (fun _ => Resolves VNull), []);
            (AsyncFunction (fun _ => Rejects VNull), [VNum 1])]).
  repeat constructor.
Defined.

(** ** The replacement of the first line break *)

(** X3: the replacement made by the setters of [text] and [prefixText]
    removes the first line break and nothing else: in a value made of a part
    without line break, a line break ([\n], [\r\n], or [\r] not followed by
    [\n]) and a rest, exactly the line break goes.  So the value is fully
    stripped when the rest holds no line break, and a line break of the rest
    is still there otherwise. *)
Theorem replaceLineBreak_first_only (pre brk post : jsstring) :
  Forall (fun c => isLineBreak c = false) pre ->
  brk = [LF] \/ brk = [CR; LF] \/ (brk = [CR] /\ head post <> Some LF) ->
  replaceLineBreak (pre ++ brk ++ post) = pre ++ post
  /\ (Forall (fun c => isLineBreak c = false) post ->
      replaceLineBreak (pre ++ brk ++ post) = spec_stripLineBreaks (pre ++ brk ++ post))
  /\ (forall c, c ∈ post -> isLineBreak c = true ->
      c ∈ replaceLineBreak (pre ++ brk ++ post)).
Proof.
  intros Hpre Hbrk.
  assert (E : replaceLineBreak (pre ++ brk ++ post) = pre ++ post).
  { induction Hpre as [|c pre Hc _ IH].
    - destruct Hbrk as [->|[->|[-> Hh]]]; [reflexivity..|].
      cbn. destruct post as [|d post]; [reflexivity|].
      destruct (N.eqb_spec d LF) as [->|]; [now contradict Hh | reflexivity].
    - unfold isLineBreak in Hc. apply orb_false_elim in Hc as [Hlf Hcr].
      cbn [app replaceLineBreak]. rewrite Hcr, Hlf. now f_equal. }
  split; [exact E|]. split.
  - intros Hpost. rewrite E. unfold spec_stripLineBreaks.
    rewrite !List.filter_app.
    assert (Hclean : forall l, Forall (fun c => isLineBreak c = false) l ->
                       List.filter (fun c => negb (isLineBreak c)) l = l).
    { induction 1 as [|c l Hc _ IH]; [reflexivity|]. cbn. now rewrite Hc, IH. }
    rewrite (Hclean pre Hpre), (Hclean post Hpost).
    destruct Hbrk as [->|[->|[-> _]]]; reflexivity.
  - intros c Hin _. rewrite E. apply elem_of_app. now right.
Qed.

Lemma replaceLineBreak_first_only_witness :
  replaceLineBreak (js "ab" ++ [CR; LF] ++ js "cd") = js "abcd"
  /\ replaceLineBreak (js "ab" ++ [CR; LF] ++ js "cd")
     = spec_stripLineBreaks (js "ab" ++ [CR; LF] ++ js "cd").
Proof.
  destruct (replaceLineBreak_first_only (js "ab") [CR; LF] (js "cd")) as (H1 & H2 & _).
  - repeat constructor.
  - right; left; reflexivity.
  - split; [exact H1|]. apply H2. repeat constructor.
Defined.

(** ** The [spinner] setter and the constructor *)

Section ConfigurationFacts.

Variable cliSpinners : jsstring -> option SpinnerObj.
Variable defaultPreset : SpinnerObj.

Variable inherited : jsstring -> bool.

Local Abbreviation set_spinner' := (set_spinner cliSpinners defaultPreset).
Local Abbreviation set_spinnerOn' := (set_spinnerOn cliSpinners defaultPreset inherited).
Local Abbreviation construct' := (construct cliSpinners defaultPreset).

(** The values [set_spinner] refuses. *)
Lemma set_spinner_throws v sp :
  (exists e, set_spinner' v sp = Throw e)
  <-> match v with
      | VPlain o => o_frames o = None \/ o_interval o = None
      | VStr name => cliSpinners name = None
      | VUndefined | VNull => False
      | _ => True
      end.
Proof.
  unfold set_spinner.
  destruct v as [| | | | name | [[fr|] [iv|]] | |]; cbn [mbind result_bind o_frames o_interval].
  - split; [intros [e He]; discriminate He | intros []].
  - split; [intros [e He]; discriminate He | intros []].
  - split; [intros _; exact I | intros _; eexists; reflexivity].
  - split; [intros _; exact I | intros _; eexists; reflexivity].
  - destruct (cliSpinners name); cbn [mbind result_bind].
    + split; [intros [e He]; discriminate He | discriminate].
    + split; [reflexivity | intros _; eexists; reflexivity].
  - split; [intros [e He]; discriminate He | intros [H|H]; discriminate H].
  - split; [intros _; now right | intros _; eexists; reflexivity].
  - split; [intros _; now left | intros _; eexists; reflexivity].
  - split; [intros _; now left | intros _; eexists; reflexivity].
  - split; [intros _; exact I | intros _; eexists; reflexivity].
  - split; [intros _; exact I | intros _; eexists; reflexivity].
Qed.

(** X4: the [spinner] setter throws exactly for a plain object that lacks
    [frames] or [interval], for a string that is neither the name of a
    preset nor the name of a property the table object inherits, and for a
    value that is neither a plain object, a string, null nor undefined.  The
    missing [frames] is reported before the missing [interval], the error
    for an unknown name quotes that name, and a refused assignment leaves
    the instance as it was, its frame index included.  An inherited name is
    accepted: the frame index is reset and the instance stores a spinner
    without frames.  Everything else the setter accepts is what [set_spinner]
    stores. *)
Theorem set_spinner_refusals v sp :
  ((exists e, set_spinnerOn' v sp = Throw e)
   <-> match v with
       | VPlain o => o_frames o = None \/ o_interval o = None
       | VStr name => cliSpinners name = None /\ inherited name = false
       | VUndefined | VNull => False
       | _ => True
       end)
  /\ (forall iv, set_spinnerOn' (VPlain (mkPlain None iv)) sp
                 = Throw (Error (js "Spinner object must have a frames property")))
  /\ (forall fr, set_spinnerOn' (VPlain (mkPlain (Some fr) None)) sp
                 = Throw (Error (js "Spinner object must have an interval property")))
  /\ (forall name, cliSpinners name = None -> inherited name = false ->
        exists before after,
          set_spinnerOn' (VStr name) sp = Throw (Error (before ++ name ++ after)))
  /\ (forall name, cliSpinners name = None -> inherited name = true ->
        set_spinnerOn' (VStr name) sp = Ok (with_frameIndex 0 sp, true))
  /\ (forall sp' frameless,
        set_spinnerOn' v sp = Ok (sp', frameless) ->
        if frameless then sp' = with_frameIndex 0 sp
        else set_spinner' v sp = Ok sp')
  /\ (forall w e, set_spinner' v (this w) = Throw e ->
        assign (set_spinner' v (this w)) w = w).
Proof.
  split; [|split; [|split; [|split; [|split; [|split]]]]].
  - pose proof (set_spinner_throws v sp) as Ht.
    unfold set_spinnerOn.
    destruct (storesInherited cliSpinners inherited v) eqn:Hs.
    + destruct v as [| | | | name | o | |]; try discriminate Hs.
      cbn in Hs. destruct (cliSpinners name); [discriminate|].
      split; [intros [e He]; discriminate | intros [_ H]; congruence].
    + assert (Hbind : (exists e, (sp' ← set_spinner' v sp; Ok (sp', false)) = Throw e)
                      <-> (exists e, set_spinner' v sp = Throw e)).
      { destruct (set_spinner' v sp); cbn; split; intros [e' He'];
          try discriminate; eauto. }
      rewrite Hbind, Ht.
      destruct v as [| | | | name | o | |]; try reflexivity.
      cbn in Hs. destruct (cliSpinners name).
      * split; [discriminate | intros [H _]; discriminate].
      * rewrite Hs. split; [now split | now intros [? _]].
  - reflexivity.
  - reflexivity.
  - intros name Hn Hi. unfold set_spinnerOn, storesInherited, set_spinner.
    rewrite Hn, Hi. cbn [mbind result_bind].
    exists (js "There is no built-in spinner named '"),
           (js "'. See " ++ quote ++ js "cli-spinners" ++ quote
            ++ js " from sindresorhus for a full list.").
    reflexivity.
  - intros name Hn Hi. unfold set_spinnerOn, storesInherited. now rewrite Hn, Hi.
  - intros sp' frameless. unfold set_spinnerOn.
    destruct (storesInherited cliSpinners inherited v).
    + intros H; inversion H; now subst.
    + destruct (set_spinner' v sp) as [sp1|e]; cbn; intros H; inversion H; now subst.
  - intros w e ->. reflexivity.
Qed.


End ConfigurationFacts.

Lemma set_spinner_refusals_witness :
  (exists before after,
      Reference.set_spinnerOn (VStr (js "doesnotexist")) (blank true)
      = Throw (Error (before ++ js "doesnotexist" ++ after)))
  /\ Reference.set_spinnerOn (VStr (js "toString")) (with_frameIndex 3 (blank true))
     = Ok (blank true, true).
Proof.
  split.
  - destruct (set_spinner_refusals Reference.cliSpinners Reference.dots Reference.inherited
                (VStr (js "doesnotexist")) (blank true)) as (_ & _ & _ & H & _).
    apply H; reflexivity.
  - destruct (set_spinner_refusals Reference.cliSpinners Reference.dots Reference.inherited
                (VStr (js "toString")) (with_frameIndex 3 (blank true)))
      as (_ & _ & _ & _ & H & _).
    apply (H (js "toString")); reflexivity.
Defined.


(** ** The methods of an instance *)

Section LifecycleFacts.

Variable cliSpinners : jsstring -> option SpinnerObj.
Variable defaultPreset : SpinnerObj.
Variable ansiMatch : jsstring -> list jsstring.
Variable stripAnsi : jsstring -> jsstring.
Variable wcwidth : jsstring -> nat.
Variable kleur : jsstring -> option (option jsstring -> jsstring).
Variable logSymbols_success logSymbols_error : jsstring.

Local Abbreviation lineToRender' := (lineToRender ansiMatch stripAnsi wcwidth kleur).
Local Abbreviation renderLine' := (renderLine ansiMatch stripAnsi wcwidth kleur).
Local Abbreviation start' := (start ansiMatch stripAnsi wcwidth kleur).
Local Abbreviation startOn' := (startOn ansiMatch stripAnsi wcwidth kleur).
Local Abbreviation finish' := (finish ansiMatch stripAnsi wcwidth kleur).
Local Abbreviation step' :=
  (step cliSpinners defaultPreset ansiMatch stripAnsi wcwidth kleur
        logSymbols_success logSymbols_error).
Local Abbreviation run' :=
  (run cliSpinners defaultPreset ansiMatch stripAnsi wcwidth kleur
       logSymbols_success logSymbols_error).

Lemma overrideText_cases text sp sp0 :
  overrideText text sp = Ok sp0 ->
  (Is.nullOrUndefined text = true /\ sp0 = sp)
  \/ (exists s, text = VStr s /\ sp0 = with_text (replaceLineBreak s) sp).
Proof.
  unfold overrideText. destruct text; cbn; intros H; inversion H; subst; eauto.
Qed.


Lemma lineToRender_throws fuel W symbol sp c :
  symColor sp = Some c -> kleur c = None ->
  snd (lineToRender' fuel W symbol sp)
  = Throws (TypeError (js "kleur[this.color] is not a function")).
Proof.
  intros Hc Hk. rewrite lineToRender_unfold, Hc. cbn. now rewrite Hk.
Qed.

(** X6: on an instance made with [verbose: false], [start], [stop],
    [succeed] and [failed] do nothing at all, in any number and order: the
    instance, the counter and the terminal are as before. *)
Theorem quiet_instance_ignores_methods fuel W (acts : list action) (w : World) :
  verbose (this w) = false ->
  Forall (fun a => isMethod a = true) acts ->
  run' fuel W acts w = w.
Proof.
  intros Hv Hm. unfold run. induction Hm as [|a acts Ha _ IH]; [reflexivity|].
  cbn [foldl].
  assert (step' fuel W a w = w) as ->; [|exact IH].
  destruct a; try discriminate Ha; cbn [step];
    unfold start, stop, succeed, failed, finish; now rewrite Hv.
Qed.


(** X8: on an idle verbose instance [stop(text)] does nothing, whatever
    [text] is: the text is not assigned and a text of the wrong type is no
    error.  So [succeed(text)] and [failed(text)] on an instance that is not
    running render and emit with the text the instance already had. *)
Theorem idle_instance_keeps_its_text glyph ev fuel W text w :
  verbose (this w) = true -> started (this w) = false ->
  stop text w = (w, Returns tt)
  /\ finish' glyph ev fuel W text w
     = match renderLine' fuel W (Some glyph) w with
       | (w', Returns _) => (emit (Emit ev) w', Returns tt)
       | other => other
       end
  /\ this (fst (finish' glyph ev fuel W text w)) = this w.
Proof.
  intros Hv Hs.
  assert (Hstop : stop text w = (w, Returns tt)).
  { unfold stop. now rewrite Hv, Hs. }
  split; [exact Hstop|].
  assert (Hfin : finish' glyph ev fuel W text w
                 = match renderLine' fuel W (Some glyph) w with
                   | (w', Returns _) => (emit (Emit ev) w', Returns tt)
                   | other => other
                   end).
  { unfold finish. now rewrite Hv, Hstop. }
  split; [exact Hfin|]. rewrite Hfin. unfold renderLine.
  match goal with |- context [lineToRender' ?f ?cl ?s ?x] =>
    pose proof (lineToRender_state ansiMatch stripAnsi wcwidth kleur f cl s x) as Hstate;
    destruct (lineToRender' f cl s x) as [sp1 [line|e|]] end;
    cbn in Hstate |- *; now subst sp1.
Qed.

Lemma start_returns fuel W text w :
  verbose (this w) = true ->
  snd (start' fuel W text w) = Returns tt ->
  exists line,
    effects (fst (start' fuel W text w))
    = effects w ++ [EmitImmediate EvStart; ConsoleLog line;
                    SetInterval (interval (symSpinner (this w)))]
    /\ started (this (fst (start' fuel W text w))) = true
    /\ verbose (this (fst (start' fuel W text w))) = true
    /\ symSpinner (this (fst (start' fuel W text w))) = symSpinner (this w).
Proof.
  intros Hv. unfold start. rewrite Hv. cbn [negb].
  destruct (overrideText text (this w)) as [sp0|e] eqn:Ht; [|discriminate].
  assert (Hsp0 : verbose sp0 = true /\ symSpinner sp0 = symSpinner (this w)).
  { apply overrideText_cases in Ht as [[_ ->]|(s & _ & ->)]; now split. }
  destruct Hsp0 as [Hv0 Hs0].
  match goal with |- context [lineToRender' ?f ?cl ?s ?x] =>
    pose proof (lineToRender_state ansiMatch stripAnsi wcwidth kleur f cl s x) as Hstate;
    destruct (lineToRender' f cl s x) as [sp1 [line|e|]] end;
    cbn [fst snd] in Hstate |- *; try discriminate.
  intros _. exists line. subst sp1.
  unfold emitStart. cbn. destruct (once w); cbn; rewrite <- ?app_assoc, ?Hv0, ?Hs0;
    repeat split; reflexivity.
Qed.

(** X9: [start()] does not look at whether the instance is already running.
    Two starts in a row that both return set two intervals, and the [stop()]
    that follows clears one: the instance is idle again, later stops clear
    nothing, and one interval set by [start] has never been cleared. *)
Theorem second_start_sets_a_second_interval fuel W t1 t2 (more : list value) w :
  verbose (this w) = true ->
  let w1 := fst (start' fuel W t1 w) in
  let w2 := fst (start' fuel W t2 w1) in
  snd (start' fuel W t1 w) = Returns tt ->
  snd (start' fuel W t2 w1) = Returns tt ->
  let w3 := run' fuel W (DoStop VUndefined :: (DoStop <$> more)) w2 in
  countIf isSetInterval (effects w3) = countIf isSetInterval (effects w) + 2
  /\ countIf isClearInterval (effects w3) = countIf isClearInterval (effects w) + 1
  /\ started (this w3) = false.
Proof.
  intros Hv. cbn zeta. intros H1 H2.
  destruct (start_returns fuel W t1 w Hv H1) as (l1 & He1 & Hs1 & Hv1 & _).
  destruct (start_returns fuel W t2 _ Hv1 H2) as (l2 & He2 & Hs2 & Hv2 & _).
  set (w2 := fst (start' fuel W t2 (fst (start' fuel W t1 w)))) in *.
  unfold run. cbn [foldl step].
  assert (Hstop : fst (stop VUndefined w2)
                  = emit ClearInterval (update (fun _ => with_started false (this w2)) w2)).
  { unfold stop. rewrite Hv2, Hs2. reflexivity. }
  rewrite Hstop.
  set (w3 := emit ClearInterval _).
  assert (Hidle : forall ts, foldl (fun w a => step' fuel W a w) w3 (DoStop <$> ts) = w3).
  { induction ts as [|t ts IH]; [reflexivity|]. cbn [fmap list_fmap foldl step].
    assert (fst (stop t w3) = w3) as ->; [|exact IH].
    unfold stop. subst w3. cbn. now rewrite orb_true_r. }
  rewrite Hidle. subst w3. cbn [effects emit update this started with_started].
  rewrite He2, He1. unfold countIf.
  rewrite !List.filter_app, !length_app. cbn. repeat split; lia.
Qed.

(** X10: until the job of its [once] promise has run, an instance has no
    position, and a render moves the cursor by [Spinner.count - undefined]:
    from the constructor on, after any steps that do not include that job,
    the first thing [renderLine] does is a cursor move by NaN. *)
Theorem render_before_job_moves_by_NaN fuel W o cnt w (acts : list action) symbol :
  construct cliSpinners defaultPreset o cnt = Ok w ->
  Job ∉ acts ->
  let w' := run' fuel W acts w in
  spinnerPos (this w') = None
  /\ exists rest,
       effects (fst (renderLine' fuel W symbol w'))
       = effects w' ++ MoveCursor 0 None :: rest.
Proof.
  intros Hc Hj. cbn zeta.
  assert (Hnone : spinnerPos (this w) = None).
  { unfold construct in Hc. destruct (negb _).
    - now inversion Hc.
    - cbn in Hc.
      destruct (set_spinner cliSpinners defaultPreset (opt_spinner o) (blank true))
        as [sp1|e] eqn:E1; cbn in Hc; [|discriminate].
      destruct (set_text _ _) as [sp2|e] eqn:E2; cbn in Hc; [|discriminate].
      destruct (set_color _ sp2) as [sp3|e] eqn:E3; cbn in Hc; [|discriminate].
      inversion Hc; subst. cbn.
      rewrite (set_color_pos _ _ _ E3).
      apply set_text_pos in E2 as [-> _].
      assert (spinnerPos (set_prefixText (opt_prefixText o) sp1) = spinnerPos sp1) as ->
        by now destruct (opt_prefixText o).
      now rewrite (set_spinner_pos _ _ _ _ _ E1). }
  assert (Hkeep : spinnerPos (this (run' fuel W acts w)) = None).
  { rewrite <- Hnone. clear Hnone Hc. revert w.
    induction acts as [|a acts IH]; intros w; [reflexivity|].
    apply not_elem_of_cons in Hj as [Ha Hj].
    unfold run in *. cbn [foldl]. rewrite (IH Hj).
    now destruct (step_not_job cliSpinners defaultPreset ansiMatch stripAnsi wcwidth kleur
                    logSymbols_success logSymbols_error fuel W a w) as [Hp _]. }
  split; [exact Hkeep|].
  unfold renderLine. rewrite Hkeep. cbn [fmap option_fmap option_map].
  destruct (lineToRender' _ _ _ _) as [sp1 [line|e|]]; cbn;
    rewrite <- ?app_assoc; cbn; eauto.
Qed.

(** X11: with a colour for which [kleur] has no function, a render throws
    after the cursor has been moved up and before anything else: the line is
    not cleared, nothing is written and the cursor is not moved back.  So
    [succeed] and [failed] never emit their event on such an instance. *)
Theorem unsupported_color_stops_the_render glyph ev fuel W symbol text w c :
  symColor (this w) = Some c -> kleur c = None ->
  (exists dy,
      renderLine' fuel W symbol w
      = (update (fun _ => snd (pickFrame symbol (this w))) (emit (MoveCursor 0 dy) w),
         Throws (TypeError (js "kleur[this.color] is not a function"))))
  /\ (verbose (this w) = true ->
      exists e extra,
        snd (finish' glyph ev fuel W text w) = Throws e
        /\ effects (fst (finish' glyph ev fuel W text w)) = effects w ++ extra
        /\ Forall (fun x => forall ev', x <> Emit ev') extra).
Proof.
  intros Hc Hk.
  assert (Hrender : forall sym w0, symColor (this w0) = Some c ->
            exists dy,
              renderLine' fuel W sym w0
              = (update (fun _ => snd (pickFrame sym (this w0))) (emit (MoveCursor 0 dy) w0),
                 Throws (TypeError (js "kleur[this.color] is not a function")))).
  { intros sym w0 Hc0. eexists. unfold renderLine.
    match goal with |- context [lineToRender' ?f ?cl ?s ?x] =>
      pose proof (lineToRender_throws f cl s x c) as Hthrow;
      pose proof (lineToRender_state ansiMatch stripAnsi wcwidth kleur f cl s x) as Hstate;
      destruct (lineToRender' f cl s x) as [sp1 r] end.
    cbn [fst snd] in Hthrow, Hstate. rewrite Hthrow by assumption. subst sp1.
    reflexivity. }
  split; [now apply Hrender|]. intros Hv.
  unfold finish. rewrite Hv. cbn [negb]. unfold stop. rewrite Hv. cbn [negb orb].
  destruct (started (this w)) eqn:Hs; cbn [negb].
  - destruct (overrideText text (this w)) as [sp0|e] eqn:Ht.
    + set (w1 := emit ClearInterval _).
      assert (Hc1 : symColor (this w1) = Some c).
      { subst w1. cbn. apply overrideText_cases in Ht as [[_ ->]|(s & _ & ->)]; exact Hc. }
      destruct (Hrender (Some glyph) w1 Hc1) as [dy ->].
      eexists _, [ClearInterval; MoveCursor 0 dy].
      split; [reflexivity|]. split.
      * subst w1. cbn. now rewrite <- app_assoc.
      * repeat constructor; discriminate.
    + exists e, []. split; [reflexivity|]. split; [now rewrite app_nil_r | constructor].
  - destruct (Hrender (Some glyph) w Hc) as [dy ->]. eexists _, [MoveCursor 0 dy].
    split; [reflexivity|]. split; [reflexivity | repeat constructor; discriminate].
Qed.

End LifecycleFacts.

Lemma quiet_instance_ignores_methods_witness :
  let w := mkWorld 2 (blank false) NoEmitter [] in
  Reference.run 1 80 [DoStart (VNum 3); DoSucceed VUndefined; DoStop VNull] w = w.
Proof.
  apply (quiet_instance_ignores_methods Reference.cliSpinners Reference.dots
           Reference.ansiMatch Reference.stripAnsi Reference.wcwidth Reference.kleur
           Reference.logSymbols_success Reference.logSymbols_error).
  - reflexivity.
  - repeat constructor.
Defined.


Lemma idle_instance_keeps_its_text_witness :
  let w := mkWorld 1 (Reference.spinnerWith (js "loading")) CallbackRan [] in
  stop (VNum 5) w = (w, Returns tt)
  /\ symText (this (fst (finish Reference.ansiMatch Reference.stripAnsi Reference.wcwidth
                                Reference.kleur Reference.logSymbols_success EvSucceed
                                1 80 (VStr (js "done")) w)))
     = js "loading".
Proof.
  cbn zeta.
  destruct (idle_instance_keeps_its_text Reference.ansiMatch Reference.stripAnsi
              Reference.wcwidth Reference.kleur Reference.logSymbols_success EvSucceed
              1 80 (VNum 5)
              (mkWorld 1 (Reference.spinnerWith (js "loading")) CallbackRan [])
              eq_refl eq_refl) as (Hstop & _ & _).
  destruct (idle_instance_keeps_its_text Reference.ansiMatch Reference.stripAnsi
              Reference.wcwidth Reference.kleur Reference.logSymbols_success EvSucceed
              1 80 (VStr (js "done"))
              (mkWorld 1 (Reference.spinnerWith (js "loading")) CallbackRan [])
              eq_refl eq_refl) as (_ & _ & Hthis).
  split; [exact Hstop|]. now rewrite Hthis.
Defined.

Lemma second_start_sets_a_second_interval_witness :
  let w := mkWorld 0 (Reference.spinnerWith (js "loading")) Listening [] in
  let w3 := Reference.run 1 80 [DoStart VUndefined; DoStart VUndefined;
                                DoStop VUndefined; DoStop VUndefined] w in
  countIf isSetInterval (effects w3) = 2
  /\ countIf isClearInterval (effects w3) = 1.
Proof.
  cbn zeta.
  destruct (second_start_sets_a_second_interval Reference.cliSpinners Reference.dots
              Reference.ansiMatch Reference.stripAnsi Reference.wcwidth Reference.kleur
              Reference.logSymbols_success Reference.logSymbols_error
              1 80 VUndefined VUndefined [VUndefined]
              (mkWorld 0 (Reference.spinnerWith (js "loading")) Listening [])
              eq_refl eq_refl eq_refl) as (Hset & Hclear & _).
  split; [exact Hset | exact Hclear].
Defined.

Lemma render_before_job_moves_by_NaN_witness :
  exists w rest,
    Reference.construct (mkOptions VUndefined VUndefined (VStr (js "loading")) VUndefined VUndefined) 0
    = Ok w
    /\ effects (fst (renderLine Reference.ansiMatch Reference.stripAnsi Reference.wcwidth
                                Reference.kleur 1 80 (Some Reference.logSymbols_success)
                                (Reference.run 1 80 [DoStart VUndefined] w)))
       = effects (Reference.run 1 80 [DoStart VUndefined] w) ++ MoveCursor 0 None :: rest.
Proof.
  eexists.
  destruct (render_before_job_moves_by_NaN Reference.cliSpinners Reference.dots
              Reference.ansiMatch Reference.stripAnsi Reference.wcwidth Reference.kleur
              Reference.logSymbols_success Reference.logSymbols_error
              1 80 (mkOptions VUndefined VUndefined (VStr (js "loading")) VUndefined VUndefined)
              0 _ [DoStart VUndefined] (Some Reference.logSymbols_success) eq_refl)
    as (_ & rest & Hrest).
  - intros Hin. apply list_elem_of_In in Hin. cbn in Hin. intuition discriminate.
  - exists rest. split; [reflexivity | exact Hrest].
Defined.

Lemma unsupported_color_stops_the_render_witness :
  let w := mkWorld 3 (with_started true
                        (with_color (Some (js "notacolor")) (Reference.spinnerWith (js "loading"))))
                   CallbackRan [] in
  exists e extra,
    snd (finish Reference.ansiMatch Reference.stripAnsi Reference.wcwidth Reference.kleur
                Reference.logSymbols_success EvSucceed 1 80 VUndefined w) = Throws e
    /\ effects (fst (finish Reference.ansiMatch Reference.stripAnsi Reference.wcwidth
                            Reference.kleur Reference.logSymbols_success EvSucceed
                            1 80 VUndefined w)) = [] ++ extra
    /\ Forall (fun x => forall ev', x <> Emit ev') extra.
Proof.
  cbn zeta.
  destruct (unsupported_color_stops_the_render Reference.ansiMatch Reference.stripAnsi
              Reference.wcwidth Reference.kleur Reference.logSymbols_success EvSucceed
              1 80 None VUndefined
              (mkWorld 3 (with_started true
                            (with_color (Some (js "notacolor"))
                                        (Reference.spinnerWith (js "loading"))))
                       CallbackRan [])
              (js "notacolor") eq_refl eq_refl) as [_ H].
  exact (H eq_refl).
Defined.

(** ** The recap line *)

Lemma writeRecap_recapEffect col total c :
  Forall (recapEffect col) (writeRecap col total c).
Proof.
  unfold writeRecap. cbn zeta.
  destruct (col <? length (recapStr total c)) eqn:E; repeat constructor;
    cbn [recapEffect].
  - unfold slice0. rewrite length_take. lia.
  - now apply Nat.ltb_ge in E.
Qed.

(** A listener changes the counters by the event alone and appends to the
    log only what a recap write does, and nothing while the recap is
    hidden. *)
Lemma onEvent_shape mode col total ev c log :
  exists extra,
    onEvent mode col total ev (c, log)
    = (fst (onEvent mode col total ev (c, [])), log ++ extra)
    /\ Forall (recapEffect col) extra
    /\ (c_recap (fst (onEvent mode col total ev (c, []))) = false -> extra = []).
Proof.
  pose proof (writeRecap_recapEffect col total) as Hw.
  destruct ev; cbn [onEvent];
    match goal with |- context [if ?b then _ else _] => destruct b eqn:Hb end;
    cbn [fst]; eexists; (split; [try reflexivity|]).
  all: try (rewrite app_nil_r; reflexivity).
  all: try (split; [constructor | reflexivity]).
  all: apply andb_true_iff in Hb as [_ Hr]; cbn [c_recap] in Hr |- *.
  all: split; [| rewrite Hr; discriminate].
  all: rewrite ?app_nil_l; try apply Hw.
  apply Forall_app. split; [repeat constructor | apply Hw].
Qed.

Lemma listen_shape mode col total events c log :
  exists extra,
    listen mode col total events (c, log)
    = (fst (listen mode col total events (c, [])), log ++ extra)
    /\ Forall (recapEffect col) extra.
Proof.
  revert c log. unfold listen.
  induction events as [|ev events IH]; intros c log; cbn [foldl].
  - exists []. rewrite app_nil_r. split; [reflexivity | constructor].
  - set (c1 := fst (onEvent mode col total ev (c, []))).
    destruct (onEvent_shape mode col total ev c log) as (e1 & E1 & H1 & _).
    destruct (onEvent_shape mode col total ev c []) as (e0 & E0 & _ & _).
    fold c1 in E1, E0. rewrite E1, E0.
    destruct (IH c1 (log ++ e1)) as (e2 & -> & H2).
    destruct (IH c1 ([] ++ e0)) as (e3 & -> & _).
    exists (e1 ++ e2). rewrite app_assoc. cbn [fst].
    split; [reflexivity | now apply Forall_app].
Qed.

Lemma onEvent_counters mode col total ev c :
  let c' := fst (onEvent mode col total ev (c, [])) in
  c_started c' = c_started c + (if isEvStart ev then 1 else 0)
  /\ c_finished c' = c_finished c + (if isEvStart ev then 0 else 1)
  /\ c_failed c' = c_failed c + (if isEvFailed ev then 1 else 0)
  /\ c_recap c' = (if isEvFailed ev
                   then bool_decide (mode = js "error") || bool_decide (mode = js "always")
                   else c_recap c).
Proof.
  destruct ev; cbn [onEvent];
    match goal with |- context [if ?b then _ else _] => destruct b end;
    cbn; repeat split; lia.
Qed.

Lemma listen_cons mode col total ev events c :
  fst (listen mode col total (ev :: events) (c, []))
  = fst (listen mode col total events (fst (onEvent mode col total ev (c, [])), [])).
Proof.
  set (c1 := fst (onEvent mode col total ev (c, []))).
  unfold listen at 1. cbn [foldl].
  destruct (onEvent_shape mode col total ev c []) as (e0 & E0 & _ & _).
  fold c1 in E0. rewrite E0.
  fold (listen mode col total events (c1, [] ++ e0)).
  destruct (listen_shape mode col total events c1 ([] ++ e0)) as (e1 & -> & _).
  reflexivity.
Qed.

Lemma listen_counters mode col total events c :
  let c' := fst (listen mode col total events (c, [])) in
  c_started c' = c_started c + countIf isEvStart events
  /\ c_finished c' = c_finished c + countIf isEvSucceed events + countIf isEvFailed events
  /\ c_failed c' = c_failed c + countIf isEvFailed events.
Proof.
  cbn zeta. revert c. induction events as [|ev events IH]; intros c.
  - cbn. repeat split; lia.
  - rewrite listen_cons.
    destruct (IH (fst (onEvent mode col total ev (c, [])))) as (H1 & H2 & H3).
    destruct (onEvent_counters mode col total ev c) as (E1 & E2 & E3 & _).
    rewrite H1, H2, H3, E1, E2, E3. unfold countIf.
    destruct ev; cbn; repeat split; lia.
Qed.

Lemma listen_recap mode col total events c :
  c_recap (fst (listen mode col total events (c, [])))
  = if existsb isEvFailed events
    then bool_decide (mode = js "error") || bool_decide (mode = js "always")
    else c_recap c.
Proof.
  revert c. induction events as [|ev events IH]; intros c; [reflexivity|].
  rewrite listen_cons, IH.
  destruct (onEvent_counters mode col total ev c) as (_ & _ & _ & ->).
  destruct ev; cbn; try reflexivity. now destruct (existsb isEvFailed events).
Qed.

(** X12: the counters after any sequence of life-cycle events: [started]
    has grown by the number of start events, [finished] by the number of
    succeed and failed events, [failed] by the number of failed events; so
    [failed] never exceeds [finished] when it did not before. *)
Theorem recap_counters mode col total events c :
  let c' := fst (listen mode col total events (c, [])) in
  c_started c' = c_started c + countIf isEvStart events
  /\ c_finished c' = c_finished c + countIf isEvSucceed events + countIf isEvFailed events
  /\ c_failed c' = c_failed c + countIf isEvFailed events
  /\ (c_failed c <= c_finished c -> c_failed c' <= c_finished c').
Proof.
  cbn zeta.
  destruct (listen_counters mode col total events c) as (H1 & H2 & H3).
  repeat split; try assumption. lia.
Qed.

(** X13: whether the recap is visible after the events: with the mode
    [always] it is, with the mode [none] it is not, and with the mode [error]
    it is exactly when a failed event has been seen. *)
Theorem recap_visible_exactly_when mode col total events :
  c_recap (fst (listen mode col total events (initialCounters mode, [])))
  = bool_decide (mode = js "always")
    || (bool_decide (mode = js "error") && existsb isEvFailed events).
Proof.
  rewrite listen_recap. cbn [initialCounters c_recap].
  destruct (existsb isEvFailed events), (bool_decide (mode = js "error")),
    (bool_decide (mode = js "always")); reflexivity.
Qed.

Lemma recap_visible_exactly_when_witness :
  c_recap (fst (listen (js "error") 80 3 [EvStart; EvSucceed; EvFailed; EvSucceed]
                       (initialCounters (js "error"), []))) = true
  /\ c_recap (fst (listen (js "error") 80 3 [EvStart; EvSucceed]
                          (initialCounters (js "error"), []))) = false.
Proof.
  split.
  - now rewrite (recap_visible_exactly_when (js "error") 80 3
                   [EvStart; EvSucceed; EvFailed; EvSucceed]).
  - now rewrite (recap_visible_exactly_when (js "error") 80 3 [EvStart; EvSucceed]).
Defined.

Lemma recap_counters_witness :
  let c := fst (listen (js "always") 80 3
                  [EvStart; EvStart; EvStart; EvSucceed; EvFailed; EvSucceed]
                  (initialCounters (js "always"), [])) in
  c_started c = 3 /\ c_finished c = 3 /\ c_failed c = 1 /\ c_failed c <= c_finished c.
Proof.
  cbn zeta.
  destruct (recap_counters (js "always") 80 3
              [EvStart; EvStart; EvStart; EvSucceed; EvFailed; EvSucceed]
              (initialCounters (js "always"))) as (H1 & H2 & H3 & H4).
  split; [exact H1|]. split; [exact H2|]. split; [exact H3|].
  apply H4. cbn. lia.
Defined.

(** ** [startAll]: what is written, and when the call settles *)

(** The body of [startAll] once the arguments have passed the checks. *)
Lemma startAll_run col events order elems o mode :
  checkEntries elems = Ok tt -> checkRecap o = Ok mode ->
  let total := length elems in
  let st := join (invoke <$> elems) order in
  let heard := listen mode col total events
                      (initialCounters mode, HideCursor :: (Invoke <$> seq 0 total)) in
  startAll col events order (Array elems) o
  = match allSettled st with
    | None => mkBatch (snd heard) Pending None
    | Some results =>
        let log := if c_recap (fst heard)
                   then snd heard ++ writeRecap col total (fst heard)
                        ++ [MoveCursor 0 (Some (Z.of_nat (LINE_JUMP + 1)))]
                   else snd heard in
        match (if rejectOpt o then printRejects (rejected st) log else (log, Ok tt)) with
        | (log, Throw e) => mkBatch log (RejectedWith e) None
        | (log, Ok _) => mkBatch (log ++ [ShowCursor]) (Fulfilled results) (Some 0)
        end
    end.
Proof.
  intros He Hr. cbn zeta. unfold startAll. rewrite He. cbn [mbind result_bind].
  rewrite Hr. unfold listen, initialCounters.
  destruct (foldl _ _ events) as [c log]. reflexivity.
Qed.

Lemma printRejects_log rs log :
  exists extra,
    fst (printRejects rs log) = log ++ extra
    /\ Forall (fun e => isConsoleError e = true) extra
    /\ (snd (printRejects rs log) = Ok tt -> extra = diagnostic <$> rs).
Proof.
  revert log. induction rs as [|r rs IH]; intros log; cbn [printRejects].
  - exists []. rewrite app_nil_r. repeat split; constructor.
  - destruct (stackOf r) as [stack|e] eqn:E.
    + destruct (IH (log ++ [ConsoleError (LF :: stack)])) as (extra & -> & Hf & Hok).
      exists (ConsoleError (LF :: stack) :: extra). rewrite <- app_assoc.
      split; [reflexivity|]. split; [now constructor|].
      intros H. rewrite (Hok H). cbn. f_equal. unfold diagnostic.
      destruct r; cbn in E |- *; congruence.
    + exists []. rewrite app_nil_r. repeat split; [constructor | discriminate].
Qed.

(** While the recap is hidden and stays hidden, the listeners write
    nothing. *)
Lemma listen_silent mode col total events c log :
  c_recap c = false ->
  mode = js "none" \/ existsb isEvFailed events = false ->
  snd (listen mode col total events (c, log)) = log
  /\ c_recap (fst (listen mode col total events (c, log))) = false.
Proof.
  revert c log. induction events as [|ev events IH]; intros c log Hc Hwhy;
    [now split|].
  unfold listen. cbn [foldl].
  destruct (onEvent_shape mode col total ev c log) as (e1 & -> & _ & Hnil).
  destruct (onEvent_counters mode col total ev c) as (_ & _ & _ & Hrecap).
  cbn zeta in Hrecap.
  assert (Hstill : c_recap (fst (onEvent mode col total ev (c, []))) = false).
  { rewrite Hrecap. destruct Hwhy as [-> | Hno].
    - destruct ev; cbn [isEvFailed]; try assumption. reflexivity.
    - destruct ev; cbn in Hno |- *; try assumption. discriminate. }
  rewrite (Hnil Hstill), app_nil_r.
  apply IH; [exact Hstill|].
  destruct Hwhy as [?|Hno]; [now left | right].
  destruct ev; cbn in Hno; try assumption. discriminate.
Qed.

(** Everything a call that passed the checks puts in the log: hiding the
    cursor and calling the tasks, then recap effects, diagnostics, and the
    cursor shown again at the very end, if at all. *)
Lemma startAll_log col events order elems o mode :
  checkEntries elems = Ok tt -> checkRecap o = Ok mode ->
  exists recaps diagnostics last,
    b_effects (startAll col events order (Array elems) o)
    = HideCursor :: (Invoke <$> seq 0 (length elems)) ++ recaps ++ diagnostics ++ last
    /\ Forall (recapEffect col) recaps
    /\ Forall (fun e => isConsoleError e = true) diagnostics
    /\ (last = [] \/ last = [ShowCursor])
    /\ (mode = js "none" \/ (mode = js "error" /\ existsb isEvFailed events = false) ->
        recaps = [])
    /\ (rejectOpt o = false -> diagnostics = []).
Proof.
  intros He Hr. rewrite (startAll_run col events order elems o mode He Hr). cbn zeta.
  set (total := length elems).
  set (pre := HideCursor :: (Invoke <$> seq 0 total)).
  destruct (listen_shape mode col total events (initialCounters mode) pre)
    as (heard & Eh & Hheard).
  assert (Hsilent : mode = js "none"
                    \/ (mode = js "error" /\ existsb isEvFailed events = false) ->
                    heard = []
                    /\ c_recap (fst (listen mode col total events (initialCounters mode, pre)))
                       = false).
  { intros Hwhy.
    destruct (listen_silent mode col total events (initialCounters mode) pre) as [Hs Hc].
    - destruct Hwhy as [-> | [-> _]]; reflexivity.
    - destruct Hwhy as [? | [_ ?]]; auto.
    - split; [|exact Hc]. rewrite Eh in Hs. cbn [snd] in Hs.
      apply (app_inv_head pre). now rewrite app_nil_r. }
  set (c := fst (listen mode col total events (initialCounters mode, pre))) in *.
  assert (Esnd : snd (listen mode col total events (initialCounters mode, pre))
                 = pre ++ heard) by now rewrite Eh.
  rewrite Esnd. clear Eh Esnd.
  destruct (allSettled _) as [results|].
  2:{ exists heard, [], []. rewrite !app_nil_r.
      repeat split; auto. intros H. now apply Hsilent. }
  set (final := writeRecap col total c ++ [MoveCursor 0 (Some (Z.of_nat (LINE_JUMP + 1)))]).
  assert (Hfinal : Forall (recapEffect col) final).
  { apply Forall_app. split; [apply writeRecap_recapEffect | repeat constructor]. }
  set (recaps := if c_recap c then heard ++ final else heard).
  assert (Elog : (if c_recap c then (pre ++ heard) ++ final else pre ++ heard)
                 = pre ++ recaps).
  { subst recaps. destruct (c_recap c); now rewrite <- ?app_assoc. }
  assert (Hrecaps : Forall (recapEffect col) recaps).
  { subst recaps. destruct (c_recap c); [now apply Forall_app | assumption]. }
  assert (Hnone : mode = js "none"
                  \/ (mode = js "error" /\ existsb isEvFailed events = false) ->
                  recaps = []).
  { intros Hwhy. destruct (Hsilent Hwhy) as [-> Hc]. subst recaps. now rewrite Hc. }
  fold final. rewrite <- !app_assoc, app_assoc, Elog.
  destruct (rejectOpt o) eqn:Hrej.
  - destruct (printRejects_log (rejected (join (invoke <$> elems) order)) (pre ++ recaps))
      as (diags & Ed & Hd & _).
    destruct (printRejects _ _) as [log [[]|e]]; cbn [fst] in Ed; subst log;
      cbn [b_effects].
    + exists recaps, diags, [ShowCursor]. rewrite <- !app_assoc.
      repeat split; auto. discriminate.
    + exists recaps, diags, []. rewrite app_nil_r, <- !app_assoc.
      repeat split; auto. discriminate.
  - exists recaps, [], [ShowCursor]. cbn [b_effects]. rewrite <- !app_assoc.
    repeat split; auto.
Qed.

(** *** The listeners of earlier calls *)

Lemma hear_acc col ev ls acc log :
  foldl (hear col ev) (acc, log) ls
  = (acc ++ fst (foldl (hear col ev) ([], log) ls),
     snd (foldl (hear col ev) ([], log) ls)).
Proof.
  revert acc log. induction ls as [|l ls IH]; intros acc log.
  - cbn. now rewrite app_nil_r.
  - cbn [foldl hear].
    destruct (onEvent (l_recapOpt l) col (l_total l) ev (l_counters l, log)) as [c log1].
    rewrite (IH (acc ++ _)), (IH ([] ++ _)). cbn [fst snd].
    now rewrite <- !app_assoc.
Qed.

Lemma deliver_snoc col ev ls l log :
  deliver col (ls ++ [l], log) ev
  = (fst (deliver col (ls, log) ev)
       ++ [mkListener (l_recapOpt l) (l_total l)
             (fst (onEvent (l_recapOpt l) col (l_total l) ev
                           (l_counters l, snd (deliver col (ls, log) ev))))],
     snd (onEvent (l_recapOpt l) col (l_total l) ev
                  (l_counters l, snd (deliver col (ls, log) ev)))).
Proof.
  unfold deliver. cbn [fst snd]. rewrite foldl_app. cbn [foldl].
  destruct (foldl (hear col ev) ([], log) ls) as [heard log1]. cbn [hear fst snd].
  now destruct (onEvent _ _ _ _ _).
Qed.

(** Listeners that stay hidden hear the event and write nothing. *)
Lemma deliver_hidden col ev events ls log :
  Forall (staysHidden (ev :: events)) ls ->
  snd (deliver col (ls, log) ev) = log
  /\ Forall (staysHidden events) (fst (deliver col (ls, log) ev)).
Proof.
  unfold deliver. cbn [fst snd].
  induction 1 as [|l ls [Hc Hwhy] _ IH]; [now split|].
  cbn [foldl hear].
  destruct (listen_silent (l_recapOpt l) col (l_total l) [ev] (l_counters l) log Hc)
    as [Hlog Hrecap].
  { destruct Hwhy as [?|Hno]; [now left | right].
    cbn in Hno |- *. apply orb_false_elim in Hno as [-> _]. reflexivity. }
  unfold listen in Hlog, Hrecap. cbn [foldl] in Hlog, Hrecap.
  destruct (onEvent (l_recapOpt l) col (l_total l) ev (l_counters l, log)) as [c log1].
  cbn [fst snd] in Hlog, Hrecap. subst log1.
  rewrite hear_acc. cbn [fst snd]. destruct IH as [-> IH].
  split; [reflexivity|]. constructor; [|exact IH].
  split; [exact Hrecap|]. cbn [l_recapOpt].
  destruct Hwhy as [?|Hno]; [now left | right].
  cbn in Hno. now apply orb_false_elim in Hno as [_ ?].
Qed.

(** With hidden listeners before it, the last listener hears the events as
    if it were alone. *)
Lemma deliver_all_hidden col mode total events earlier c log :
  Forall (staysHidden events) earlier ->
  exists earlier',
    foldl (deliver col) (earlier ++ [mkListener mode total c], log) events
    = (earlier' ++ [mkListener mode total
                      (fst (listen mode col total events (c, log)))],
       snd (listen mode col total events (c, log))).
Proof.
  revert earlier c log. induction events as [|ev events IH]; intros earlier c log Hh.
  - exists earlier. reflexivity.
  - cbn [foldl]. rewrite deliver_snoc.
    destruct (deliver_hidden col ev events earlier log Hh) as [-> Hh'].
    cbn [l_recapOpt l_total l_counters].
    unfold listen. cbn [foldl].
    destruct (onEvent mode col total ev (c, log)) as [c1 log1]. cbn [fst snd].
    apply (IH _ c1 log1 Hh').
Qed.

Lemma startAllIn_hidden earlier col events order functions o :
  Forall (staysHidden events) earlier ->
  fst (startAllIn earlier col events order functions o)
  = startAll col events order functions o.
Proof.
  intros Hh. unfold startAllIn, startAll.
  destruct functions as [|elems]; [reflexivity|].
  destruct (_ ← checkEntries elems; checkRecap o) as [mode|e]; [|reflexivity].
  destruct (deliver_all_hidden col mode (length elems) events earlier
              (mkCounters (bool_decide (mode = js "always")) 0 0 0)
              (HideCursor :: (Invoke <$> seq 0 (length elems))) Hh) as [earlier' ->].
  rewrite last_snoc. cbn [from_option l_counters fst].
  unfold listen. now destruct (foldl _ _ events).
Qed.

(** X14: the listeners of a call stay on the process-wide emitter, so a
    batch is heard by the listeners of the calls before it as well.  With
    the recap mode [none], and with the mode [error] as long as no failed
    event arrives, a batch that passed the checks writes nothing to the
    terminal but the diagnostics (no recap line, no cursor move, no clearing
    of a line) when the listeners left by earlier calls, if any, are hidden
    and stay so; the call is then the call on an emitter without earlier
    listeners. *)
Theorem hidden_recap_writes_nothing earlier col events order elems o mode :
  checkEntries elems = Ok tt -> checkRecap o = Ok mode ->
  mode = js "none" \/ (mode = js "error" /\ existsb isEvFailed events = false) ->
  Forall (staysHidden events) earlier ->
  Forall quietEffect (b_effects (fst (startAllIn earlier col events order (Array elems) o)))
  /\ fst (startAllIn earlier col events order (Array elems) o)
     = startAll col events order (Array elems) o.
Proof.
  intros He Hr Hwhy Hh. rewrite (startAllIn_hidden _ _ _ _ _ _ Hh).
  split; [|reflexivity].
  destruct (startAll_log col events order elems o mode He Hr)
    as (recaps & diags & last & -> & _ & Hd & Hl & Hnone & _).
  rewrite (Hnone Hwhy). constructor; [exact I|].
  rewrite !Forall_app. repeat split.
  - apply Forall_fmap, Forall_forall. now intros.
  - constructor.
  - eapply Forall_impl; [exact Hd|]. now intros [].
  - destruct Hl as [-> | ->]; repeat constructor.
Qed.

(** A listener that an earlier call left visible does write during a later
    batch, whatever the recap mode of that batch.  A first batch of two
    tasks, of which one shows a spinner, leaves its counter of started
    spinners at 1; the start event of a second batch, run with the mode
    [none], brings it to 2, the number of tasks of the first batch, and the
    recap of the first batch is written. *)
Lemma earlier_listeners_write_during_a_later_batch :
  let none := mkStartAllOptions (VStr (js "none")) VUndefined in
  let left := snd (startAllIn [] 80 [EvStart; EvSucceed] []
                              (Array [resolves7; resolves7]) noOptions) in
  left = [mkListener (js "always") 2 (mkCounters true 1 1 0)]
  /\ StdoutWrite (js "2 / 2 : with 0 failed")
     ∈ b_effects (fst (startAllIn left 80 [EvStart; EvSucceed] [] (Array [resolves7]) none))
  /\ b_effects (startAll 80 [EvStart; EvSucceed] [] (Array [resolves7]) none)
     = [HideCursor; Invoke 0; ShowCursor].
Proof.
  cbn zeta. split; [reflexivity|]. split; [|reflexivity].
  now apply (list_elem_of_lookup_2 _ 10).
Qed.

Lemma hidden_recap_writes_nothing_witness :
  let none := mkStartAllOptions (VStr (js "none")) VUndefined in
  let left := snd (startAllIn [] 80 [EvStart; EvSucceed] [] (Array [resolves7]) none) in
  Forall quietEffect
         (b_effects (fst (startAllIn left 80 [EvStart; EvStart; EvSucceed; EvFailed] []
                                     (Array [resolves7; rejectsBoom]) none))).
Proof.
  cbn zeta.
  apply (hidden_recap_writes_nothing
           (snd (startAllIn [] 80 [EvStart; EvSucceed] [] (Array [resolves7])
                            (mkStartAllOptions (VStr (js "none")) VUndefined)))
           80 [EvStart; EvStart; EvSucceed; EvFailed] []
           [resolves7; rejectsBoom] (mkStartAllOptions (VStr (js "none")) VUndefined)
           (js "none")); [reflexivity | reflexivity | now left |].
  repeat constructor.
Defined.

(** X15: no write of a batch to the terminal is longer than the terminal is
    wide: every recap line is cut to [process.stdout.columns] code units. *)
Theorem recap_fits_the_terminal col events order functions o :
  Forall (fitsColumns col) (b_effects (startAll col events order functions o)).
Proof.
  destruct functions as [|elems]; [constructor|].
  destruct (checkEntries elems) as [[]|e1] eqn:He.
  2:{ unfold startAll. rewrite He. constructor. }
  destruct (checkRecap o) as [mode|e2] eqn:Hr.
  2:{ unfold startAll. rewrite He. cbn [mbind result_bind]. rewrite Hr. constructor. }
  destruct (startAll_log col events order elems o mode He Hr)
    as (recaps & diags & last & -> & Hrec & Hd & Hl & _).
  constructor; [exact I|]. rewrite !Forall_app. repeat split.
  - apply Forall_fmap, Forall_forall. now intros.
  - eapply Forall_impl; [exact Hrec|]. now intros [].
  - eapply Forall_impl; [exact Hd|]. now intros [].
  - destruct Hl as [-> | ->]; repeat constructor.
Qed.

Lemma recap_fits_the_terminal_witness :
  Forall (fitsColumns 10)
         (b_effects (startAll 10 [EvStart; EvStart; EvSucceed; EvFailed] [1; 0]
                              (Array [resolves7; rejectsBoom]) noOptions))
  /\ StdoutWrite (js "2 / 2 : wi")
     ∈ b_effects (startAll 10 [EvStart; EvStart; EvSucceed; EvFailed] [1; 0]
                           (Array [resolves7; rejectsBoom]) noOptions).
Proof.
  split.
  - apply recap_fits_the_terminal.
  - now apply (list_elem_of_lookup_2 _ 15).
Defined.

(** X16: an entry that is not an async function (or an array whose first
    item is not one) makes the call fail with a [TypeError] naming the kind of
    entry, whatever the options are, valid or not; the first such entry
    decides, no task is called and nothing is written.  The same holds for a
    first argument that is not an array. *)
Theorem invalid_entry_fails_first col events order good bad rest o err :
  Forall (fun e => checkEntry e = Ok tt) good ->
  checkEntry bad = Throw err ->
  startAll col events order (Array (good ++ bad :: rest)) o
  = mkBatch [] (RejectedWith err) None
  /\ (exists msg, err = TypeError msg)
  /\ startAll col events order NotArray o
     = mkBatch [] (RejectedWith (TypeError (js "functions param must be a type of <array>")))
               None.
Proof.
  intros Hgood Hbad.
  assert (E : checkEntries (good ++ bad :: rest) = Throw err).
  { induction Hgood as [|e good He _ IH]; cbn [app checkEntries].
    - now rewrite Hbad.
    - now rewrite He. }
  split; [|split; [|reflexivity]].
  - unfold startAll. now rewrite E.
  - destruct bad as [[body|]|[body|] args]; cbn in Hbad; inversion Hbad; eauto.
Qed.

Lemma invalid_entry_fails_first_witness :
  startAll 80 [] [] (Array [resolves7; Packed NotAsync []; Bare NotAsync])
           (mkStartAllOptions (VStr (js "sometimes")) VUndefined)
  = mkBatch []
      (RejectedWith (TypeError (js "The first item of an array in startAll() functions param must be a type of <Function>")))
      None.
Proof.
  destruct (invalid_entry_fails_first 80 [] [] [resolves7] (Packed NotAsync []) [Bare NotAsync]
              (mkStartAllOptions (VStr (js "sometimes")) VUndefined)
              (TypeError (js "The first item of an array in startAll() functions param must be a type of <Function>")))
    as [H _]; [repeat constructor | reflexivity | exact H].
Defined.

(** *** A task that never settles *)

Lemma settles_or_not (tasks : list settle) :
  Forall (fun s => s <> NeverSettles) tasks \/ NeverSettles ∈ tasks.
Proof.
  induction tasks as [|s tasks [IH|IH]].
  - left. constructor.
  - destruct s as [v|r|]; [left | left | right]; try (constructor; [discriminate|assumption]).
    apply elem_of_cons. now left.
  - right. apply elem_of_cons. now right.
Qed.

Lemma join_pending tasks order :
  allSettled (join tasks order) = None <-> NeverSettles ∈ tasks.
Proof.
  split.
  - intros Hnone. destruct (settles_or_not tasks) as [Hall|Hin]; [|assumption].
    destruct (join_allSettled tasks order Hall) as [results E]. congruence.
  - intros Hin. apply list_elem_of_lookup_1 in Hin as [i Hi].
    destruct (aligned_foldl tasks (order ++ seq 0 (length tasks)) _ (aligned_init tasks))
      as [Hlen Hal].
    fold (join tasks order) in Hlen, Hal.
    unfold allSettled. apply mapM_None, Exists_exists.
    destruct (lookup_lt_is_Some_2 (slots (join tasks order)) i) as [slot Hslot].
    { rewrite Hlen. now apply lookup_lt_Some in Hi. }
    exists slot. split; [now apply list_elem_of_lookup_2 in Hslot|].
    destruct slot as [x|]; [|reflexivity].
    specialize (Hal i x Hslot). now rewrite Hi in Hal.
Qed.

(** X17: a batch that passed the checks stays pending exactly when one of
    its tasks never settles, however the others end; then the cursor is
    never shown again and [Spinner.count] is never reset. *)
Theorem never_settling_task_stalls_the_batch col events order elems o mode :
  checkEntries elems = Ok tt -> checkRecap o = Ok mode ->
  let b := startAll col events order (Array elems) o in
  (b_promise b = Pending <-> Exists (fun e => invoke e = NeverSettles) elems)
  /\ (b_promise b = Pending -> (ShowCursor ∉ b_effects b) /\ b_count b = None).
Proof.
  intros He Hr. cbn zeta.
  rewrite (startAll_run col events order elems o mode He Hr). cbn zeta.
  assert (Hex : NeverSettles ∈ invoke <$> elems
                <-> Exists (fun e => invoke e = NeverSettles) elems).
  { rewrite list_elem_of_fmap, Exists_exists. split.
    - intros (e & E & Hin). eauto.
    - intros (e & Hin & E). eauto. }
  destruct (allSettled _) as [results|] eqn:Ea.
  - assert (Hno : ~ Exists (fun e => invoke e = NeverSettles) elems).
    { rewrite <- Hex, <- join_pending. rewrite Ea. discriminate. }
    set (log := if c_recap _ then _ else _).
    set (outcome := match (if rejectOpt o then _ else _) with (l, Throw e) => _ | (l, Ok _) => _ end).
    assert (Hnp : b_promise outcome <> Pending).
    { subst outcome. destruct (rejectOpt o); [destruct (printRejects _ log) as [l [[]|e]]|];
        discriminate. }
    split; [split; [intros H; now destruct Hnp | intros H; now destruct Hno]
           | intros H; now destruct Hnp].
  - split.
    + split; [intros _ | reflexivity]. apply Hex, (join_pending _ order), Ea.
    + intros _. split; [|reflexivity]. cbn [b_effects].
      destruct (listen_shape mode col (length elems) events (initialCounters mode)
                  (HideCursor :: (Invoke <$> seq 0 (length elems)))) as (heard & -> & Hh).
      cbn [snd]. intros Hin.
      apply elem_of_app in Hin as [Hin|Hin].
      * apply elem_of_cons in Hin as [Hin|Hin]; [discriminate|].
        apply list_elem_of_fmap in Hin as (i & Hi & _). discriminate.
      * rewrite Forall_forall in Hh. exact (Hh _ Hin).
Qed.

Lemma never_settling_task_stalls_the_batch_witness :
  let b := startAll 80 [EvStart] [] (Array [resolves7; Bare (AsyncFunction (fun _ => NeverSettles))])
                    noOptions in
  b_promise b = Pending /\ (ShowCursor ∉ b_effects b) /\ b_count b = None.
Proof.
  cbn zeta.
  destruct (never_settling_task_stalls_the_batch 80 [EvStart] []
              [resolves7; Bare (AsyncFunction (fun _ => NeverSettles))] noOptions
              (js "always") eq_refl eq_refl) as [Hiff Hthen].
  assert (H : b_promise (startAll 80 [EvStart] []
                           (Array [resolves7; Bare (AsyncFunction (fun _ => NeverSettles))])
                           noOptions) = Pending).
  { apply Hiff. right. left. reflexivity. }
  split; [exact H | exact (Hthen H)].
Defined.

(** *** The captured reasons *)

Lemma omap_ext_in {A B} (f g : A -> option B) (l : list A) :
  (forall x, x ∈ l -> f x = g x) -> omap f l = omap g l.
Proof.
  induction l as [|a l IH]; intros H; [reflexivity|]. cbn.
  rewrite (H a), IH; [reflexivity | | apply elem_of_cons; now left].
  intros x Hx. apply H, elem_of_cons. now right.
Qed.

Lemma omap_cons_eq {A B} (f : A -> option B) (a : A) (l : list A) :
  omap f (a :: l) = match f a with Some y => y :: omap f l | None => omap f l end.
Proof. reflexivity. Qed.

Lemma seq_split j n : j < n -> seq 0 n = seq 0 j ++ j :: seq (S j) (n - S j).
Proof.
  intros H. replace n with (j + S (n - S j)) at 1 by lia.
  now rewrite seq_app.
Qed.

(** Filling the slot of a rejecting task adds its reason to the captured
    ones; filling another slot adds none. *)
Lemma capturedSoFar_insert tasks st j x :
  slots st !! j = Some None ->
  j < length tasks ->
  capturedSoFar tasks (mkJoin (<[j := Some x]> (slots st)) (rejected st))
  ≡ₚ match tasks !! j with
     | Some (Rejects r) => r :: capturedSoFar tasks st
     | _ => capturedSoFar tasks st
     end.
Proof.
  intros Hs Hj. unfold capturedSoFar. cbn [slots].
  set (f' := fun i => match tasks !! i, <[j := Some x]> (slots st) !! i with
                      | Some (Rejects r), Some (Some _) => Some r
                      | _, _ => None
                      end).
  set (f := fun i => match tasks !! i, slots st !! i with
                     | Some (Rejects r), Some (Some _) => Some r
                     | _, _ => None
                     end).
  assert (Hother : forall l : list nat, j ∉ l -> omap f' l = omap f l).
  { intros l Hl. apply omap_ext_in. intros i Hi. unfold f', f.
    rewrite list_lookup_insert_ne; [reflexivity|]. intros ->. contradiction. }
  assert (Hfj : f j = None).
  { unfold f. rewrite Hs. now destruct (tasks !! j) as [[v|r|]|]. }
  assert (Hf'j : f' j = match tasks !! j with Some (Rejects r) => Some r | _ => None end).
  { unfold f'. rewrite list_lookup_insert_eq by (now apply lookup_lt_Some in Hs).
    reflexivity. }
  rewrite (seq_split j (length tasks) Hj), !omap_app, !omap_cons_eq, Hfj, Hf'j.
  rewrite !Hother.
  - destruct (tasks !! j) as [[v|r|]|]; try reflexivity.
    symmetry. apply Permutation_middle.
  - intros Hin. apply elem_of_seq in Hin. lia.
  - intros Hin. apply elem_of_seq in Hin. lia.
Qed.

Lemma captured_settleOne tasks st j :
  rejected st ≡ₚ capturedSoFar tasks st ->
  rejected (settleOne tasks st j) ≡ₚ capturedSoFar tasks (settleOne tasks st j).
Proof.
  intros H.
  destruct (settleOne_cases tasks st j)
    as [->|[(v & Hs & Ht & ->)|(reason & Hs & Ht & ->)]]; [assumption| |].
  - rewrite capturedSoFar_insert by (assumption || now apply lookup_lt_Some in Ht).
    now rewrite Ht.
  - cbn [rejected].
    assert (E : capturedSoFar tasks
                  (mkJoin (<[j := Some (VNum (Z.of_nat (S (length (rejected st)))))]> (slots st))
                          (rejected st ++ [reason]))
                = capturedSoFar tasks
                    (mkJoin (<[j := Some (VNum (Z.of_nat (S (length (rejected st)))))]> (slots st))
                            (rejected st))) by reflexivity.
    rewrite E, capturedSoFar_insert by (assumption || now apply lookup_lt_Some in Ht).
    rewrite Ht, <- H. symmetry. apply Permutation_cons_append.
Qed.

Lemma omap_lookup_seq {A B} (g : A -> option B) (l : list A) :
  omap (fun i => match l !! i with Some a => g a | None => None end) (seq 0 (length l))
  = omap g l.
Proof.
  induction l as [|a l IH] using rev_ind; [reflexivity|].
  rewrite length_app, Nat.add_1_r, seq_S, !omap_app. cbn.
  rewrite lookup_app_r, Nat.sub_diag by lia. cbn. f_equal.
  rewrite <- IH. apply omap_ext_in. intros i Hi. apply elem_of_seq in Hi.
  now rewrite lookup_app_l by lia.
Qed.

(** Once the join is fulfilled, the captured reasons are the reasons of the
    rejecting tasks, each once. *)
Lemma join_rejected tasks order results :
  allSettled (join tasks order) = Some results ->
  rejected (join tasks order) ≡ₚ rejectReasons tasks.
Proof.
  intros E.
  assert (Hinv : forall l st, rejected st ≡ₚ capturedSoFar tasks st ->
            rejected (foldl (settleOne tasks) st l)
            ≡ₚ capturedSoFar tasks (foldl (settleOne tasks) st l)).
  { induction l as [|j l IH]; intros st H; [assumption|].
    cbn. now apply IH, captured_settleOne. }
  rewrite (Hinv (order ++ seq 0 (length tasks)) (mkJoin (replicate (length tasks) None) [])).
  2:{ unfold capturedSoFar. cbn [slots rejected]. symmetry.
      replace (omap _ (seq 0 (length tasks))) with (@nil value); [reflexivity|].
      symmetry. clear. induction (seq 0 (length tasks)) as [|i l IH]; [reflexivity|].
      cbn. destruct (tasks !! i) as [[v|r|]|]; try assumption;
        destruct (replicate (length tasks) None !! i) as [o|] eqn:Hr; try assumption.
      apply lookup_replicate in Hr as [-> _]. assumption. }
  fold (join tasks order).
  unfold capturedSoFar, rejectReasons.
  rewrite <- (omap_lookup_seq (fun s => match s with Rejects r => Some r | _ => None end) tasks).
  match goal with |- omap ?F ?l ≡ₚ omap ?G ?l =>
    assert (Heq : omap F l = omap G l); [|now rewrite Heq] end.
  apply omap_ext_in. intros i Hi. apply elem_of_seq in Hi.
  unfold allSettled in E. apply mapM_Some in E.
  destruct (aligned_foldl tasks (order ++ seq 0 (length tasks)) _ (aligned_init tasks))
    as [Hlen _].
  fold (join tasks order) in Hlen.
  destruct (lookup_lt_is_Some_2 (slots (join tasks order)) i) as [slot Hslot]; [lia|].
  destruct (Forall2_lookup_l _ _ _ _ _ E Hslot) as (x & _ & Hid). cbn in Hid. subst slot.
  rewrite Hslot. destruct (tasks !! i) as [[v|r|]|]; reflexivity.
Qed.

(** X18: when a batch is fulfilled with the [rejects] option in force, the
    log ends with one diagnostic per captured reason and then the cursor
    shown again; nothing before is a diagnostic, and the captured reasons are
    the reasons of the rejecting tasks, each of them once.  Without the
    option no diagnostic is printed at all. *)
Theorem diagnostics_printed_once col events order elems o mode results :
  checkEntries elems = Ok tt -> checkRecap o = Ok mode ->
  b_promise (startAll col events order (Array elems) o) = Fulfilled results ->
  (rejectOpt o = true ->
   exists before captured,
     b_effects (startAll col events order (Array elems) o)
     = before ++ (diagnostic <$> captured) ++ [ShowCursor]
     /\ Forall (fun e => isConsoleError e = false) before
     /\ captured ≡ₚ rejectReasons (invoke <$> elems))
  /\ (rejectOpt o = false ->
      Forall (fun e => isConsoleError e = false)
             (b_effects (startAll col events order (Array elems) o))).
Proof.
  intros He Hr Hf.
  assert (Hquiet : forall l, Forall (recapEffect col) l ->
                     Forall (fun e => isConsoleError e = false) l).
  { intros l Hl. eapply Forall_impl; [exact Hl|]. now intros []. }
  assert (Hpre : Forall (fun e => isConsoleError e = false)
                        (HideCursor :: (Invoke <$> seq 0 (length elems)))).
  { constructor; [reflexivity|]. apply Forall_fmap, Forall_forall. now intros. }
  revert Hf. rewrite (startAll_run col events order elems o mode He Hr). cbn zeta.
  destruct (listen_shape mode col (length elems) events (initialCounters mode)
              (HideCursor :: (Invoke <$> seq 0 (length elems)))) as (heard & -> & Hh).
  cbn [fst snd].
  destruct (allSettled _) as [rs|] eqn:Ea; [|discriminate].
  set (log := if c_recap _ then _ else _).
  assert (Hlog : Forall (fun e => isConsoleError e = false) log).
  { subst log. destruct (c_recap _); rewrite ?Forall_app; repeat split;
      auto using writeRecap_recapEffect. }
  clearbody log.
  destruct (rejectOpt o).
  - destruct (printRejects_log (rejected (join (invoke <$> elems) order)) log)
      as (extra & Ex & _ & Hok).
    destruct (printRejects _ log) as [l [[]|e]]; [|discriminate].
    cbn [fst snd] in Ex, Hok. intros _. split; [intros _ | discriminate].
    exists log, (rejected (join (invoke <$> elems) order)).
    cbn [b_effects]. rewrite Ex, (Hok eq_refl), <- app_assoc.
    split; [reflexivity|]. split; [assumption|]. now apply (join_rejected _ _ rs).
  - intros _. split; [discriminate|]. intros _. cbn [b_effects].
    apply Forall_app. split; [assumption | repeat constructor].
Qed.

Lemma diagnostics_printed_once_witness :
  exists before captured,
    b_effects (startAll 80 [] [1; 0] (Array [rejectsBoom; resolves7; rejectsBoom]) noOptions)
    = before ++ (diagnostic <$> captured) ++ [ShowCursor]
    /\ Forall (fun e => isConsoleError e = false) before
    /\ length captured = 2.
Proof.
  destruct (diagnostics_printed_once 80 [] [1; 0] [rejectsBoom; resolves7; rejectsBoom]
              noOptions (js "always") _ eq_refl eq_refl eq_refl) as [H _].
  destruct (H eq_refl) as (before & captured & E & Hb & Hp).
  exists before, captured. split; [exact E|]. split; [exact Hb|].
  now rewrite Hp.
Defined.

(** X19: the recap never changes the outcome of a batch: the promise of a
    call that passed the checks is the same for every terminal width, every
    sequence of life-cycle events and every recap mode; it depends on the
    tasks, on the order in which they settle and on the [rejects] flag. *)
Theorem recap_never_changes_the_outcome col col' events events' order elems o o' mode mode' :
  checkEntries elems = Ok tt ->
  checkRecap o = Ok mode -> checkRecap o' = Ok mode' ->
  rejectOpt o = rejectOpt o' ->
  b_promise (startAll col events order (Array elems) o)
  = b_promise (startAll col' events' order (Array elems) o').
Proof.
  intros He Hr Hr' Hrej.
  rewrite (startAll_promise col events order elems o mode He Hr),
          (startAll_promise col' events' order elems o' mode' He Hr').
  cbn zeta. now rewrite Hrej.
Qed.

Lemma recap_never_changes_the_outcome_witness :
  b_promise (startAll 80 [EvStart; EvFailed] [1] (Array [resolves7; rejectsBoom])
                      (mkStartAllOptions (VStr (js "none")) (VBool true)))
  = b_promise (startAll 5 [] [1] (Array [resolves7; rejectsBoom]) noOptions).
Proof.
  apply (recap_never_changes_the_outcome 80 5 [EvStart; EvFailed] [] [1]
           [resolves7; rejectsBoom]
           (mkStartAllOptions (VStr (js "none")) (VBool true)) noOptions
           (js "none") (js "always")); reflexivity.
Defined.

(** X20: a batch whose tasks all resolve is fulfilled with their values in
    submission order, in whatever order they settle. *)
Theorem resolved_batch_returns_the_values col events order elems o mode values :
  checkEntries elems = Ok tt -> checkRecap o = Ok mode ->
  Forall2 (fun e v => invoke e = Resolves v) elems values ->
  b_promise (startAll col events order (Array elems) o) = Fulfilled values.
Proof.
  intros He Hr Hall.
  destruct (startAll_fulfilled col events order elems o mode He Hr) as [results E].
  { apply Forall_forall. intros e Hin.
    apply list_elem_of_lookup_1 in Hin as [i Hi].
    destruct (Forall2_lookup_l _ _ _ _ _ Hall Hi) as (v & _ & Hv).
    rewrite Hv. split; [discriminate | intros r; discriminate]. }
  rewrite E. f_equal.
  destruct (startAll_results col events order elems o results E) as (Hlen & Hres & _).
  apply list_eq. intros i.
  destruct (elems !! i) as [e|] eqn:Hi.
  - destruct (Forall2_lookup_l _ _ _ _ _ Hall Hi) as (v & Hv & Hinv).
    rewrite Hv. now apply (Hres i e v).
  - apply lookup_ge_None in Hi.
    rewrite !(proj2 (lookup_ge_None _ _)); [reflexivity | |].
    + apply Forall2_length in Hall. lia.
    + lia.
Qed.

Lemma resolved_batch_returns_the_values_witness :
  b_promise (startAll 80 [] [2; 0; 1]
               (Array [resolves7; Packed (AsyncFunction (fun args => Resolves (VNum (Z.of_nat (length args))))) [VNull; VNull];
                       resolves7])
               noOptions)
  = Fulfilled [VNum 7; VNum 2; VNum 7].
Proof.
  apply (resolved_batch_returns_the_values 80 [] [2; 0; 1] _ noOptions (js "always"));
    [reflexivity | reflexivity | repeat constructor].
Defined.

(** X21: the last recap line of a fulfilled batch.  When the recap is
    visible at the end (mode [always], or mode [error] after a failed event),
    the last write to the terminal is the line
    [finished / total : with failed failed], cut to the terminal width, where
    [finished] counts the succeed and failed events received, [failed] the
    failed events and [total] the tasks. *)
Theorem final_recap_line col events order elems o mode results :
  checkEntries elems = Ok tt -> checkRecap o = Ok mode ->
  mode = js "always" \/ (mode = js "error" /\ existsb isEvFailed events = true) ->
  b_promise (startAll col events order (Array elems) o) = Fulfilled results ->
  let line := showNat (countIf isEvSucceed events + countIf isEvFailed events)
              ++ js " / " ++ showNat (length elems) ++ js " : with "
              ++ showNat (countIf isEvFailed events) ++ js " failed" in
  exists before after,
    b_effects (startAll col events order (Array elems) o)
    = before ++ StdoutWrite (if col <? length line then slice0 col line else line) :: after
    /\ Forall (fun e => isStdoutWrite e = false) after.
Proof.
  intros He Hr Hvis. cbn zeta.
  rewrite (startAll_run col events order elems o mode He Hr). cbn zeta.
  set (total := length elems).
  set (pre := HideCursor :: (Invoke <$> seq 0 total)).
  destruct (listen_shape mode col total events (initialCounters mode) pre)
    as (heard & -> & _).
  cbn [fst snd].
  set (c := fst (listen mode col total events (initialCounters mode, []))).
  assert (Hc : c_recap c = true).
  { subst c. rewrite listen_recap. cbn [initialCounters c_recap].
    destruct Hvis as [-> | [-> ->]]; [|reflexivity].
    now destruct (existsb isEvFailed events). }
  assert (Hline : recapStr total c
                  = showNat (countIf isEvSucceed events + countIf isEvFailed events)
                    ++ js " / " ++ showNat total ++ js " : with "
                    ++ showNat (countIf isEvFailed events) ++ js " failed").
  { destruct (listen_counters mode col total events (initialCounters mode))
      as (_ & H2 & H3).
    fold c in H2, H3. unfold recapStr. rewrite H2, H3. reflexivity. }
  rewrite Hc.
  destruct (allSettled _) as [rs|]; [|discriminate].
  unfold writeRecap. cbn zeta. rewrite Hline.
  set (shown := if col <? length _ then _ else _).
  match goal with
  | |- context [ [?m1; ClearLine; StdoutWrite shown; ?m2] ++ [?m3] ] =>
      set (M1 := m1); set (M2 := m2); set (M3 := m3)
  end.
  assert (Hsplit : forall tail,
            ((pre ++ heard) ++ [M1; ClearLine; StdoutWrite shown; M2] ++ [M3]) ++ tail
            = ((pre ++ heard) ++ [M1; ClearLine])
              ++ StdoutWrite shown :: ([M2; M3] ++ tail)).
  { intros tail. rewrite <- !app_assoc. reflexivity. }
  destruct (rejectOpt o).
  - destruct (printRejects_log (rejected (join (invoke <$> elems) order))
                ((pre ++ heard) ++ [M1; ClearLine; StdoutWrite shown; M2] ++ [M3]))
      as (extra & Ex & Hextra & _).
    destruct (printRejects _ _) as [l [[]|e]]; [|discriminate].
    cbn [fst] in Ex. subst l. intros _. cbn [b_effects].
    exists ((pre ++ heard) ++ [M1; ClearLine]), ([M2; M3] ++ extra ++ [ShowCursor]).
    split; [now rewrite <- app_assoc, Hsplit|].
    repeat constructor. apply Forall_app. split; [|repeat constructor].
    eapply Forall_impl; [exact Hextra|]. now intros [].
  - intros _. cbn [b_effects].
    exists ((pre ++ heard) ++ [M1; ClearLine]), ([M2; M3] ++ [ShowCursor]).
    split; [now rewrite Hsplit | repeat constructor].
Qed.

Lemma final_recap_line_witness :
  exists before after,
    b_effects (startAll 80 [EvStart; EvStart; EvStart; EvSucceed; EvFailed; EvSucceed] []
                        (Array [resolves7; rejectsBoom; resolves7]) noOptions)
    = before ++ StdoutWrite (js "3 / 3 : with 1 failed") :: after
    /\ Forall (fun e => isStdoutWrite e = false) after.
Proof.
  exact (final_recap_line 80 [EvStart; EvStart; EvStart; EvSucceed; EvFailed; EvSucceed] []
           [resolves7; rejectsBoom; resolves7] noOptions (js "always") _
           eq_refl eq_refl (or_introl eq_refl) eq_refl).
Defined.

(** *** When the call rejects, and when it cleans up *)

Lemma printRejects_throws_inv rs log e :
  snd (printRejects rs log) = Throw e -> Exists nullish rs.
Proof.
  revert log. induction rs as [|r rs IH]; intros log; cbn [printRejects].
  - discriminate.
  - destruct (stackOf r) as [stack|e'] eqn:E.
    + intros H. right. now apply IH in H.
    + intros _. left. destruct r; cbn in E; try discriminate; unfold nullish; auto.
Qed.





(** X23: [startAll] shows the cursor again and resets [Spinner.count]
    exactly when the call is fulfilled: not when an argument is refused, not
    while a task is pending, and not when the call rejects while printing the
    diagnostics, which leaves the cursor hidden. *)
Theorem cleanup_exactly_when_fulfilled col events order functions o :
  let b := startAll col events order functions o in
  ((exists results, b_promise b = Fulfilled results) <-> b_count b = Some 0)
  /\ ((exists results, b_promise b = Fulfilled results) <-> ShowCursor ∈ b_effects b).
Proof.
  cbn zeta.
  assert (Hfail : forall e,
            ((exists results, b_promise (mkBatch [] (RejectedWith e) None) = Fulfilled results)
             <-> b_count (mkBatch [] (RejectedWith e) None) = Some 0)
            /\ ((exists results, b_promise (mkBatch [] (RejectedWith e) None) = Fulfilled results)
                <-> ShowCursor ∈ b_effects (mkBatch [] (RejectedWith e) None))).
  { intros e. cbn. split; (split; [intros [r H]; discriminate|]); [discriminate|].
    intros H. now apply elem_of_nil in H. }
  destruct functions as [|elems]; [apply Hfail|].
  destruct (checkEntries elems) as [[]|e1] eqn:He.
  2:{ unfold startAll. rewrite He. apply Hfail. }
  destruct (checkRecap o) as [mode|e2] eqn:Hr.
  2:{ unfold startAll. rewrite He. cbn [mbind result_bind]. rewrite Hr. apply Hfail. }
  rewrite (startAll_run col events order elems o mode He Hr). cbn zeta.
  set (pre := HideCursor :: (Invoke <$> seq 0 (length elems))).
  destruct (listen_shape mode col (length elems) events (initialCounters mode) pre)
    as (heard & -> & Hh).
  cbn [fst snd].
  assert (Hquiet : forall l, Forall (recapEffect col) l -> ShowCursor ∉ l).
  { intros l Hl Hin. rewrite Forall_forall in Hl. exact (Hl _ Hin). }
  assert (Hpre : ShowCursor ∉ pre ++ heard).
  { intros Hin. apply elem_of_app in Hin as [Hin|Hin]; [|now apply (Hquiet heard)].
    apply elem_of_cons in Hin as [Hin|Hin]; [discriminate|].
    apply list_elem_of_fmap in Hin as (i & Hi & _). discriminate. }
  destruct (allSettled _) as [results|].
  2:{ cbn. split; (split; [intros [r H]; discriminate|]);
        [discriminate | intros H; exfalso; now apply Hpre]. }
  set (log := if c_recap _ then _ else _).
  assert (Hlog : ShowCursor ∉ log).
  { subst log. destruct (c_recap _); [|assumption].
    intros Hin. apply elem_of_app in Hin as [Hin|Hin]; [now apply Hpre|].
    revert Hin. apply Hquiet, Forall_app.
    split; [apply writeRecap_recapEffect | repeat constructor]. }
  clearbody log.
  assert (Hdone : forall l,
            ((exists rs, b_promise (mkBatch (l ++ [ShowCursor]) (Fulfilled results) (Some 0))
                         = Fulfilled rs)
             <-> b_count (mkBatch (l ++ [ShowCursor]) (Fulfilled results) (Some 0)) = Some 0)
            /\ ((exists rs, b_promise (mkBatch (l ++ [ShowCursor]) (Fulfilled results) (Some 0))
                            = Fulfilled rs)
                <-> ShowCursor ∈ b_effects (mkBatch (l ++ [ShowCursor]) (Fulfilled results) (Some 0)))).
  { intros l. cbn. split; (split; [intros _ | eauto]); [reflexivity|].
    apply elem_of_app. right. apply elem_of_cons. now left. }
  destruct (rejectOpt o); [|apply Hdone].
  destruct (printRejects_log (rejected (join (invoke <$> elems) order)) log)
    as (extra & Ex & Hextra & _).
  destruct (printRejects _ log) as [l [[]|e]]; [apply Hdone|].
  cbn [fst] in Ex. subst l. cbn.
  split; (split; [intros [r H]; discriminate|]); [discriminate|].
  intros Hin. exfalso. apply elem_of_app in Hin as [Hin|Hin]; [now apply Hlog|].
  rewrite Forall_forall in Hextra. specialize (Hextra _ Hin). discriminate.
Qed.

(** ** [succeed] and [failed] on a running instance *)

Section FinishFacts.

Variable ansiMatch : jsstring -> list jsstring.
Variable stripAnsi : jsstring -> jsstring.
Variable wcwidth : jsstring -> nat.
Variable kleur : jsstring -> option (option jsstring -> jsstring).

Local Abbreviation lineToRender' := (lineToRender ansiMatch stripAnsi wcwidth kleur).
Local Abbreviation finish' := (finish ansiMatch stripAnsi wcwidth kleur).

(** X24: [succeed(text)] and [failed(text)] on a running verbose instance.
    When they return, the instance is idle with the text given (or its own
    text when none was given), and the log has gained, in this order, the
    interval cleared, the cursor moved up, the line cleared, the final line
    written (built from the glyph, not from a frame: the frame index is as
    before), the cursor moved back, and the event emitted once.  A text that
    is neither a string nor null nor undefined throws before anything changes:
    the instance stays running and nothing is rendered or emitted. *)
Theorem finish_on_running_instance glyph ev fuel W text w :
  verbose (this w) = true -> started (this w) = true ->
  (forall sp0,
      overrideText text (this w) = Ok sp0 ->
      snd (finish' glyph ev fuel W text w) = Returns tt ->
      exists line dy,
        snd (lineToRender' fuel W (Some glyph) (with_started false sp0)) = Returns line
        /\ effects (fst (finish' glyph ev fuel W text w))
           = effects w ++ [ClearInterval; MoveCursor 0 (Z.opp <$> dy); ClearLine;
                           StdoutWrite line;
                           MoveCursor (- Z.of_nat (length line)) dy; Emit ev]
        /\ this (fst (finish' glyph ev fuel W text w)) = with_started false sp0)
  /\ (Is.string text = false -> Is.nullOrUndefined text = false ->
      finish' glyph ev fuel W text w
      = (w, Throws (TypeError (js "text must be a type of string")))).
Proof.
  intros Hv Hs. split.
  - intros sp0 Ht. unfold finish, stop. rewrite Hv, Hs, Ht. cbn [negb orb].
    unfold renderLine. cbn [this emit update].
    pose proof (lineToRender_state ansiMatch stripAnsi wcwidth kleur fuel W (Some glyph)
                  (with_started false sp0)) as Hstate.
    destruct (lineToRender' fuel W (Some glyph) (with_started false sp0))
      as [sp1 [line|e|]]; cbn [fst snd] in Hstate |- *; try discriminate.
    intros _. subst sp1. eexists line, _. split; [reflexivity|].
    cbn. rewrite <- !app_assoc. split; reflexivity.
  - intros H1 H2. unfold finish, stop. rewrite Hv, Hs. cbn [negb orb].
    unfold overrideText. rewrite H2.
    destruct text; cbn in H1, H2 |- *; try discriminate; reflexivity.
Qed.

End FinishFacts.

Lemma finish_on_running_instance_witness :
  let w := mkWorld 2 (with_spinnerPos (Some 1)
                        (with_started true (Reference.spinnerWith (js "loading"))))
                   CallbackRan [] in
  let done := finish Reference.ansiMatch Reference.stripAnsi Reference.wcwidth Reference.kleur
                     Reference.logSymbols_success EvSucceed 1 80 (VStr (js "done")) w in
  exists line dy,
    effects (fst done)
    = [ClearInterval; MoveCursor 0 (Z.opp <$> dy); ClearLine; StdoutWrite line;
       MoveCursor (- Z.of_nat (length line)) dy; Emit EvSucceed]
    /\ symText (this (fst done)) = js "done"
    /\ started (this (fst done)) = false.
Proof.
  cbn zeta.
  destruct (finish_on_running_instance Reference.ansiMatch Reference.stripAnsi
              Reference.wcwidth Reference.kleur Reference.logSymbols_success EvSucceed
              1 80 (VStr (js "done"))
              (mkWorld 2 (with_spinnerPos (Some 1)
                            (with_started true (Reference.spinnerWith (js "loading"))))
                       CallbackRan [])
              eq_refl eq_refl) as [H _].
  destruct (H _ eq_refl eq_refl) as (line & dy & _ & He & Hthis).
  exists line, dy. split; [exact He|]. rewrite Hthis. split; reflexivity.
Defined.
